(** * The deinflection engine of [ext/bg/js/deinflector.js]

    A shallow embedding of the two classes [Deinflection] and [Deinflector]
    and the properties of the search tree and of the flattened paths.

    Conventions of the embedding.
    - A JavaScript string is the list of its UTF-16 code units; [endsWith],
      [slice] and [length] act on code units, as in the language.
    - The rule table is a JavaScript object enumerated with [for ... in]; it
      is kept as the list of its (key, value) pairs in enumeration order.
    - [definer(term)] answers with a promise.  Its answer for a term is
      [Resolve defs] (the promise fulfils), [Reject e] (the promise rejects)
      or [Throw e] (the call itself raises).
    - The callbacks registered with [then] run when their promise settles.
      The instant at which each promise settles belongs to the environment
      (it is the time the dictionary lookup takes), so it is an input: a
      [Clock] gives the settling instant of every promise of the search, and
      the callbacks of one node run in the order of these instants.
    - [Deinflection.deinflect] calls itself synchronously while it builds
      its promise array.  The recursion is not structural, so the embedding
      counts the nesting of the calls with a [fuel]; [Overflow] says that
      the nesting went past it. *)

From Stdlib Require Import String Ascii.
From Stdlib Require Import List Bool Arith ZArith NArith Lia Permutation.
Import ListNotations.
Local Open Scope list_scope.
#[local] Set Warnings "-register-all".

(** ** Strings and arrays of strings *)

Definition jsstring : Type := list N.

(** The code units of an ASCII literal. *)
Definition str (s : string) : jsstring := map N_of_ascii (list_ascii_of_string s).

Definition jsstring_eq_dec : forall a b : jsstring, {a = b} + {a <> b} :=
  list_eq_dec N.eq_dec.

Definition eqb_js (a b : jsstring) : bool :=
  if jsstring_eq_dec a b then true else false.

(** [arr.includes(x)] on an array of strings. *)
Definition includes (arr : list jsstring) (x : jsstring) : bool :=
  existsb (fun y => eqb_js y x) arr.

(** [s.endsWith(suffix)]. *)
Definition endsWith (s suffix : jsstring) : bool :=
  (length suffix <=? length s)
  && eqb_js (skipn (length s - length suffix) s) suffix.

(** [s.slice(0, end_)]: a negative [end_] counts from the end of the string,
    and [-0] is [0]. *)
Definition slice0 (s : jsstring) (end_ : Z) : jsstring :=
  let len := Z.of_nat (length s) in
  let upto := if (end_ <? 0)%Z then Z.max (len + end_) 0 else Z.min end_ len in
  firstn (Z.to_nat upto) s.

(** ** Data *)

(** A dictionary definition: the engine reads its [rules] only, the rest is
    passed through. *)
Record Defn : Type := { defn_rules : list jsstring; defn_rest : N }.

Definition Defn_eq_dec : forall a b : Defn, {a = b} + {a <> b}.
Proof.
  decide equality; [apply N.eq_dec | apply (list_eq_dec jsstring_eq_dec)].
Defined.

Record RuleVariant : Type := {
  kanaIn : jsstring;
  kanaOut : jsstring;
  rulesIn : list jsstring;
  rulesOut : list jsstring
}.

(** The rule table: reason name and its variants, in enumeration order. *)
Definition Reasons : Type := list (jsstring * list RuleVariant).

Definition Error : Type := string.

Inductive Reply : Type :=
| Resolve (defs : list Defn)
| Reject (e : Error)
| Throw (e : Error).

Definition Definer : Type := jsstring -> Reply.

(** How a promise settles. *)
Inductive Promise (A : Type) : Type :=
| Fulfilled (a : A)
| Rejected (e : Error).
Arguments Fulfilled {A} a.
Arguments Rejected {A} e.

(** How a synchronous call ends. *)
Inductive Call (A : Type) : Type :=
| Returns (a : A)
| Throws (e : Error)
| Overflow.
Arguments Returns {A} a.
Arguments Throws {A} e.
Arguments Overflow {A}.

(** The settling instant of the promise at index [k] of the promise array of
    the node at position [pos] is [clock (k :: pos)]; the root is at [[]] and
    the node explored by promise [k] of the node at [pos] is at [k :: pos]. *)
Definition Clock : Type := list nat -> nat.

(** A result path of [gather]; [source] is absent on a path that no
    ancestor has touched. *)
Record Path : Type := {
  root : jsstring;
  path_rules : list jsstring;
  path_definitions : list Defn;
  path_reasons : list jsstring;
  source : option jsstring
}.

(** ** class Deinflection *)

Module Deinflection.

#[local] Unset Elimination Schemes.
Inductive t : Type := Node {
  children : list t;
  term : jsstring;
  rules : list jsstring;
  reason : jsstring;
  definitions : list Defn
}.
#[local] Set Elimination Schemes.

(** Induction on the tree, with the hypothesis on every child. *)
Section Induction.

Variable P : t -> Prop.

Hypothesis step :
  forall cs term rules reason defs,
    Forall P cs -> P (Node cs term rules reason defs).

Fixpoint tree_ind (n : t) : P n :=
  match n with
  | Node cs term rules reason defs =>
      step cs term rules reason defs
        ((fix each (l : list t) : Forall P l :=
            match l with
            | [] => Forall_nil P
            | c :: l' => Forall_cons c (tree_ind c) (each l')
            end) cs)
  end.

End Induction.

(** [every P n]: [P] holds of [n] and of every node below it. *)
Inductive every (P : t -> Prop) : t -> Prop :=
| every_node n : P n -> Forall (every P) (children n) -> every P n.

(** [new Deinflection(term, rules, reason)]; the defaults of the source are
    [rules = []] and [reason = '']. *)
Definition new (term : jsstring) (rules : list jsstring) (reason : jsstring) : t :=
  Node [] term rules reason [].

Definition set_definitions (this : t) (defs : list Defn) : t :=
  Node (children this) (term this) (rules this) (reason this) defs.

Definition set_children (this : t) (cs : list t) : t :=
  Node cs (term this) (rules this) (reason this) (definitions this).

(** The inner loop of [validate]:
    [for (const definition of definitions) if (definition.rules.includes(rule)) push]. *)
Definition push_matching (rule : jsstring) (stored defs : list Defn) : list Defn :=
  fold_left
    (fun stored definition =>
       if includes (defn_rules definition) rule then stored ++ [definition] else stored)
    defs stored.

(** The callback of [validate]: what the node stores once the definer has
    answered [defs], and the flag [this.definitions.length > 0]. *)
Definition validate (this : t) (entry : bool) (defs : list Defn) : t * bool :=
  let this' :=
    if entry then set_definitions this defs
    else set_definitions this
           (fold_left (fun stored rule => push_matching rule stored defs)
                      (rules this) (definitions this)) in
  (this', 0 <? length (definitions this')).

(** The [allowed] flag of the expansion loop. *)
Definition allowed (this : t) (entry : bool) (variant : RuleVariant) : bool :=
  entry || existsb (fun rule => includes (rulesIn variant) rule) (rules this).

(** [this.term.slice(0, -variant.kanaIn.length) + variant.kanaOut]. *)
Definition rewrite (this : t) (variant : RuleVariant) : jsstring :=
  slice0 (term this) (- Z.of_nat (length (kanaIn variant))) ++ kanaOut variant.

(** The body of the inner expansion loop for one variant: the child that is
    constructed, if neither [continue] is taken. *)
Definition candidate (this : t) (entry : bool) (reason : jsstring)
    (variant : RuleVariant) : option t :=
  if negb (allowed this entry variant) || negb (endsWith (term this) (kanaIn variant))
  then None
  else
    let term := rewrite this variant in
    if length term =? 0 then None
    else Some (new term (rulesOut variant) reason).

(** The children constructed by the two nested loops, in loop order. *)
Definition candidates (reasons : Reasons) (this : t) (entry : bool) : list t :=
  flat_map
    (fun '(reason, variants) =>
       flat_map
         (fun variant =>
            match candidate this entry reason variant with
            | Some child => [child]
            | None => []
            end)
         variants)
    reasons.

(** A registered callback: when its promise settles, and the node it pushes
    on [this.children] (if any) or the rejection it passes on. *)
Record Task : Type := { settles : nat; carries : Promise (option t) }.

(** The callback [valid => { if (valid) { this.children.push(child); } }]
    chained on the promise of a child. *)
Definition then_push (promise : Promise (t * bool)) : Promise (option t) :=
  match promise with
  | Fulfilled (child', valid) => Fulfilled (if valid then Some child' else None)
  | Rejected e => Rejected e
  end.

(** [child.deinflect(definer, reasons).then(...)] for each constructed child,
    in loop order.  A call that throws or does not return ends the loop at
    once. *)
Fixpoint spawn (run : nat -> t -> Call (Promise (t * bool))) (instant : nat -> nat)
    (index : nat) (cands : list t) : Call (list Task) :=
  match cands with
  | [] => Returns []
  | child :: rest =>
      match run index child with
      | Throws e => Throws e
      | Overflow => Overflow
      | Returns promise =>
          let task := {| settles := instant index; carries := then_push promise |} in
          match spawn run instant (S index) rest with
          | Returns tasks => Returns (task :: tasks)
          | Throws e => Throws e
          | Overflow => Overflow
          end
      end
  end.

(** The callbacks of one node run by increasing settling instant; two
    promises with the same instant keep their order in the promise array. *)
Fixpoint enqueue (task : Task) (queue : list Task) : list Task :=
  match queue with
  | [] => [task]
  | next :: later =>
      if settles task <=? settles next then task :: next :: later
      else next :: enqueue task later
  end.

Definition settle_order (tasks : list Task) : list Task :=
  fold_right enqueue [] tasks.

(** [Promise.all] over the callbacks in settling order: the nodes pushed on
    [this.children], or the first rejection. *)
Fixpoint all (queue : list Task) : Promise (list t) :=
  match queue with
  | [] => Fulfilled []
  | task :: later =>
      match carries task with
      | Rejected e => Rejected e
      | Fulfilled pushed =>
          match all later with
          | Rejected e => Rejected e
          | Fulfilled cs =>
              Fulfilled (match pushed with Some c => c :: cs | None => cs end)
          end
      end
  end.

(** [deinflect(definer, reasons, entry)]: the node as the callbacks leave
    it, and the flag [this.children.length > 0].  [validated] is the promise
    of [validate()]; the loops run while it is pending. *)
Fixpoint deinflect (fuel : nat) (clock : Clock) (pos : list nat)
    (definer : Definer) (reasons : Reasons) (this : t) (entry : bool)
    : Call (Promise (t * bool)) :=
  match fuel with
  | O => Overflow
  | S fuel' =>
      let expand (validated : Promise (t * bool)) : Call (Promise (t * bool)) :=
        let first : Task :=
          {| settles := clock (0 :: pos);
             carries :=
               match validated with
               | Fulfilled _ => Fulfilled (Some (new (term this) (rules this) []))
               | Rejected e => Rejected e
               end |} in
        match spawn (fun index child =>
                       deinflect fuel' clock (index :: pos) definer reasons child false)
                    (fun index => clock (index :: pos))
                    1 (candidates reasons this entry) with
        | Throws e => Throws e
        | Overflow => Overflow
        | Returns tasks =>
            Returns
              match all (settle_order (first :: tasks)) with
              | Rejected e => Rejected e
              | Fulfilled pushed =>
                  let this' :=
                    match validated with
                    | Fulfilled (this', _) => this'
                    | Rejected _ => this
                    end in
                  let this'' := set_children this' (children this' ++ pushed) in
                  Fulfilled (this'', 0 <? length (children this''))
              end
        end in
      match definer (term this) with
      | Throw e => Throws e
      | Resolve defs => expand (Fulfilled (validate this entry defs))
      | Reject e => expand (Rejected e)
      end
  end.

(** The body of the inner loop of [gather]: what a node does to a path of
    one of its children. *)
Definition extend (term reason : jsstring) (definitions : list Defn) (path : Path) : Path :=
  {| root := root path;
     path_rules := path_rules path;
     path_definitions := path_definitions path ++ definitions;
     path_reasons :=
       if 0 <? length reason then path_reasons path ++ [reason]
       else path_reasons path;
     source := Some term |}.

(** [gather()]. *)
Fixpoint gather (this : t) : list Path :=
  match this with
  | Node [] term rules _ definitions =>
      [ {| root := term; path_rules := rules; path_definitions := definitions;
           path_reasons := []; source := None |} ]
  | Node children term _ reason definitions =>
      flat_map (fun child => map (extend term reason definitions) (gather child)) children
  end.

End Deinflection.

(** ** class Deinflector *)

Module Deinflector.

Record t : Type := { reasons : Reasons }.

Definition new : t := {| reasons := [] |}.

Definition setReasons (this : t) (reasons : Reasons) : t := {| reasons := reasons |}.

(** [deinflect(term, definer)]. *)
Definition deinflect (fuel : nat) (clock : Clock) (this : t)
    (term : jsstring) (definer : Definer) : Call (Promise (list Path)) :=
  let node := Deinflection.new term [] [] in
  match Deinflection.deinflect fuel clock [] definer (reasons this) node true with
  | Returns (Fulfilled (node', success)) =>
      Returns (Fulfilled (if success then Deinflection.gather node' else []))
  | Returns (Rejected e) => Returns (Rejected e)
  | Throws e => Throws e
  | Overflow => Overflow
  end.

End Deinflector.

(** ** Notions used by the statements *)

(** The definitions a node keeps for one rule, in the definer's order. *)
Definition matching (rule : jsstring) (defs : list Defn) : list Defn :=
  filter (fun definition => includes (defn_rules definition) rule) defs.

(** The rules of a node that tag a definition. *)
Definition shared_rules (rules : list jsstring) (definition : Defn) : list jsstring :=
  filter (fun rule => includes (defn_rules definition) rule) rules.

(** Every stored definition carries a rule of the node. *)
Definition admissible_definitions (n : Deinflection.t) : Prop :=
  forall definition,
    In definition (Deinflection.definitions n) ->
    exists rule,
      In rule (Deinflection.rules n) /\ In rule (defn_rules definition).

Definition nonempty_term (n : Deinflection.t) : Prop :=
  0 < length (Deinflection.term n).

(** A chain of rule applications from a node: the reason names applied, the
    one nearest to the surface form first, and the node reached. *)
Inductive derivation (reasons : Reasons)
  : Deinflection.t -> bool -> list jsstring -> Deinflection.t -> Prop :=
| derivation_stop this entry : derivation reasons this entry [] this
| derivation_step this entry reason variants variant child names last :
    In (reason, variants) reasons ->
    In variant variants ->
    Deinflection.candidate this entry reason variant = Some child ->
    derivation reasons child false names last ->
    derivation reasons this entry (reason :: names) last.

(** Two trees that differ in the order of the children only. *)
Inductive same_shape : Deinflection.t -> Deinflection.t -> Prop :=
| same_shape_node cs cs1 cs2 term rules reason defs :
    Permutation cs cs1 ->
    Forall2 same_shape cs1 cs2 ->
    same_shape (Deinflection.Node cs term rules reason defs)
               (Deinflection.Node cs2 term rules reason defs).

(** Two runs end alike: both fulfil with related values, or both reject. *)
Definition alike_promise {A : Type} (R : A -> A -> Prop) (p q : Promise A) : Prop :=
  match p, q with
  | Fulfilled a, Fulfilled b => R a b
  | Rejected _, Rejected _ => True
  | _, _ => False
  end.

(** Two calls end alike: both return related values, both throw the same
    error, or neither returns. *)
Definition alike_call {A : Type} (R : A -> A -> Prop) (c d : Call A) : Prop :=
  match c, d with
  | Returns a, Returns b => R a b
  | Throws e, Throws e' => e = e'
  | Overflow, Overflow => True
  | _, _ => False
  end.

Definition alike_result (r1 r2 : Deinflection.t * bool) : Prop :=
  same_shape (fst r1) (fst r2) /\ snd r1 = snd r2.

Definition alike_pushed (o1 o2 : option Deinflection.t) : Prop :=
  match o1, o2 with
  | Some a, Some b => same_shape a b
  | None, None => True
  | _, _ => False
  end.

Definition alike_task (t1 t2 : Deinflection.Task) : Prop :=
  alike_promise alike_pushed (Deinflection.carries t1) (Deinflection.carries t2).

(** Two lists of nodes equal up to the order and up to the order of the
    children below. *)
Definition same_children (cs1 cs2 : list Deinflection.t) : Prop :=
  exists cs, Permutation cs1 cs /\ Forall2 same_shape cs cs2.

(** A definer whose failures are replaced by an empty answer. *)
Definition failures_as_empty (definer : Definer) : Definer :=
  fun term =>
    match definer term with
    | Resolve defs => Resolve defs
    | Reject _ => Resolve []
    | Throw _ => Resolve []
    end.

(** Every variant of the table makes the term shorter. *)
Definition shrinking (reasons : Reasons) : Prop :=
  forall reason variants variant,
    In (reason, variants) reasons ->
    In variant variants ->
    length (kanaOut variant) < length (kanaIn variant).

(** The synthetic child pushed by the callback of [validate]. *)
Definition stop_child (this : Deinflection.t) : Deinflection.t :=
  Deinflection.new (Deinflection.term this) (Deinflection.rules this) [].

(** The nodes the callbacks of a queue push, in queue order. *)
Definition pushes (queue : list Deinflection.Task) : list Deinflection.t :=
  flat_map
    (fun task =>
       match Deinflection.carries task with
       | Fulfilled (Some c) => [c]
       | _ => []
       end)
    queue.

Definition fulfils (task : Deinflection.Task) : Prop :=
  exists pushed, Deinflection.carries task = Fulfilled pushed.

(** The reason names that [gather] records: the empty name is skipped. *)
Definition recorded (names : list jsstring) : list jsstring :=
  filter (fun reason => 0 <? length reason) names.

(** Promises that settle in the order of their creation, as when the
    lookups are answered first in, first out. *)
Definition in_order : Clock := fun _ => 0.

(** ** The scenario of the specification: one rule, "past" *)

Module Scenario.

Definition ta : jsstring := [0x305F%N].
Definition ru : jsstring := [0x308B%N].
Definition tabeta : jsstring := [0x98DF%N; 0x3079%N; 0x305F%N].
Definition taberu : jsstring := [0x98DF%N; 0x3079%N; 0x308B%N].
Definition v1 : jsstring := str "v1".
Definition past : jsstring := str "past".

Definition table : Reasons :=
  [ (past, [ {| kanaIn := ta; kanaOut := ru; rulesIn := [v1]; rulesOut := [v1] |} ]) ].

Definition deinflector : Deinflector.t :=
  Deinflector.setReasons Deinflector.new table.

Definition entry_v1 : Defn := {| defn_rules := [v1]; defn_rest := 0 |}.

Definition definer : Definer :=
  fun term => if eqb_js term taberu then Resolve [entry_v1] else Resolve [].

Definition nothing : Definer := fun _ => Resolve [].

(** The lookup of the dictionary form fails. *)
Definition failing : Definer :=
  fun term => if eqb_js term taberu then Reject "lookup failed"%string else Resolve [].

(** The lookup of the surface form is the slow one. *)
Definition surface_last : Clock :=
  fun promise => match promise with [0] => 1 | _ => 0 end.

Definition path_tabeta : Path :=
  {| root := tabeta; path_rules := []; path_definitions := [];
     path_reasons := []; source := Some tabeta |}.

Definition path_taberu : Path :=
  {| root := taberu; path_rules := [v1]; path_definitions := [entry_v1];
     path_reasons := [past]; source := Some tabeta |}.

(** What the search returns when the dictionary form has no definition. *)
Definition path_taberu_bare : Path :=
  {| root := taberu; path_rules := [v1]; path_definitions := [];
     path_reasons := [past]; source := Some tabeta |}.

(** The two nodes below the root of the search of the surface form. *)
Definition stop_tabeta : Deinflection.t := Deinflection.new tabeta [] [].

Definition node_taberu : Deinflection.t :=
  Deinflection.Node [Deinflection.new taberu [v1] []] taberu [v1] past [entry_v1].

(** A rule that rewrites a suffix into itself. *)
Definition a : jsstring := str "a".
Definition x : jsstring := str "x".
Definition again : Reasons :=
  [ (str "again", [ {| kanaIn := a; kanaOut := a; rulesIn := [x]; rulesOut := [x] |} ]) ].

(** Two rules applied one after the other: "abc" to "abd" to "abe". *)
Definition r1 : jsstring := str "r1".
Definition r2 : jsstring := str "r2".
Definition two_steps : Reasons :=
  [ (r1, [ {| kanaIn := str "c"; kanaOut := str "d"; rulesIn := []; rulesOut := [x] |} ]);
    (r2, [ {| kanaIn := str "d"; kanaOut := str "e"; rulesIn := [x]; rulesOut := [v1] |} ]) ].

Definition abc : jsstring := str "abc".
Definition abd : jsstring := str "abd".
Definition abe : jsstring := str "abe".

Definition path_abc : Path :=
  {| root := abc; path_rules := []; path_definitions := [];
     path_reasons := []; source := Some abc |}.

Definition path_abd : Path :=
  {| root := abd; path_rules := [x]; path_definitions := [];
     path_reasons := [r1]; source := Some abc |}.

Definition path_abe : Path :=
  {| root := abe; path_rules := [v1]; path_definitions := [];
     path_reasons := [r2; r1]; source := Some abc |}.

End Scenario.

(** ** Further notions on the search tree *)

(** The ways down from a node to a leaf: each one lists the nodes below the
    node, the child first and the leaf last.  A leaf has the empty way. *)
Fixpoint descents (n : Deinflection.t) : list (list Deinflection.t) :=
  match n with
  | Deinflection.Node [] _ _ _ _ => [[]]
  | Deinflection.Node cs _ _ _ _ =>
      flat_map (fun c => map (cons c) (descents c)) cs
  end.

(** The path that belongs to a way down from [n], in closed form. *)
Definition branch_path (n : Deinflection.t) (below : list Deinflection.t) : Path :=
  {| root := Deinflection.term (last below n);
     path_rules := Deinflection.rules (last below n);
     path_definitions := flat_map Deinflection.definitions (rev (n :: below));
     path_reasons := recorded (rev (map Deinflection.reason (removelast (n :: below))));
     source := match below with [] => None | _ :: _ => Some (Deinflection.term n) end |}.

(** [child] is the explored form of a child that the expansion loops of
    [parent] construct. *)
Definition produced (reasons : Reasons) (entry : bool)
    (parent child : Deinflection.t) : Prop :=
  exists reason variants variant,
    In (reason, variants) reasons /\
    In variant variants /\
    Deinflection.candidate parent entry reason variant
    = Some (Deinflection.new (Deinflection.term child) (Deinflection.rules child)
              (Deinflection.reason child)).

(** The shape of a tree left by [deinflect]: every node holds the child of
    its validation, and every other child is a produced child with the same
    shape below it. *)
Inductive explored (reasons : Reasons) : bool -> Deinflection.t -> Prop :=
| explored_node entry n :
    In (stop_child n) (Deinflection.children n) ->
    Forall
      (fun c => c = stop_child n \/ (produced reasons entry n c /\ explored reasons false c))
      (Deinflection.children n) ->
    explored reasons entry n.

Module Shrinking.

(** A table with one variant that shortens the term: "bc" becomes "d". *)
Definition table : Reasons :=
  [ (str "short",
     [ {| kanaIn := str "bc"; kanaOut := str "d"; rulesIn := []; rulesOut := [str "n"] |} ]) ].

End Shrinking.

(** * Utilities of [ext/js/core.js]

    Conventions of the embedding.
    - A function object is known by its identity only: a callback is a
      number, and [===] on callbacks is equality of the numbers.  A callback
      that is called is recorded, with its argument, in the list of calls
      that the operation returns; callbacks do not call back into the object
      that is calling them.
    - A [Map] is the list of its entries in insertion order.
    - The bytes that [crypto.getRandomValues] writes are an input.
    - The methods that [EventListenerCollection] calls on the objects it is
      given return normally. *)

(** ** stringReverse *)

Definition is_high_surrogate (c : N) : bool := (0xD800 <=? c)%N && (c <=? 0xDBFF)%N.
Definition is_low_surrogate (c : N) : bool := (0xDC00 <=? c)%N && (c <=? 0xDFFF)%N.

(** [[...string]]: the string iterator yields code points, a high surrogate
    followed by a low surrogate being one of them and any other code unit
    being one on its own. *)
Fixpoint spread (s : jsstring) : list jsstring :=
  match s with
  | [] => []
  | c :: rest =>
      match rest with
      | d :: rest' =>
          if is_high_surrogate c && is_low_surrogate d
          then [c; d] :: spread rest'
          else [c] :: spread rest
      | [] => [[c]]
      end
  end.

(** [[...string].reverse().join('')]. *)
Definition stringReverse (s : jsstring) : jsstring := concat (rev (spread s)).

(** A string in which every surrogate is half of a pair. *)
Fixpoint well_formed_utf16 (s : jsstring) : bool :=
  match s with
  | [] => true
  | c :: rest =>
      if is_high_surrogate c then
        match rest with
        | d :: rest' => is_low_surrogate d && well_formed_utf16 rest'
        | [] => false
        end
      else negb (is_low_surrogate c) && well_formed_utf16 rest
  end.

(** ** escapeRegExp *)

(** The class [[.*+\-?^${}()|[\]\\]] of the pattern. *)
Definition regexp_special (c : N) : bool :=
  existsb (N.eqb c) (str ".*+-?^${}()|[]\").

(** [string.replace(/[.*+\-?^${}()|[\]\\]/g, '\\$&')]. *)
Definition escapeRegExp (s : jsstring) : jsstring :=
  flat_map (fun c => if regexp_special c then [0x5C%N; c] else [c]) s.

(** ** generateId *)

(** The digit of a value below 16 in [toString(16)]. *)
Definition hex_digit (d : N) : N :=
  if (d <? 10)%N then (0x30 + d)%N else (0x61 + (d - 10))%N.

(** [value.toString(16)] for an element of a [Uint8Array]: one digit below
    16, two digits from 16 to 255. *)
Definition byte_toString16 (value : N) : jsstring :=
  if (value <? 16)%N then [hex_digit value]
  else [hex_digit (value / 16)%N; hex_digit (value mod 16)%N].

(** [s.padStart(targetLength, '0')]. *)
Definition padStart0 (s : jsstring) (targetLength : nat) : jsstring :=
  repeat 0x30%N (targetLength - length s) ++ s.

(** [generateId(length)], [array] being the [Uint8Array] of that length as
    [crypto.getRandomValues] filled it. *)
Definition generateId (array : list N) : jsstring :=
  fold_left (fun id value => id ++ padStart0 (byte_toString16 value) 2) array [].

(** The elements of a [Uint8Array]. *)
Definition bytes (array : list N) : Prop := Forall (fun value => (value < 256)%N) array.

(** ** class EventDispatcher *)

(** A value as the classes below compare it with [===]: a primitive, or a
    reference to an object.  Numbers are the integers, so that [===] is
    equality and [>] is the order of the integers ([NaN] is left out). *)
Inductive JsValue : Type :=
| JUndefined
| JNull
| JBool (b : bool)
| JNumber (z : Z)
| JString (s : jsstring)
| JObject (ref : nat).

Definition JsValue_eq_dec : forall a b : JsValue, {a = b} + {a <> b}.
Proof.
  decide equality;
    [apply Bool.bool_dec | apply Z.eq_dec | apply jsstring_eq_dec | apply Nat.eq_dec].
Defined.

Definition strict_equal (a b : JsValue) : bool :=
  if JsValue_eq_dec a b then true else false.

Module EventDispatcher.

Definition Callback : Type := nat.

(** [_eventMap]. *)
Definition t : Type := list (jsstring * list Callback).

Definition new : t := [].

(** [Map.prototype.get], [set] and [delete]. *)
Fixpoint get (m : t) (eventName : jsstring) : option (list Callback) :=
  match m with
  | [] => None
  | (key, callbacks) :: rest =>
      if eqb_js key eventName then Some callbacks else get rest eventName
  end.

Fixpoint set (m : t) (eventName : jsstring) (callbacks : list Callback) : t :=
  match m with
  | [] => [(eventName, callbacks)]
  | (key, old) :: rest =>
      if eqb_js key eventName then (key, callbacks) :: rest
      else (key, old) :: set rest eventName callbacks
  end.

Fixpoint delete (m : t) (eventName : jsstring) : t :=
  match m with
  | [] => []
  | (key, callbacks) :: rest =>
      if eqb_js key eventName then rest else (key, callbacks) :: delete rest eventName
  end.

(** [trigger(eventName, details)]: the flag returned, and the callbacks
    called with [details], in the order of the calls. *)
Definition trigger (this : t) (eventName : jsstring) : bool * list Callback :=
  match get this eventName with
  | None => (false, [])
  | Some callbacks => (true, callbacks)
  end.

(** [on(eventName, callback)]. *)
Definition on (this : t) (eventName : jsstring) (callback : Callback) : t :=
  match get this eventName with
  | None => set this eventName [callback]
  | Some callbacks => set this eventName (callbacks ++ [callback])
  end.

(** The loop of [off]: the array after [splice(i, 1)] at the first index
    [i] with [callbacks[i] === callback], if there is one. *)
Fixpoint splice_first (callback : Callback) (callbacks : list Callback)
  : option (list Callback) :=
  match callbacks with
  | [] => None
  | c :: rest =>
      if c =? callback then Some rest
      else match splice_first callback rest with
           | Some rest' => Some (c :: rest')
           | None => None
           end
  end.

(** [off(eventName, callback)]. *)
Definition off (this : t) (eventName : jsstring) (callback : Callback) : t * bool :=
  match get this eventName with
  | None => (this, false)
  | Some callbacks =>
      match splice_first callback callbacks with
      | Some callbacks' =>
          (if length callbacks' =? 0 then delete this eventName
           else set this eventName callbacks',
           true)
      | None => (this, false)
      end
  end.

(** [hasListeners(eventName)]. *)
Definition hasListeners (this : t) (eventName : jsstring) : bool :=
  match get this eventName with
  | None => false
  | Some callbacks => 0 <? length callbacks
  end.

(** The calls of [on] and [off] made on a dispatcher. *)
Inductive Op : Type :=
| On (eventName : jsstring) (callback : Callback)
| Off (eventName : jsstring) (callback : Callback).

Definition step (this : t) (op : Op) : t :=
  match op with
  | On eventName callback => on this eventName callback
  | Off eventName callback => fst (off this eventName callback)
  end.

(** The dispatcher after the calls [ops] on a new one. *)
Definition after (ops : list Op) : t := fold_left step ops new.

(** The callbacks that listen to an event. *)
Definition listeners (this : t) (eventName : jsstring) : list Callback :=
  match get this eventName with
  | None => []
  | Some callbacks => callbacks
  end.

End EventDispatcher.

(** ** class DynamicProperty *)

Module DynamicProperty.

Record Override : Type := {
  o_value : JsValue;
  o_priority : Z;
  o_token : jsstring
}.

(** The fields of the instance; [events] is the part inherited from
    [EventDispatcher]. *)
Record t : Type := {
  events : EventDispatcher.t;
  value : JsValue;
  defaultValue : JsValue;
  overrides : list Override
}.

(** A call [callback({value})] made by [trigger('change', {value})]. *)
Definition Notification : Type := (EventDispatcher.Callback * JsValue)%type.

Definition new (v : JsValue) : t :=
  {| events := EventDispatcher.new; value := v; defaultValue := v; overrides := [] |}.

Definition overrideCount (this : t) : nat := length (overrides this).

(** [_updateValue()]. *)
Definition updateValue (this : t) : t * list Notification :=
  let v :=
    match overrides this with
    | o :: _ => o_value o
    | [] => defaultValue this
    end in
  if strict_equal (value this) v then (this, [])
  else
    ({| events := events this; value := v; defaultValue := defaultValue this;
        overrides := overrides this |},
     map (fun callback => (callback, v))
         (snd (EventDispatcher.trigger (events this) (str "change")))).

(** The setter of [defaultValue]. *)
Definition set_defaultValue (this : t) (v : JsValue) : t * list Notification :=
  let this' :=
    {| events := events this; value := value this; defaultValue := v;
       overrides := overrides this |} in
  if length (overrides this') =? 0 then updateValue this' else (this', []).

(** The loop of [setOverride]: the first index [i] with
    [priority > this._overrides[i].priority], or the length. *)
Fixpoint insertion_index (priority : Z) (os : list Override) : nat :=
  match os with
  | [] => 0
  | o :: rest =>
      if (priority >? o_priority o)%Z then 0 else S (insertion_index priority rest)
  end.

(** [array.splice(i, 0, item)] and [array.splice(i, 1)]. *)
Definition splice_insert {A : Type} (i : nat) (item : A) (l : list A) : list A :=
  firstn i l ++ item :: skipn i l.

Definition splice_remove {A : Type} (i : nat) (l : list A) : list A :=
  firstn i l ++ skipn (S i) l.

(** [setOverride(value, priority)], [random] being the sixteen bytes that
    [generateId(16)] draws: the instance, the token returned and the calls
    of the listeners. *)
Definition setOverride (this : t) (v : JsValue) (priority : Z) (random : list N)
  : t * jsstring * list Notification :=
  let i := insertion_index priority (overrides this) in
  let token := generateId random in
  let this' :=
    {| events := events this; value := value this; defaultValue := defaultValue this;
       overrides :=
         splice_insert i {| o_value := v; o_priority := priority; o_token := token |}
                       (overrides this) |} in
  let '(this'', calls) := if i =? 0 then updateValue this' else (this', []) in
  (this'', token, calls).

(** The loop of [clearOverride]: the first index whose override has the
    token. *)
Fixpoint token_index (token : jsstring) (os : list Override) : option nat :=
  match os with
  | [] => None
  | o :: rest =>
      if eqb_js (o_token o) token then Some 0
      else match token_index token rest with
           | Some i => Some (S i)
           | None => None
           end
  end.

(** [clearOverride(token)]. *)
Definition clearOverride (this : t) (token : jsstring) : t * bool * list Notification :=
  match token_index token (overrides this) with
  | Some i =>
      let this' :=
        {| events := events this; value := value this; defaultValue := defaultValue this;
           overrides := splice_remove i (overrides this) |} in
      let '(this'', calls) := if i =? 0 then updateValue this' else (this', []) in
      (this'', true, calls)
  | None => (this, false, [])
  end.

(** [on] and [off], inherited. *)
Definition on (this : t) (eventName : jsstring) (callback : EventDispatcher.Callback) : t :=
  {| events := EventDispatcher.on (events this) eventName callback;
     value := value this; defaultValue := defaultValue this; overrides := overrides this |}.

(** The calls made on a property. *)
Inductive Op : Type :=
| SetDefault (v : JsValue)
| SetOverride (v : JsValue) (priority : Z) (random : list N)
| ClearOverride (token : jsstring)
| Listen (eventName : jsstring) (callback : EventDispatcher.Callback).

Definition step (this : t) (op : Op) : t * list Notification :=
  match op with
  | SetDefault v => set_defaultValue this v
  | SetOverride v priority random =>
      let '(this', _, calls) := setOverride this v priority random in (this', calls)
  | ClearOverride token =>
      let '(this', _, calls) := clearOverride this token in (this', calls)
  | Listen eventName callback => (on this eventName callback, [])
  end.

(** The property after the calls [ops] on [new DynamicProperty(v)]. *)
Definition after (v : JsValue) (ops : list Op) : t :=
  fold_left (fun this op => fst (step this op)) ops (new v).

(** The value that the getter of [value] is meant to return. *)
Definition effective (this : t) : JsValue :=
  match overrides this with
  | o :: _ => o_value o
  | [] => defaultValue this
  end.

(** The priorities never increase along the list. *)
Fixpoint by_priority (os : list Override) : Prop :=
  match os with
  | [] => True
  | o :: rest => Forall (fun o' => (o_priority o' <= o_priority o)%Z) rest /\ by_priority rest
  end.

End DynamicProperty.

(** ** class EventListenerCollection *)

Module EventListenerCollection.

(** A call [object.method(...args)] made on an object outside; an object
    is known by its identity. *)
Record MethodCall : Type := {
  call_object : nat;
  call_method : jsstring;
  call_args : list JsValue
}.

(** An element [[removeFunctionName, object, ...args]] of [_eventListeners]. *)
Record Entry : Type := {
  removeFunctionName : jsstring;
  object : nat;
  args : list JsValue
}.

Definition t : Type := list Entry.

Definition new : t := [].

Definition size (this : t) : nat := length this.

(** [addEventListener], [addListener] and [on]: the collection and the
    call made on the object. *)
Definition addEventListener (this : t) (object : nat) (args : list JsValue)
  : t * list MethodCall :=
  (this ++ [ {| removeFunctionName := str "removeEventListener";
                object := object; args := args |} ],
   [ {| call_object := object; call_method := str "addEventListener";
        call_args := args |} ]).

Definition addListener (this : t) (object : nat) (args : list JsValue)
  : t * list MethodCall :=
  (this ++ [ {| removeFunctionName := str "removeListener";
                object := object; args := args |} ],
   [ {| call_object := object; call_method := str "addListener"; call_args := args |} ]).

Definition on (this : t) (object : nat) (args : list JsValue) : t * list MethodCall :=
  (this ++ [ {| removeFunctionName := str "off"; object := object; args := args |} ],
   [ {| call_object := object; call_method := str "on"; call_args := args |} ]).

(** How [addGeneric] ends: it returns, or it throws the error
    [Invalid type: ${type}]. *)
Inductive Added : Type :=
| Done (this : t) (calls : list MethodCall)
| InvalidType (type : jsstring).

(** [addGeneric(type, object, ...args)]. *)
Definition addGeneric (this : t) (type : jsstring) (object : nat) (args : list JsValue)
  : Added :=
  if eqb_js type (str "addEventListener")
  then let '(this', calls) := addEventListener this object args in Done this' calls
  else if eqb_js type (str "addListener")
  then let '(this', calls) := addListener this object args in Done this' calls
  else if eqb_js type (str "on")
  then let '(this', calls) := on this object args in Done this' calls
  else InvalidType type.

(** The body of the loop of [removeAllEventListeners]. *)
Definition remove_call (entry : Entry) : list MethodCall :=
  if eqb_js (removeFunctionName entry) (str "removeEventListener")
     || eqb_js (removeFunctionName entry) (str "removeListener")
     || eqb_js (removeFunctionName entry) (str "off")
  then [ {| call_object := object entry; call_method := removeFunctionName entry;
            call_args := args entry |} ]
  else [].

(** [removeAllEventListeners()]. *)
Definition removeAllEventListeners (this : t) : t * list MethodCall :=
  if length this =? 0 then (this, [])
  else ([], flat_map remove_call this).

(** The calls made on a collection. *)
Inductive Op : Type :=
| AddEventListener (object : nat) (args : list JsValue)
| AddListener (object : nat) (args : list JsValue)
| On (object : nat) (args : list JsValue).

Definition step (this : t) (op : Op) : t * list MethodCall :=
  match op with
  | AddEventListener object args => addEventListener this object args
  | AddListener object args => addListener this object args
  | On object args => on this object args
  end.

(** The collection after the calls [ops] on a new one, and the calls made
    on the objects. *)
Definition after (ops : list Op) : t * list MethodCall :=
  fold_left
    (fun '(this, calls) op => let '(this', made) := step this op in (this', calls ++ made))
    ops (new, []).

(** The call that takes back what a call added: the same object and
    arguments, the removing method in place of the adding one. *)
Definition undo (call : MethodCall) : MethodCall :=
  {| call_object := call_object call;
     call_method :=
       if eqb_js (call_method call) (str "addEventListener") then str "removeEventListener"
       else if eqb_js (call_method call) (str "addListener") then str "removeListener"
       else str "off";
     call_args := call_args call |}.

End EventListenerCollection.

(** * The parse result of [ext/js/display/query-parser.js]

    The document is kept as the data that the methods write to it: an
    element is the record of the properties that are set on it, and
    [dataset.offset] holds the number that is written to it in decimal. *)

Module QueryParser.

(** An element [{text, reading}] of a parsed term. *)
Record Segment : Type := { text : jsstring; reading : jsstring }.

(** A child of a term node: a text node, or the [ruby] element of
    [_createSegment] with its text, its reading and its offset. *)
Inductive SegmentNode : Type :=
| TextNode (text : jsstring)
| Ruby (text reading : jsstring) (offset : nat).

(** A [span.query-parser-term]. *)
Record TermNode : Type := { term_offset : nat; term_children : list SegmentNode }.

(** The inner loop of [_createParseResult]: the children appended to the
    term node and the offset after the term.  [convertReading] is
    [_convertReading], which asks the Japanese utilities. *)
Fixpoint createTerm (convertReading : jsstring -> jsstring -> jsstring)
    (offset : nat) (term : list Segment) : list SegmentNode * nat :=
  match term with
  | [] => ([], offset)
  | segment :: rest =>
      let node :=
        if length (reading segment) =? 0 then TextNode (text segment)
        else Ruby (text segment) (convertReading (text segment) (reading segment)) offset in
      let '(nodes, offset') :=
        createTerm convertReading (offset + length (text segment)) rest in
      (node :: nodes, offset')
  end.

(** The outer loop, from a given offset. *)
Fixpoint createTerms (convertReading : jsstring -> jsstring -> jsstring)
    (offset : nat) (data : list (list Segment)) : list TermNode :=
  match data with
  | [] => []
  | term :: rest =>
      let '(children, offset') := createTerm convertReading offset term in
      {| term_offset := offset; term_children := children |}
        :: createTerms convertReading offset' rest
  end.

(** [_createParseResult(data)]. *)
Definition createParseResult (convertReading : jsstring -> jsstring -> jsstring)
    (data : list (list Segment)) : list TermNode :=
  createTerms convertReading 0 data.

(** An element of [_parseResults]. *)
Record ParseResult : Type := {
  id : jsstring;
  source : jsstring;
  dictionary : jsstring;
  content : list (list Segment)
}.

(** An [option] element. *)
Record OptionNode : Type := { option_value : jsstring; option_textContent : jsstring }.

Definition optionText (parseResult : ParseResult) : jsstring :=
  if eqb_js (source parseResult) (str "scanning-parser") then str "Scanning parser"
  else if eqb_js (source parseResult) (str "mecab")
       then str "MeCab: " ++ dictionary parseResult
       else str "Unknown source: " ++ source parseResult.

(** The loop of [_updateParserModeSelect], from a given index: the options
    and [selectedIndex]. *)
Fixpoint selectLoop (parseResults : list ParseResult) (selectedParser : option jsstring)
    (index : Z) (selectedIndex : Z) : list OptionNode * Z :=
  match parseResults with
  | [] => ([], selectedIndex)
  | parseResult :: rest =>
      let option :=
        {| option_value := id parseResult; option_textContent := optionText parseResult |} in
      let selectedIndex' :=
        match selectedParser with
        | Some selected => if eqb_js selected (id parseResult) then index else selectedIndex
        | None => selectedIndex
        end in
      let '(options, final) := selectLoop rest selectedParser (index + 1) selectedIndex' in
      (option :: options, final)
  end.

(** [_updateParserModeSelect(select, parseResults, selectedParser)]: the
    options appended to the select and the [selectedIndex] assigned. *)
Definition updateParserModeSelect (parseResults : list ParseResult)
    (selectedParser : option jsstring) : list OptionNode * Z :=
  selectLoop parseResults selectedParser 0 (-1).

(** [_getParseResult()]:
    [this._parseResults.find((r) => r.id === selectedParser)]. *)
Definition getParseResult (parseResults : list ParseResult)
    (selectedParser : option jsstring) : option ParseResult :=
  find (fun r =>
          match selectedParser with
          | Some selected => eqb_js (id r) selected
          | None => false
          end)
       parseResults.

(** The text of a child and of a term node, as [textContent] reads the
    base text. *)
Definition segment_text (node : SegmentNode) : jsstring :=
  match node with
  | TextNode text => text
  | Ruby text _ _ => text
  end.

Definition term_text (node : TermNode) : jsstring :=
  concat (map segment_text (term_children node)).

(** The text that was parsed. *)
Definition parsed_text (data : list (list Segment)) : jsstring :=
  concat (map (fun term => concat (map text term)) data).

End QueryParser.

(** [selectedParser === parseResult.id]. *)
Definition is_selected (selectedParser : option jsstring) (r : QueryParser.ParseResult) : bool :=
  match selectedParser with
  | Some selected => eqb_js selected (QueryParser.id r)
  | None => false
  end.

(** ** Notions used by the statements on [core.js] *)

(** A code point as the string iterator yields it from a well-formed
    string: a code unit that is no surrogate, or a surrogate pair. *)
Definition proper_code_point (cp : jsstring) : Prop :=
  (exists c, cp = [c] /\ is_high_surrogate c = false /\ is_low_surrogate c = false)
  \/ (exists c d, cp = [c; d] /\ is_high_surrogate c = true /\ is_low_surrogate d = true).

Definition is_surrogate (c : N) : bool := is_high_surrogate c || is_low_surrogate c.

(** Reads an escaped string back: a backslash gives way to the code unit
    after it. *)
Fixpoint unescape (s : jsstring) : jsstring :=
  match s with
  | [] => []
  | c :: rest =>
      if (c =? 0x5C)%N then
        match rest with
        | d :: rest' => d :: unescape rest'
        | [] => []
        end
      else c :: unescape rest
  end.

(** The digits [0-9a-f]. *)
Definition is_lower_hex (c : N) : bool :=
  ((0x30 <=? c)%N && (c <=? 0x39)%N) || ((0x61 <=? c)%N && (c <=? 0x66)%N).

(** A property as the class keeps it. *)
Definition consistent (this : DynamicProperty.t) : Prop :=
  DynamicProperty.value this = DynamicProperty.effective this /\
  DynamicProperty.by_priority (DynamicProperty.overrides this).

(** The 256 values of a byte. *)
Definition byte_values : list N := map N.of_nat (seq 0 256).

(** A [Map] as the class keeps it: no key twice, no event with an empty
    array. *)
Definition tidy (m : EventDispatcher.t) : Prop :=
  NoDup (map fst m) /\ Forall (fun entry => snd entry <> []) m.

(** ** Strings *)

Lemma eqb_js_true (a b : jsstring) : eqb_js a b = true <-> a = b.
Proof.
  unfold eqb_js. destruct (jsstring_eq_dec a b); split; congruence.
Qed.

Lemma includes_In (arr : list jsstring) (x : jsstring) :
  includes arr x = true <-> In x arr.
Proof.
  unfold includes. rewrite existsb_exists. split.
  - intros [y [Hy Heq]]. apply eqb_js_true in Heq. now subst.
  - intros H. exists x. split; [assumption | now apply eqb_js_true].
Qed.

Lemma endsWith_length (s suffix : jsstring) :
  endsWith s suffix = true -> length suffix <= length s.
Proof.
  unfold endsWith. intros H. apply andb_true_iff in H as [H _].
  now apply Nat.leb_le.
Qed.

Lemma slice0_negative_length (s : jsstring) (n : nat) :
  0 < n -> length (slice0 s (- Z.of_nat n)) = length s - n.
Proof.
  intros Hn. unfold slice0.
  destruct (Z.ltb_spec (- Z.of_nat n) 0) as [_ | Hge]; [| lia].
  rewrite length_firstn. lia.
Qed.

(** [slice(0, -0)] is [slice(0, 0)]: with an empty [kanaIn] the whole term
    is dropped and the rewritten term is [kanaOut] alone. *)
Example slice0_minus_zero : slice0 (str "abc") (- Z.of_nat 0) = [].
Proof. reflexivity. Qed.

Example slice0_minus_one : slice0 (str "abc") (- Z.of_nat 1) = str "ab".
Proof. reflexivity. Qed.

Example endsWith_suffix :
  endsWith Scenario.tabeta Scenario.ta = true /\
  endsWith Scenario.taberu Scenario.ta = false /\
  endsWith Scenario.ta Scenario.tabeta = false /\
  endsWith Scenario.tabeta [] = true.
Proof. repeat split. Qed.

Lemma rewrite_empty_kanaIn (this : Deinflection.t) (variant : RuleVariant) :
  kanaIn variant = [] -> Deinflection.rewrite this variant = kanaOut variant.
Proof.
  intros H. unfold Deinflection.rewrite, slice0. rewrite H. simpl.
  rewrite Z.min_l by lia. reflexivity.
Qed.

(** ** Self-validation *)

Lemma push_matching_spec (rule : jsstring) (defs stored : list Defn) :
  Deinflection.push_matching rule stored defs = stored ++ matching rule defs.
Proof.
  unfold Deinflection.push_matching, matching.
  revert stored. induction defs as [| d defs IH]; intros stored; simpl.
  - now rewrite app_nil_r.
  - destruct (includes (defn_rules d) rule); rewrite IH.
    + now rewrite <- app_assoc.
    + reflexivity.
Qed.

Lemma validate_loops (rules : list jsstring) (defs stored : list Defn) :
  fold_left (fun stored rule => Deinflection.push_matching rule stored defs) rules stored
  = stored ++ flat_map (fun rule => matching rule defs) rules.
Proof.
  revert stored. induction rules as [| rule rules IH]; intros stored; simpl.
  - now rewrite app_nil_r.
  - rewrite IH, push_matching_spec. now rewrite <- app_assoc.
Qed.

Lemma validate_fresh_non_entry (term reason : jsstring) (rules : list jsstring)
    (defs : list Defn) :
  Deinflection.definitions
    (fst (Deinflection.validate (Deinflection.new term rules reason) false defs))
  = flat_map (fun rule => matching rule defs) rules.
Proof.
  unfold Deinflection.validate. simpl. now rewrite validate_loops.
Qed.

Lemma count_occ_matching (rule : jsstring) (defs : list Defn) (d : Defn) :
  count_occ Defn_eq_dec (matching rule defs) d
  = if includes (defn_rules d) rule then count_occ Defn_eq_dec defs d else 0.
Proof.
  unfold matching. induction defs as [| d' defs IH]; simpl.
  - now destruct (includes (defn_rules d) rule).
  - destruct (Defn_eq_dec d' d) as [-> | Hne].
    + destruct (includes (defn_rules d) rule) eqn:E; simpl.
      * destruct (Defn_eq_dec d d); [| congruence]. now rewrite IH.
      * now rewrite IH.
    + destruct (includes (defn_rules d') rule); simpl.
      * destruct (Defn_eq_dec d' d); [congruence |]. now rewrite IH.
      * now rewrite IH.
Qed.

Lemma count_occ_grouped (rules : list jsstring) (defs : list Defn) (d : Defn) :
  count_occ Defn_eq_dec (flat_map (fun rule => matching rule defs) rules) d
  = length (shared_rules rules d) * count_occ Defn_eq_dec defs d.
Proof.
  unfold shared_rules. induction rules as [| rule rules IH]; simpl.
  - reflexivity.
  - rewrite count_occ_app, IH, count_occ_matching.
    destruct (includes (defn_rules d) rule); simpl; lia.
Qed.

(** ** The callbacks of one node *)

Lemma enqueue_perm (task : Deinflection.Task) (queue : list Deinflection.Task) :
  Permutation (Deinflection.enqueue task queue) (task :: queue).
Proof.
  induction queue as [| next later IH]; simpl.
  - apply Permutation_refl.
  - destruct (Deinflection.settles task <=? Deinflection.settles next).
    + apply Permutation_refl.
    + eapply perm_trans; [apply perm_skip, IH | apply perm_swap].
Qed.

Lemma settle_order_perm (tasks : list Deinflection.Task) :
  Permutation (Deinflection.settle_order tasks) tasks.
Proof.
  unfold Deinflection.settle_order.
  induction tasks as [| task tasks IH]; simpl.
  - apply Permutation_refl.
  - eapply perm_trans; [apply enqueue_perm | now apply perm_skip].
Qed.

Lemma all_fulfilled (queue : list Deinflection.Task) (cs : list Deinflection.t) :
  Deinflection.all queue = Fulfilled cs ->
  cs = pushes queue /\ Forall fulfils queue.
Proof.
  revert cs. induction queue as [| task later IH]; simpl; intros cs H.
  - injection H as <-. split; [reflexivity | constructor].
  - unfold pushes; simpl. fold (pushes later).
    destruct (Deinflection.carries task) as [pushed | e] eqn:Ec; [| discriminate].
    destruct (Deinflection.all later) as [cs' | e]; [| discriminate].
    destruct (IH cs' eq_refl) as [-> Hall].
    injection H as <-.
    split.
    + now destruct pushed.
    + constructor; [now exists pushed; rewrite Ec | assumption].
Qed.

Lemma all_of_fulfils (queue : list Deinflection.Task) :
  Forall fulfils queue -> Deinflection.all queue = Fulfilled (pushes queue).
Proof.
  induction 1 as [| task later [pushed Hc] _ IH]; simpl.
  - reflexivity.
  - unfold pushes; simpl. fold (pushes later).
    rewrite Hc, IH. now destruct pushed.
Qed.

Lemma all_rejected (queue : list Deinflection.Task) (task : Deinflection.Task) (e : Error) :
  In task queue ->
  Deinflection.carries task = Rejected e ->
  exists e', Deinflection.all queue = Rejected e'.
Proof.
  intros Hin Hc.
  destruct (Deinflection.all queue) as [cs | e'] eqn:Ea; [| now exists e'].
  apply all_fulfilled in Ea as [_ Hall].
  rewrite Forall_forall in Hall. destruct (Hall task Hin) as [pushed Hp].
  congruence.
Qed.

Lemma pushes_perm (q q' : list Deinflection.Task) :
  Permutation q q' -> Permutation (pushes q) (pushes q').
Proof.
  intros H. unfold pushes.
  induction H; simpl.
  - apply Permutation_refl.
  - now apply Permutation_app_head.
  - rewrite !app_assoc. apply Permutation_app_tail, Permutation_app_comm.
  - eapply perm_trans; eassumption.
Qed.


(** A callback whose promise settles before all the others runs first. *)
Lemma earliest_settles_first (task : Deinflection.Task) (before after : list Deinflection.Task) :
  Forall (fun other => Deinflection.settles task < Deinflection.settles other)
         (before ++ after) ->
  Deinflection.settle_order (before ++ task :: after)
  = task :: Deinflection.settle_order (before ++ after).
Proof.
  unfold Deinflection.settle_order.
  induction before as [| b before IH]; simpl; intros Hall.
  - assert (Hsorted : Forall (fun other => Deinflection.settles task < Deinflection.settles other)
                        (fold_right Deinflection.enqueue [] after)).
    { eapply Permutation_Forall; [apply Permutation_sym, settle_order_perm | exact Hall]. }
    destruct (fold_right Deinflection.enqueue [] after) as [| next later]; [reflexivity |].
    simpl. inversion Hsorted as [| ? ? Hlt _]; subst.
    destruct (Nat.leb_spec (Deinflection.settles task) (Deinflection.settles next));
      [reflexivity | lia].
  - inversion Hall as [| ? ? Hb Hrest]; subst.
    rewrite (IH Hrest). simpl.
    destruct (Nat.leb_spec (Deinflection.settles b) (Deinflection.settles task));
      [lia | reflexivity].
Qed.

(** Every order of the callbacks of one node is the settling order of
    some instants. *)
Lemma every_order_is_a_settling_order (queue : list (Promise (option Deinflection.t))) :
  forall (carried : list (Promise (option Deinflection.t))) (base : nat),
    Permutation queue carried ->
    exists tasks,
      map Deinflection.carries tasks = carried /\
      Forall (fun task => base < Deinflection.settles task) tasks /\
      map Deinflection.carries (Deinflection.settle_order tasks) = queue.
Proof.
  induction queue as [| c queue IH]; intros carried base Hperm.
  - apply Permutation_nil in Hperm. subst carried.
    exists []. repeat split. constructor.
  - assert (Hin : In c carried) by (eapply Permutation_in; [exact Hperm | now left]).
    apply in_split in Hin as (l1 & l2 & ->).
    apply Permutation_cons_app_inv in Hperm.
    destruct (IH (l1 ++ l2) (S base) Hperm) as (tasks & Hc & Hlate & Horder).
    pose (task := {| Deinflection.settles := S base; Deinflection.carries := c |}).
    exists (firstn (length l1) tasks ++ task :: skipn (length l1) tasks).
    assert (Hsplit : firstn (length l1) tasks ++ skipn (length l1) tasks = tasks)
      by apply firstn_skipn.
    split; [| split].
    + rewrite map_app. simpl. rewrite <- firstn_map, <- skipn_map, Hc.
      rewrite firstn_app, Nat.sub_diag, firstn_all. simpl. rewrite app_nil_r.
      rewrite skipn_app, Nat.sub_diag, skipn_all. reflexivity.
    + rewrite <- Hsplit in Hlate. apply Forall_app in Hlate as [H1 H2].
      apply Forall_app. split; [| constructor].
      * eapply Forall_impl; [| exact H1]. simpl. intros; lia.
      * simpl. lia.
      * eapply Forall_impl; [| exact H2]. simpl. intros; lia.
    + rewrite earliest_settles_first.
      * simpl. rewrite Hsplit, Horder. reflexivity.
      * rewrite Hsplit. exact Hlate.
Qed.

(** What [spawn] returns: one task per constructed child, in loop order, the
    child at place [k] of the loop being run with index [index + k]. *)
Lemma spawn_returns run instant (cands : list Deinflection.t) :
  forall index tasks,
    Deinflection.spawn run instant index cands = Returns tasks ->
    Forall2
      (fun child task =>
         exists k promise,
           run k child = Returns promise /\
           Deinflection.carries task = Deinflection.then_push promise /\
           Deinflection.settles task = instant k)
      cands tasks.
Proof.
  induction cands as [| child rest IH]; simpl; intros index tasks H.
  - injection H as <-. constructor.
  - destruct (run index child) as [promise | e |] eqn:Er; try discriminate.
    destruct (Deinflection.spawn run instant (S index) rest) as [tasks' | e |] eqn:Es;
      try discriminate.
    injection H as <-. constructor.
    + exists index, promise. simpl. repeat split; try assumption.
    + now apply (IH (S index)).
Qed.

Lemma spawn_total run instant (cands : list Deinflection.t) :
  forall index,
    (forall k child, In child cands -> run k child <> Overflow) ->
    Deinflection.spawn run instant index cands <> Overflow.
Proof.
  induction cands as [| child rest IH]; simpl; intros index Hrun.
  - discriminate.
  - destruct (run index child) as [promise | e |] eqn:Er.
    + specialize (IH (S index) (fun k c Hc => Hrun k c (or_intror Hc))).
      destruct (Deinflection.spawn run instant (S index) rest); congruence.
    + discriminate.
    + exfalso. apply (Hrun index child); [now left | assumption].
Qed.

(** ** One level of the search *)

(** A node pushed by the callback of a child is that child as its own
    exploration left it, and the exploration reported it viable. *)
Lemma pushes_origin (run : nat -> Deinflection.t -> Call (Promise (Deinflection.t * bool)))
    (instant : nat -> nat) (cands : list Deinflection.t)
    (tasks : list Deinflection.Task) (c : Deinflection.t) :
  Forall2
    (fun child task =>
       exists k promise,
         run k child = Returns promise /\
         Deinflection.carries task = Deinflection.then_push promise /\
         Deinflection.settles task = instant k)
    cands tasks ->
  In c (pushes tasks) ->
  exists child k,
    In child cands /\ run k child = Returns (Fulfilled (c, true)).
Proof.
  induction 1 as [| child task cands tasks (k & promise & Hr & Hc & _) _ IH];
    unfold pushes; simpl; intros Hin.
  - contradiction.
  - fold (pushes tasks) in Hin. apply in_app_or in Hin as [Hin | Hin].
    + rewrite Hc in Hin. destruct promise as [[child' valid] | e]; simpl in Hin;
        [| contradiction].
      destruct valid; simpl in Hin; [| contradiction].
      destruct Hin as [<- | []].
      exists child, k. split; [now left | assumption].
    + destruct (IH Hin) as (child0 & k0 & Hin0 & Hr0).
      exists child0, k0. split; [now right | assumption].
Qed.

Lemma deinflect_inv (fuel : nat) (clock : Clock) (pos : list nat) (definer : Definer)
    (reasons : Reasons) (this this'' : Deinflection.t) (entry viable : bool) :
  Deinflection.deinflect (S fuel) clock pos definer reasons this entry
  = Returns (Fulfilled (this'', viable)) ->
  exists defs pushed kept,
    definer (Deinflection.term this) = Resolve defs /\
    Permutation pushed (stop_child this :: kept) /\
    (forall c, In c kept ->
       exists child k,
         In child (Deinflection.candidates reasons this entry) /\
         Deinflection.deinflect fuel clock (k :: pos) definer reasons child false
         = Returns (Fulfilled (c, true))) /\
    this'' = Deinflection.set_children
               (fst (Deinflection.validate this entry defs))
               (Deinflection.children this ++ pushed) /\
    viable = (0 <? length (Deinflection.children this ++ pushed)).
Proof.
  cbn [Deinflection.deinflect]. intros H.
  destruct (definer (Deinflection.term this)) as [defs | e | e] eqn:Ed;
    [| | discriminate].
  - destruct (Deinflection.spawn _ _ 1 (Deinflection.candidates reasons this entry))
      as [tasks | e |] eqn:Es; try discriminate.
    apply spawn_returns in Es.
    match type of H with
    | Returns (match Deinflection.all ?q with _ => _ end) = _ =>
        destruct (Deinflection.all q) as [pushed | e] eqn:Ea; [| discriminate];
        pose proof (settle_order_perm
                      ({| Deinflection.settles := clock (0 :: pos);
                          Deinflection.carries := Fulfilled (Some (stop_child this)) |}
                         :: tasks)) as Hperm
    end.
    apply all_fulfilled in Ea as [-> _].
    apply pushes_perm in Hperm.
    exists defs, (pushes (Deinflection.settle_order
                            ({| Deinflection.settles := clock (0 :: pos);
                                Deinflection.carries := Fulfilled (Some (stop_child this)) |}
                               :: tasks))), (pushes tasks).
    split; [reflexivity |]. split; [exact Hperm |].
    split.
    { intros c Hc.
      exact (pushes_origin
               (fun index child =>
                  Deinflection.deinflect fuel clock (index :: pos) definer reasons child false)
               (fun index => clock (index :: pos)) _ tasks c Es Hc). }
    destruct (Deinflection.validate this entry defs) as [this' valid] eqn:Ev.
    assert (Hcs : Deinflection.children this' = Deinflection.children this).
    { unfold Deinflection.validate in Ev. injection Ev as <- _. now destruct entry. }
    cbn [fst]. injection H as <- <-. rewrite Hcs.
    split; reflexivity.
  - destruct (Deinflection.spawn _ _ 1 (Deinflection.candidates reasons this entry))
      as [tasks | e' |] eqn:Es; try discriminate.
    match type of H with
    | Returns (match Deinflection.all ?q with _ => _ end) = _ =>
        assert (exists e', Deinflection.all q = Rejected e') as [e' He]
    end.
    { eapply all_rejected with (e := e).
      - eapply Permutation_in; [apply Permutation_sym, settle_order_perm | left; reflexivity].
      - reflexivity. }
    rewrite He in H. discriminate.
Qed.

(** ** The children constructed by the expansion loops *)

Lemma candidates_In (reasons : Reasons) (this child : Deinflection.t) (entry : bool) :
  In child (Deinflection.candidates reasons this entry) <->
  exists reason variants variant,
    In (reason, variants) reasons /\
    In variant variants /\
    Deinflection.candidate this entry reason variant = Some child.
Proof.
  unfold Deinflection.candidates. rewrite in_flat_map. split.
  - intros [[reason variants] [Hr Hin]]. apply in_flat_map in Hin as [variant [Hv Hin]].
    exists reason, variants, variant. repeat split; try assumption.
    destruct (Deinflection.candidate this entry reason variant) as [c |];
      simpl in Hin; [| contradiction].
    destruct Hin as [-> | []]. reflexivity.
  - intros (reason & variants & variant & Hr & Hv & Hc).
    exists (reason, variants). split; [assumption |].
    apply in_flat_map. exists variant. split; [assumption |].
    rewrite Hc. now left.
Qed.

Lemma candidate_Some (this child : Deinflection.t) (entry : bool) (reason : jsstring)
    (variant : RuleVariant) :
  Deinflection.candidate this entry reason variant = Some child ->
  child = Deinflection.new (Deinflection.rewrite this variant) (rulesOut variant) reason /\
  Deinflection.allowed this entry variant = true /\
  endsWith (Deinflection.term this) (kanaIn variant) = true /\
  0 < length (Deinflection.rewrite this variant).
Proof.
  unfold Deinflection.candidate. intros H.
  destruct (Deinflection.allowed this entry variant); simpl in H; [| discriminate].
  destruct (endsWith (Deinflection.term this) (kanaIn variant)); simpl in H;
    [| discriminate].
  destruct (Nat.eqb_spec (length (Deinflection.rewrite this variant)) 0) as [| Hne];
    [discriminate |].
  injection H as <-. repeat split. lia.
Qed.

Lemma candidates_fresh (reasons : Reasons) (this child : Deinflection.t) (entry : bool) :
  In child (Deinflection.candidates reasons this entry) ->
  Deinflection.children child = [] /\
  Deinflection.definitions child = [] /\
  nonempty_term child.
Proof.
  intros H. apply candidates_In in H as (reason & variants & variant & _ & _ & Hc).
  apply candidate_Some in Hc as (-> & _ & _ & Hlen).
  repeat split. exact Hlen.
Qed.

(** ** Flattening *)

Lemma gather_children (cs : list Deinflection.t) (term reason : jsstring)
    (rules : list jsstring) (defs : list Defn) :
  cs <> [] ->
  Deinflection.gather (Deinflection.Node cs term rules reason defs)
  = flat_map
      (fun child => map (Deinflection.extend term reason defs) (Deinflection.gather child))
      cs.
Proof.
  destruct cs; [congruence | reflexivity].
Qed.

Lemma gather_In (this : Deinflection.t) (p : Path) :
  Deinflection.children this <> [] ->
  In p (Deinflection.gather this) ->
  exists child q,
    In child (Deinflection.children this) /\
    In q (Deinflection.gather child) /\
    p = Deinflection.extend (Deinflection.term this) (Deinflection.reason this)
          (Deinflection.definitions this) q.
Proof.
  destruct this as [cs term rules reason defs]. cbn [Deinflection.children].
  intros Hcs Hin. rewrite gather_children in Hin by assumption.
  apply in_flat_map in Hin as [child [Hc Hin]].
  apply in_map_iff in Hin as [q [<- Hq]].
  exists child, q. repeat split; assumption.
Qed.

Lemma pushed_nonempty (A : Type) (pushed kept : list A) (stop : A) :
  Permutation pushed (stop :: kept) -> pushed <> [].
Proof.
  intros H ->. now apply Permutation_nil in H.
Qed.

Lemma gather_stop_child (this : Deinflection.t) :
  Deinflection.gather (stop_child this)
  = [ {| root := Deinflection.term this; path_rules := Deinflection.rules this;
         path_definitions := []; path_reasons := []; source := None |} ].
Proof. reflexivity. Qed.

Lemma validate_fields (this : Deinflection.t) (entry : bool) (defs : list Defn) :
  let this' := fst (Deinflection.validate this entry defs) in
  Deinflection.term this' = Deinflection.term this /\
  Deinflection.rules this' = Deinflection.rules this /\
  Deinflection.reason this' = Deinflection.reason this /\
  Deinflection.children this' = Deinflection.children this.
Proof.
  unfold Deinflection.validate. destruct entry; repeat split.
Qed.

(** What the facade returns, in terms of the exploration of the root. *)
Lemma facade_inv (fuel : nat) (clock : Clock) (this : Deinflector.t) (term : jsstring)
    (definer : Definer) (paths : list Path) :
  Deinflector.deinflect fuel clock this term definer = Returns (Fulfilled paths) ->
  exists node' success,
    Deinflection.deinflect fuel clock [] definer (Deinflector.reasons this)
      (Deinflection.new term [] []) true
    = Returns (Fulfilled (node', success)) /\
    paths = if success then Deinflection.gather node' else [].
Proof.
  unfold Deinflector.deinflect. intros H.
  destruct (Deinflection.deinflect fuel clock [] definer (Deinflector.reasons this)
              (Deinflection.new term [] []) true) as [[[node' success] | e] | e |];
    try discriminate.
  injection H as <-. now exists node', success.
Qed.

(** ** Properties of the search tree and of the paths *)

(** C9. Every path returned by [Deinflector.deinflect] has its [source]
    field present and equal to the surface term given to [deinflect]: the
    root always holds the child pushed after its validation, so the loop of
    [gather] runs at the root and writes [source] last. *)
Theorem deinflect_source_is_surface_term
    (fuel : nat) (clock : Clock) (this : Deinflector.t) (term : jsstring)
    (definer : Definer) (paths : list Path) (p : Path) :
  Deinflector.deinflect fuel clock this term definer = Returns (Fulfilled paths) ->
  In p paths ->
  source p = Some term.
Proof.
  intros H Hp. apply facade_inv in H as (node' & success & He & ->).
  destruct fuel as [| fuel]; [discriminate |].
  apply deinflect_inv in He
    as (defs & pushed & kept & _ & Hperm & _ & -> & ->).
  cbn [Deinflection.new Deinflection.children app] in Hp.
  pose proof (pushed_nonempty _ _ _ _ Hperm) as Hne.
  destruct pushed as [| c pushed]; [congruence |].
  cbn [length Nat.ltb Nat.leb] in Hp.
  apply gather_In in Hp as (child & q & _ & _ & ->); [| discriminate].
  cbn [source Deinflection.extend Deinflection.set_children Deinflection.term].
  now destruct (validate_fields (Deinflection.new term [] []) true defs) as [-> _].
Qed.

Lemma deinflect_source_is_surface_term_witness :
  source Scenario.path_taberu = Some Scenario.tabeta.
Proof.
  apply (deinflect_source_is_surface_term 3 in_order Scenario.deinflector
           Scenario.tabeta Scenario.definer
           [Scenario.path_tabeta; Scenario.path_taberu]).
  - reflexivity.
  - simpl. right. left. reflexivity.
Defined.

Lemma matching_In (rule : jsstring) (defs : list Defn) (d : Defn) :
  In d (matching rule defs) -> In d defs /\ In rule (defn_rules d).
Proof.
  unfold matching. rewrite filter_In. intros [H Hi].
  split; [assumption | now apply includes_In].
Qed.

Lemma validate_non_entry_admissible (this : Deinflection.t) (defs : list Defn) :
  Deinflection.definitions this = [] ->
  admissible_definitions (fst (Deinflection.validate this false defs)).
Proof.
  intros Hfresh d. unfold Deinflection.validate. cbn.
  rewrite validate_loops, Hfresh. cbn [app]. intros Hd.
  apply in_flat_map in Hd as [rule [Hr Hd]].
  apply matching_In in Hd as [_ Hd]. now exists rule.
Qed.

Lemma stop_child_every (P : Deinflection.t -> Prop) (this : Deinflection.t) :
  P (stop_child this) -> Deinflection.every P (stop_child this).
Proof.
  intros H. constructor; [assumption | constructor].
Qed.

(** Below a node explored as a non-entry node, stored definitions are
    admissible. *)
Lemma non_entry_tree_admissible (fuel : nat) :
  forall clock pos definer reasons this this' viable,
    Deinflection.deinflect fuel clock pos definer reasons this false
    = Returns (Fulfilled (this', viable)) ->
    Deinflection.children this = [] ->
    Deinflection.definitions this = [] ->
    Deinflection.every admissible_definitions this'.
Proof.
  induction fuel as [| fuel IH]; intros clock pos definer reasons this this' viable H Hcs Hds;
    [discriminate |].
  apply deinflect_inv in H as (defs & pushed & kept & _ & Hperm & Hkept & -> & _).
  constructor.
  - intros d Hd. apply (validate_non_entry_admissible this defs Hds d). exact Hd.
  - cbn [Deinflection.set_children Deinflection.children]. rewrite Hcs. cbn [app].
    apply Forall_forall. intros c Hc.
    apply (Permutation_in _ Hperm) in Hc as [<- | Hc].
    + apply stop_child_every. intros d [].
    + destruct (Hkept c Hc) as (child & k & Hin & Hrun).
      apply candidates_fresh in Hin as (Hc0 & Hd0 & _).
      exact (IH _ _ _ _ _ _ _ Hrun Hc0 Hd0).
Qed.

(** C7. Every definition stored on a non-root node has a rule tag that is
    a member of the rules of that node; the root stores every definition the
    definer returns for the surface term, whatever its tags. *)
Theorem stored_definitions_admissible
    (fuel : nat) (clock : Clock) (definer : Definer) (reasons : Reasons)
    (term : jsstring) (defs : list Defn) (node' : Deinflection.t) (success : bool) :
  Deinflection.deinflect fuel clock [] definer reasons (Deinflection.new term [] []) true
  = Returns (Fulfilled (node', success)) ->
  definer term = Resolve defs ->
  Deinflection.definitions node' = defs /\
  Forall (Deinflection.every admissible_definitions) (Deinflection.children node').
Proof.
  intros H Hdefs. destruct fuel as [| fuel]; [discriminate |].
  apply deinflect_inv in H as (defs' & pushed & kept & Hd & Hperm & Hkept & -> & _).
  cbn [Deinflection.new Deinflection.term] in Hd. rewrite Hdefs in Hd. injection Hd as <-.
  split; [reflexivity |].
  cbn. apply Forall_forall. intros c Hc.
  apply (Permutation_in _ Hperm) in Hc as [<- | Hc].
  - apply stop_child_every. intros d [].
  - destruct (Hkept c Hc) as (child & k & Hin & Hrun).
    apply candidates_fresh in Hin as (Hc0 & Hd0 & _).
    exact (non_entry_tree_admissible _ _ _ _ _ _ _ _ Hrun Hc0 Hd0).
Qed.

Lemma stored_definitions_admissible_witness :
  exists node' success,
    Deinflection.deinflect 3 in_order [] Scenario.definer Scenario.table
      (Deinflection.new Scenario.tabeta [] []) true
    = Returns (Fulfilled (node', success)) /\
    Deinflection.definitions node' = [] /\
    Forall (Deinflection.every admissible_definitions) (Deinflection.children node').
Proof.
  eexists. eexists. split; [reflexivity |].
  apply (stored_definitions_admissible 3 in_order Scenario.definer Scenario.table
           Scenario.tabeta [] _ true); reflexivity.
Defined.

(** C10. Self-validation of a non-root node runs over the rules of the node
    in the outer loop and over the returned definitions in the inner loop:
    the stored definitions are grouped by rule, each group in the order of
    the definer, and a definition tagged with [k] of the rules of the node
    is stored [k] times. *)
Theorem non_entry_validation_groups_by_rule
    (term reason : jsstring) (rules : list jsstring) (defs : list Defn) :
  let stored :=
    Deinflection.definitions
      (fst (Deinflection.validate (Deinflection.new term rules reason) false defs)) in
  stored = flat_map (fun rule => matching rule defs) rules /\
  (forall definition,
     count_occ Defn_eq_dec stored definition
     = length (shared_rules rules definition) * count_occ Defn_eq_dec defs definition) /\
  (forall definition,
     Deinflection.definitions
       (fst (Deinflection.validate (Deinflection.new term rules reason) false [definition]))
     = repeat definition (length (shared_rules rules definition))).
Proof.
  cbn zeta. rewrite validate_fresh_non_entry. split; [reflexivity |]. split.
  - intros d. apply count_occ_grouped.
  - intros d. rewrite validate_fresh_non_entry. unfold shared_rules, matching.
    induction rules as [| rule rules IH]; simpl in *; [reflexivity |].
    destruct (includes (defn_rules d) rule); simpl; now rewrite IH.
Qed.

(** A node with a non-empty term has non-empty terms below it. *)
Lemma nonempty_tree (fuel : nat) :
  forall clock pos definer reasons this entry this' viable,
    Deinflection.deinflect fuel clock pos definer reasons this entry
    = Returns (Fulfilled (this', viable)) ->
    Deinflection.children this = [] ->
    nonempty_term this ->
    Deinflection.every nonempty_term this'.
Proof.
  induction fuel as [| fuel IH];
    intros clock pos definer reasons this entry this' viable H Hcs Hlen;
    [discriminate |].
  apply deinflect_inv in H as (defs & pushed & kept & _ & Hperm & Hkept & -> & _).
  destruct (validate_fields this entry defs) as (Ht & _).
  constructor.
  - unfold nonempty_term. cbn [Deinflection.set_children Deinflection.term].
    cbn zeta in Ht. rewrite Ht. exact Hlen.
  - cbn [Deinflection.set_children Deinflection.children]. rewrite Hcs. cbn [app].
    apply Forall_forall. intros c Hc.
    apply (Permutation_in _ Hperm) in Hc as [<- | Hc].
    + apply stop_child_every. exact Hlen.
    + destruct (Hkept c Hc) as (child & k & Hin & Hrun).
      apply candidates_fresh in Hin as (Hc0 & _ & Hl0).
      exact (IH _ _ _ _ _ _ _ _ Hrun Hc0 Hl0).
Qed.

(** C8, as the code has it. A node constructed by a rule application has a
    non-empty term, a rewrite of length zero being skipped before the node
    is constructed; the root and the child pushed after its validation carry
    the surface term as the caller gave it.  So every node of the tree has a
    non-empty term when the surface term is non-empty. *)
Theorem constructed_nodes_have_nonempty_terms
    (fuel : nat) (clock : Clock) (definer : Definer) (reasons : Reasons)
    (term : jsstring) (node' : Deinflection.t) (success : bool) :
  Deinflection.deinflect fuel clock [] definer reasons (Deinflection.new term [] []) true
  = Returns (Fulfilled (node', success)) ->
  Deinflection.term node' = term /\
  Forall
    (fun c => c = Deinflection.new term [] [] \/ Deinflection.every nonempty_term c)
    (Deinflection.children node') /\
  (0 < length term -> Deinflection.every nonempty_term node').
Proof.
  intros H. split; [| split].
  - destruct fuel as [| fuel]; [discriminate |].
    apply deinflect_inv in H as (defs & pushed & kept & _ & _ & _ & -> & _).
    reflexivity.
  - destruct fuel as [| fuel]; [discriminate |].
    apply deinflect_inv in H as (defs & pushed & kept & _ & Hperm & Hkept & -> & _).
    cbn. apply Forall_forall. intros c Hc.
    apply (Permutation_in _ Hperm) in Hc as [<- | Hc].
    + left. reflexivity.
    + right. destruct (Hkept c Hc) as (child & k & Hin & Hrun).
      apply candidates_fresh in Hin as (Hc0 & _ & Hl0).
      exact (nonempty_tree _ _ _ _ _ _ _ _ _ Hrun Hc0 Hl0).
  - intros Hlen. exact (nonempty_tree _ _ _ _ _ _ _ _ _ H eq_refl Hlen).
Qed.

Lemma constructed_nodes_have_nonempty_terms_witness :
  exists node',
    Deinflection.deinflect 3 in_order [] Scenario.definer Scenario.table
      (Deinflection.new Scenario.tabeta [] []) true
    = Returns (Fulfilled (node', true)) /\
    Deinflection.every nonempty_term node'.
Proof.
  eexists. split; [reflexivity |].
  apply (constructed_nodes_have_nonempty_terms 3 in_order Scenario.definer Scenario.table
           Scenario.tabeta _ true).
  - reflexivity.
  - unfold Scenario.tabeta. simpl. lia.
Defined.

(** C8, as stated, fails at the empty surface term: the root is constructed
    without a test of the length, and so is the child of its validation. *)
Lemma empty_surface_term_builds_a_node :
  Deinflection.deinflect 1 in_order [] Scenario.nothing [] (Deinflection.new [] [] []) true
  = Returns (Fulfilled
      (Deinflection.Node [Deinflection.Node [] [] [] [] []] [] [] [] [], true)) /\
  ~ Deinflection.every nonempty_term
      (Deinflection.Node [Deinflection.Node [] [] [] [] []] [] [] [] []) /\
  Deinflector.deinflect 1 in_order Deinflector.new [] Scenario.nothing
  = Returns (Fulfilled
      [ {| root := []; path_rules := []; path_definitions := [];
           path_reasons := []; source := Some [] |} ]).
Proof.
  split; [reflexivity |]. split; [| reflexivity].
  intros H. inversion H as [n Hn _]. unfold nonempty_term in Hn. simpl in Hn. lia.
Qed.

Lemma recorded_cons (reason : jsstring) (names : list jsstring) :
  rev (recorded (reason :: names)) = rev (recorded names) ++ recorded [reason].
Proof.
  unfold recorded. simpl. destruct (0 <? length reason); simpl.
  - reflexivity.
  - now rewrite app_nil_r.
Qed.

Lemma extend_reasons (term reason : jsstring) (defs : list Defn) (q : Path) :
  path_reasons (Deinflection.extend term reason defs q)
  = path_reasons q ++ recorded [reason].
Proof.
  unfold Deinflection.extend, recorded. simpl.
  destruct (0 <? length reason); [reflexivity | now rewrite app_nil_r].
Qed.

(** Every path of the flattened tree follows a chain of rule applications,
    and lists the recorded reasons of the chain from the deepest one. *)
Lemma paths_follow_derivations (fuel : nat) :
  forall clock pos definer reasons this entry this' viable p,
    Deinflection.deinflect fuel clock pos definer reasons this entry
    = Returns (Fulfilled (this', viable)) ->
    Deinflection.children this = [] ->
    In p (Deinflection.gather this') ->
    exists names last,
      derivation reasons this entry names last /\
      root p = Deinflection.term last /\
      path_rules p = Deinflection.rules last /\
      path_reasons p = rev (recorded names) ++ recorded [Deinflection.reason this].
Proof.
  induction fuel as [| fuel IH];
    intros clock pos definer reasons this entry this' viable p H Hcs Hp;
    [discriminate |].
  apply deinflect_inv in H as (defs & pushed & kept & _ & Hperm & Hkept & -> & _).
  rewrite Hcs in Hp. cbn [app] in Hp.
  destruct (validate_fields this entry defs) as (Ht & _ & Hr & _). cbn zeta in Ht, Hr.
  apply gather_In in Hp as (c & q & Hc & Hq & ->);
    [| exact (pushed_nonempty _ _ _ _ Hperm)].
  cbn [Deinflection.set_children Deinflection.children Deinflection.term
       Deinflection.reason Deinflection.definitions] in *.
  rewrite extend_reasons, Hr.
  apply (Permutation_in _ Hperm) in Hc as [<- | Hc].
  - rewrite gather_stop_child in Hq. destruct Hq as [<- | []].
    exists [], this. repeat split. constructor.
  - destruct (Hkept c Hc) as (child & k & Hin & Hrun).
    pose proof Hin as Hfresh. apply candidates_fresh in Hfresh as (Hc0 & _ & _).
    destruct (IH _ _ _ _ _ _ _ _ q Hrun Hc0 Hq) as (names & last & Hd & Hroot & Hrules & Hrs).
    apply candidates_In in Hin as (reason & variants & variant & Hin1 & Hin2 & Hcand).
    exists (reason :: names), last. split; [| split; [| split]].
    + econstructor; eassumption.
    + exact Hroot.
    + exact Hrules.
    + cbn [path_reasons Deinflection.extend]. rewrite recorded_cons.
      apply candidate_Some in Hcand as (-> & _).
      cbn [Deinflection.new Deinflection.reason] in Hrs.
      now rewrite Hrs.
Qed.

Lemma derivation_names (reasons : Reasons) this entry names last :
  derivation reasons this entry names last ->
  Forall (fun reason => exists variants, In (reason, variants) reasons) names.
Proof.
  induction 1; constructor; [eexists; eassumption | assumption].
Qed.

Lemma recorded_all (names : list jsstring) :
  Forall (fun reason => reason <> []) names -> recorded names = names.
Proof.
  unfold recorded. induction 1 as [| reason names Hne _ IH]; simpl.
  - reflexivity.
  - destruct reason; [congruence |]. simpl. now rewrite IH.
Qed.

(** C6. The reasons of every returned path are listed from the deepest
    application: the path follows a chain of rule applications from the
    surface term, and its [reasons] are the reason names of the chain in
    reverse; for two applications, [r1] then [r2], they are [[r2; r1]].
    Reason names are the non-empty keys of the rule table. *)
Theorem reasons_deepest_first
    (fuel : nat) (clock : Clock) (this : Deinflector.t) (term : jsstring)
    (definer : Definer) (paths : list Path) (p : Path) :
  (forall reason variants, In (reason, variants) (Deinflector.reasons this) -> reason <> []) ->
  Deinflector.deinflect fuel clock this term definer = Returns (Fulfilled paths) ->
  In p paths ->
  exists names last,
    derivation (Deinflector.reasons this) (Deinflection.new term [] []) true names last /\
    root p = Deinflection.term last /\
    path_rules p = Deinflection.rules last /\
    path_reasons p = rev names /\
    (forall r1 r2, names = [r1; r2] -> path_reasons p = [r2; r1]).
Proof.
  intros Hnames H Hp. apply facade_inv in H as (node' & success & He & ->).
  destruct success; [| contradiction].
  destruct (paths_follow_derivations _ _ _ _ _ _ _ _ _ p He eq_refl Hp)
    as (names & last & Hd & Hroot & Hrules & Hrs).
  assert (Hrev : path_reasons p = rev names).
  { rewrite Hrs. cbn. rewrite app_nil_r. f_equal. apply recorded_all.
    eapply Forall_impl; [| exact (derivation_names _ _ _ _ _ Hd)].
    intros reason [variants Hin]. exact (Hnames _ _ Hin). }
  exists names, last. repeat split; try assumption.
  intros r1 r2 ->. exact Hrev.
Qed.

Lemma reasons_deepest_first_witness :
  exists names last,
    derivation Scenario.two_steps (Deinflection.new Scenario.abc [] []) true names last /\
    root Scenario.path_abe = Deinflection.term last /\
    path_rules Scenario.path_abe = Deinflection.rules last /\
    path_reasons Scenario.path_abe = rev names /\
    (forall r1 r2, names = [r1; r2] -> path_reasons Scenario.path_abe = [r2; r1]).
Proof.
  apply (reasons_deepest_first 4 in_order
           (Deinflector.setReasons Deinflector.new Scenario.two_steps)
           Scenario.abc Scenario.nothing
           [Scenario.path_abc; Scenario.path_abd; Scenario.path_abe]).
  - intros reason variants Hin. simpl in Hin.
    destruct Hin as [Hin | [Hin | []]]; injection Hin as <- _; discriminate.
  - reflexivity.
  - simpl. right. right. left. reflexivity.
Defined.

(** The two applications of the scenario, [r1] then [r2], evaluated. *)
Example two_rule_applications :
  Deinflector.deinflect 4 in_order
    (Deinflector.setReasons Deinflector.new Scenario.two_steps)
    Scenario.abc Scenario.nothing
  = Returns (Fulfilled [Scenario.path_abc; Scenario.path_abd; Scenario.path_abe])
  /\ path_reasons Scenario.path_abe = [Scenario.r2; Scenario.r1].
Proof. split; reflexivity. Qed.

(** ** Depth of the recursion *)

Lemma rewrite_shorter (this : Deinflection.t) (variant : RuleVariant) :
  length (kanaOut variant) < length (kanaIn variant) ->
  endsWith (Deinflection.term this) (kanaIn variant) = true ->
  length (Deinflection.rewrite this variant) < length (Deinflection.term this).
Proof.
  intros Hlt Hends. apply endsWith_length in Hends.
  unfold Deinflection.rewrite. rewrite length_app, slice0_negative_length; lia.
Qed.

Lemma candidates_shorter (reasons : Reasons) (this child : Deinflection.t) (entry : bool) :
  shrinking reasons ->
  In child (Deinflection.candidates reasons this entry) ->
  length (Deinflection.term child) < length (Deinflection.term this).
Proof.
  intros Hshrink Hin.
  apply candidates_In in Hin as (reason & variants & variant & Hr & Hv & Hc).
  apply candidate_Some in Hc as (-> & _ & Hends & _).
  cbn [Deinflection.new Deinflection.term].
  apply rewrite_shorter; [exact (Hshrink _ _ _ Hr Hv) | exact Hends].
Qed.

Lemma shrinking_bounds_depth (definer : Definer) (reasons : Reasons) (fuel : nat) :
  shrinking reasons ->
  forall clock pos this entry,
    length (Deinflection.term this) < fuel ->
    Deinflection.deinflect fuel clock pos definer reasons this entry <> Overflow.
Proof.
  intros Hshrink. induction fuel as [| fuel IH]; intros clock pos this entry Hlen; [lia |].
  cbn [Deinflection.deinflect].
  assert (Hspawn :
    Deinflection.spawn
      (fun index child =>
         Deinflection.deinflect fuel clock (index :: pos) definer reasons child false)
      (fun index => clock (index :: pos)) 1
      (Deinflection.candidates reasons this entry) <> Overflow).
  { apply spawn_total. intros k child Hin. apply IH.
    pose proof (candidates_shorter _ _ _ _ Hshrink Hin). lia. }
  destruct (definer (Deinflection.term this)); try discriminate;
    destruct (Deinflection.spawn _ _ 1 _); congruence.
Qed.

(** A table whose variants all replace a suffix by a shorter one: the
    nesting of the calls is at most the length of the surface term plus one. *)
Lemma shrinking_table_returns
    (fuel : nat) (clock : Clock) (this : Deinflector.t) (term : jsstring)
    (definer : Definer) :
  shrinking (Deinflector.reasons this) ->
  length term < fuel ->
  Deinflector.deinflect fuel clock this term definer <> Overflow.
Proof.
  intros Hshrink Hlen. unfold Deinflector.deinflect.
  pose proof (shrinking_bounds_depth definer _ fuel Hshrink clock []
                (Deinflection.new term [] []) true Hlen) as H.
  destruct (Deinflection.deinflect fuel clock [] definer (Deinflector.reasons this)
              (Deinflection.new term [] []) true) as [[[node' success] | e] | e |];
    congruence.
Qed.

Lemma bounded_chains_bound_depth (definer : Definer) (reasons : Reasons) (fuel : nat) :
  forall clock pos this entry,
    (forall names last, derivation reasons this entry names last -> length names < fuel) ->
    Deinflection.deinflect fuel clock pos definer reasons this entry <> Overflow.
Proof.
  induction fuel as [| fuel IH]; intros clock pos this entry Hbound.
  - specialize (Hbound [] this (derivation_stop _ _ _)). simpl in Hbound. lia.
  - cbn [Deinflection.deinflect].
    assert (Hspawn :
      Deinflection.spawn
        (fun index child =>
           Deinflection.deinflect fuel clock (index :: pos) definer reasons child false)
        (fun index => clock (index :: pos)) 1
        (Deinflection.candidates reasons this entry) <> Overflow).
    { apply spawn_total. intros k child Hin. apply IH. intros names last Hd.
      apply candidates_In in Hin as (reason & variants & variant & Hr & Hv & Hc).
      pose proof (Hbound (reason :: names) last
                    (derivation_step _ _ _ _ _ _ _ _ _ Hr Hv Hc Hd)) as Hlt.
      simpl in Hlt. lia. }
    destruct (definer (Deinflection.term this)); try discriminate;
      destruct (Deinflection.spawn _ _ 1 _); congruence.
Qed.

(** C5, as the code has it. The search has no cap on the depth and keeps
    no set of visited terms: its only stop conditions are the test of the
    rewritten term for emptiness and the admissibility of the rule.  It
    returns when the chains of rule applications from the surface term have
    a bounded length, the nesting of the calls being within that bound. *)
Theorem bounded_chains_bound_the_search
    (fuel : nat) (clock : Clock) (this : Deinflector.t) (term : jsstring)
    (definer : Definer) :
  (forall names last,
     derivation (Deinflector.reasons this) (Deinflection.new term [] []) true names last ->
     length names < fuel) ->
  Deinflector.deinflect fuel clock this term definer <> Overflow.
Proof.
  intros Hbound. unfold Deinflector.deinflect.
  pose proof (bounded_chains_bound_depth definer _ fuel clock []
                (Deinflection.new term [] []) true Hbound) as H.
  destruct (Deinflection.deinflect fuel clock [] definer (Deinflector.reasons this)
              (Deinflection.new term [] []) true) as [[[node' success] | e] | e |];
    congruence.
Qed.

Lemma past_chains :
  forall names last,
    derivation Scenario.table (Deinflection.new Scenario.tabeta [] []) true names last ->
    length names < 2.
Proof.
  intros names last H.
  inversion H as [| ? ? reason variants variant child names' ? Hr Hv Hc Hd]; subst;
    [simpl; lia |].
  destruct Hr as [Hr | []]. injection Hr as <- <-.
  destruct Hv as [<- | []].
  vm_compute in Hc. injection Hc as <-.
  inversion Hd as [| ? ? reason' variants' variant' child' names'' ? Hr' Hv' Hc' Hd']; subst;
    [simpl; lia |].
  destruct Hr' as [Hr' | []]. injection Hr' as <- <-.
  destruct Hv' as [<- | []].
  vm_compute in Hc'. discriminate.
Qed.

Lemma bounded_chains_bound_the_search_witness :
  Deinflector.deinflect 2 in_order Scenario.deinflector Scenario.tabeta Scenario.definer
  <> Overflow.
Proof.
  apply bounded_chains_bound_the_search. exact past_chains.
Defined.

(** The table [again] rewrites the suffix "a" into itself: at every depth
    the loop constructs one more child. *)
Lemma again_overflows (fuel : nat) :
  forall pos this entry,
    Deinflection.term this = Scenario.a ->
    entry = true \/ Deinflection.rules this = [Scenario.x] ->
    Deinflection.deinflect fuel in_order pos Scenario.nothing Scenario.again this entry
    = Overflow.
Proof.
  induction fuel as [| fuel IH]; intros pos this entry Hterm Hrules; [reflexivity |].
  cbn [Deinflection.deinflect]. unfold Scenario.nothing at 1 2.
  assert (Hc : Deinflection.candidates Scenario.again this entry
               = [Deinflection.new Scenario.a [Scenario.x] (str "again")]).
  { destruct this as [cs term rules reason defs]. cbn in Hterm, Hrules. subst term.
    destruct Hrules as [-> | ->]; [reflexivity | destruct entry; reflexivity]. }
  rewrite Hc. cbn [Deinflection.spawn].
  rewrite IH; [reflexivity | reflexivity | now right].
Qed.

(** C5, as stated, fails: no bound on the nesting of the calls lets the
    search of "a" under the table [again] return, and no error is produced
    by the search itself. *)
Lemma self_rewrite_recurses_without_bound :
  ~ exists fuel,
      Deinflector.deinflect fuel in_order
        (Deinflector.setReasons Deinflector.new Scenario.again)
        Scenario.a Scenario.nothing
      <> Overflow.
Proof.
  intros [fuel H]. apply H. unfold Deinflector.deinflect.
  cbn [Deinflector.reasons Deinflector.setReasons].
  rewrite again_overflows; [reflexivity | reflexivity | now left].
Qed.

Lemma spawn_ext (run run' : nat -> Deinflection.t -> Call (Promise (Deinflection.t * bool)))
    (instant : nat -> nat) (cands : list Deinflection.t) :
  (forall k child, run k child <> Overflow -> run' k child = run k child) ->
  forall index,
    Deinflection.spawn run instant index cands <> Overflow ->
    Deinflection.spawn run' instant index cands = Deinflection.spawn run instant index cands.
Proof.
  intros Hext. induction cands as [| child rest IH]; simpl; intros index H.
  - reflexivity.
  - destruct (run index child) as [promise | e |] eqn:Er.
    + rewrite (Hext index child) by congruence. rewrite Er.
      rewrite IH; [reflexivity |].
      destruct (Deinflection.spawn run instant (S index) rest); congruence.
    + rewrite (Hext index child) by congruence. now rewrite Er.
    + congruence.
Qed.

(** More fuel does not change a result that was reached. *)
Lemma deinflect_fuel_monotone (fuel : nat) :
  forall fuel' clock pos definer reasons this entry,
    fuel <= fuel' ->
    Deinflection.deinflect fuel clock pos definer reasons this entry <> Overflow ->
    Deinflection.deinflect fuel' clock pos definer reasons this entry
    = Deinflection.deinflect fuel clock pos definer reasons this entry.
Proof.
  induction fuel as [| fuel IH]; intros fuel' clock pos definer reasons this entry Hle H;
    [now contradiction H |].
  destruct fuel' as [| fuel']; [lia |].
  cbn [Deinflection.deinflect] in *.
  assert (Hs :
    Deinflection.spawn
      (fun index child =>
         Deinflection.deinflect fuel clock (index :: pos) definer reasons child false)
      (fun index => clock (index :: pos)) 1
      (Deinflection.candidates reasons this entry) <> Overflow ->
    Deinflection.spawn
      (fun index child =>
         Deinflection.deinflect fuel' clock (index :: pos) definer reasons child false)
      (fun index => clock (index :: pos)) 1
      (Deinflection.candidates reasons this entry)
    = Deinflection.spawn
      (fun index child =>
         Deinflection.deinflect fuel clock (index :: pos) definer reasons child false)
      (fun index => clock (index :: pos)) 1
      (Deinflection.candidates reasons this entry)).
  { apply spawn_ext. intros k child Hk. apply IH; [lia | exact Hk]. }
  destruct (definer (Deinflection.term this)); [| | reflexivity];
    (rewrite Hs; [reflexivity |]);
    destruct (Deinflection.spawn _ _ 1 _); congruence.
Qed.

(** ** Failures of the definer *)

Lemma spawn_all_returned (run : nat -> Deinflection.t -> Call (Promise (Deinflection.t * bool)))
    (instant : nat -> nat) (cands : list Deinflection.t) (tasks : list Deinflection.Task)
    (child : Deinflection.t) :
  Forall2
    (fun child task =>
       exists k promise,
         run k child = Returns promise /\
         Deinflection.carries task = Deinflection.then_push promise /\
         Deinflection.settles task = instant k)
    cands tasks ->
  In child cands ->
  exists task k promise,
    In task tasks /\ run k child = Returns promise /\
    Deinflection.carries task = Deinflection.then_push promise.
Proof.
  induction 1 as [| c task cands tasks (k & promise & Hr & Hc & _) _ IH]; intros Hin.
  - contradiction.
  - destruct Hin as [-> | Hin].
    + exists task, k, promise. split; [now left | now split].
    + destruct (IH Hin) as (task' & k' & promise' & Hin' & H').
      exists task', k', promise'. split; [now right | exact H'].
Qed.

(** A search that ends well has had an answer of the definer for its own
    term, and every child constructed by the loops ended well. *)
Lemma deinflect_inv_all (fuel : nat) (clock : Clock) (pos : list nat) (definer : Definer)
    (reasons : Reasons) (this : Deinflection.t) (entry : bool)
    (result : Deinflection.t * bool) :
  Deinflection.deinflect (S fuel) clock pos definer reasons this entry
  = Returns (Fulfilled result) ->
  (exists defs, definer (Deinflection.term this) = Resolve defs) /\
  forall child,
    In child (Deinflection.candidates reasons this entry) ->
    exists k result',
      Deinflection.deinflect fuel clock (k :: pos) definer reasons child false
      = Returns (Fulfilled result').
Proof.
  intros H. split.
  - destruct result as [this'' viable].
    apply deinflect_inv in H as (defs & _ & _ & Hd & _). now exists defs.
  - cbn [Deinflection.deinflect] in H. intros child Hin.
    assert (Hq : exists first tasks,
      Deinflection.spawn
        (fun index child =>
           Deinflection.deinflect fuel clock (index :: pos) definer reasons child false)
        (fun index => clock (index :: pos)) 1
        (Deinflection.candidates reasons this entry) = Returns tasks /\
      exists cs, Deinflection.all (Deinflection.settle_order (first :: tasks)) = Fulfilled cs).
    { destruct (definer (Deinflection.term this)); [| | discriminate];
        destruct (Deinflection.spawn _ _ 1 _) as [tasks | |]; try discriminate;
        match type of H with
        | Returns (match Deinflection.all (Deinflection.settle_order (?f :: _)) with _ => _ end) = _ =>
            exists f, tasks; split; [reflexivity |];
            destruct (Deinflection.all (Deinflection.settle_order (f :: tasks)))
              as [cs | failure];
              [now exists cs | discriminate]
        end. }
    destruct Hq as (first & tasks & Hs & cs & Ha).
    apply spawn_returns in Hs.
    destruct (spawn_all_returned _ _ _ _ _ Hs Hin) as (task & k & promise & Ht & Hr & Hc).
    apply all_fulfilled in Ha as [_ Hall].
    rewrite Forall_forall in Hall.
    destruct (Hall task) as [pushed Hp].
    { eapply Permutation_in; [apply Permutation_sym, settle_order_perm | now right]. }
    rewrite Hc in Hp. destruct promise as [result' | e]; [| discriminate].
    now exists k, result'.
Qed.

Lemma failure_reaches_the_caller (definer : Definer) (reasons : Reasons)
    (this last : Deinflection.t) (entry : bool) (names : list jsstring) :
  derivation reasons this entry names last ->
  (forall defs, definer (Deinflection.term last) <> Resolve defs) ->
  forall fuel clock pos result,
    Deinflection.deinflect fuel clock pos definer reasons this entry
    <> Returns (Fulfilled result).
Proof.
  induction 1 as [this entry | this entry reason variants variant child names last Hr Hv Hc Hd IH];
    intros Hfail fuel clock pos result H.
  - destruct fuel as [| fuel]; [discriminate |].
    apply deinflect_inv_all in H as [[defs Hdefs] _]. exact (Hfail defs Hdefs).
  - destruct fuel as [| fuel]; [discriminate |].
    apply deinflect_inv_all in H as [_ Hall].
    destruct (Hall child) as (k & result' & Hrun).
    { apply candidates_In. now exists reason, variants, variant. }
    exact (IH Hfail _ _ _ _ Hrun).
Qed.

(** C4, as the code has it. No handler is attached to any promise of the
    search: when the definer rejects or throws for a term that a chain of
    rule applications reaches from the surface term, the call of
    [deinflect] does not resolve to a list of paths, whatever the other
    lookups answer. *)
Theorem definer_failure_fails_the_call
    (fuel : nat) (clock : Clock) (this : Deinflector.t) (term : jsstring)
    (definer : Definer) (names : list jsstring) (last : Deinflection.t)
    (paths : list Path) :
  derivation (Deinflector.reasons this) (Deinflection.new term [] []) true names last ->
  (forall defs, definer (Deinflection.term last) <> Resolve defs) ->
  Deinflector.deinflect fuel clock this term definer <> Returns (Fulfilled paths).
Proof.
  intros Hd Hfail H. apply facade_inv in H as (node' & success & He & _).
  exact (failure_reaches_the_caller _ _ _ _ _ _ Hd Hfail _ _ _ _ He).
Qed.

Lemma definer_failure_fails_the_call_witness :
  Deinflector.deinflect 3 in_order Scenario.deinflector Scenario.tabeta Scenario.failing
  <> Returns (Fulfilled [Scenario.path_tabeta; Scenario.path_taberu_bare]).
Proof.
  apply (definer_failure_fails_the_call 3 in_order Scenario.deinflector Scenario.tabeta
           Scenario.failing [Scenario.past]
           (Deinflection.new Scenario.taberu [Scenario.v1] Scenario.past)).
  - eapply derivation_step.
    + simpl. left. reflexivity.
    + simpl. left. reflexivity.
    + reflexivity.
    + apply derivation_stop.
  - intros defs. vm_compute. discriminate.
Defined.

(** C4, as stated, fails: the lookup of the dictionary form rejects and so
    does the call, whereas an empty answer in its place gives two paths. *)
Lemma rejected_lookup_rejects_the_call :
  Deinflector.deinflect 3 in_order Scenario.deinflector Scenario.tabeta Scenario.failing
  = Returns (Rejected "lookup failed"%string)
  /\
  Deinflector.deinflect 3 in_order Scenario.deinflector Scenario.tabeta
    (failures_as_empty Scenario.failing)
  = Returns (Fulfilled [Scenario.path_tabeta; Scenario.path_taberu_bare]).
Proof. split; reflexivity. Qed.

Lemma all_rejected_inv (queue : list Deinflection.Task) (e : Error) :
  Deinflection.all queue = Rejected e ->
  exists task, In task queue /\ Deinflection.carries task = Rejected e.
Proof.
  induction queue as [| task later IH]; simpl; intros H; [discriminate |].
  destruct (Deinflection.carries task) as [pushed | e'] eqn:Ec.
  - destruct (Deinflection.all later) as [cs | e'] eqn:Ea; [discriminate |].
    injection H as ->. destruct (IH eq_refl) as (task' & Hin & Hc).
    exists task'. split; [now right | exact Hc].
  - injection H as ->. exists task. split; [now left | exact Ec].
Qed.

Lemma spawn_throws_inv (run : nat -> Deinflection.t -> Call (Promise (Deinflection.t * bool)))
    (instant : nat -> nat) (cands : list Deinflection.t) (e : Error) :
  forall index,
    Deinflection.spawn run instant index cands = Throws e ->
    exists k child, In child cands /\ run k child = Throws e.
Proof.
  induction cands as [| child rest IH]; simpl; intros index H; [discriminate |].
  destruct (run index child) as [promise | e' |] eqn:Er; try discriminate.
  - destruct (Deinflection.spawn run instant (S index) rest) as [tasks | e' |] eqn:Es;
      try discriminate.
    injection H as ->. destruct (IH _ Es) as (k & c & Hin & Hr).
    exists k, c. split; [now right | exact Hr].
  - injection H as ->. exists index, child. split; [now left | exact Er].
Qed.

Lemma Forall2_In_right (A B : Type) (R : A -> B -> Prop) (l : list A) (l' : list B) (b : B) :
  Forall2 R l l' -> In b l' -> exists a, In a l /\ R a b.
Proof.
  induction 1 as [| a b' l l' HR _ IH]; intros Hin; [contradiction |].
  destruct Hin as [-> | Hin].
  - exists a. split; [now left | exact HR].
  - destruct (IH Hin) as (a' & Ha & HR'). exists a'. split; [now right | exact HR'].
Qed.

(** The errors of the search are those of the definer: the search raises
    none of its own. *)
Lemma errors_come_from_the_definer (fuel : nat) :
  forall clock pos definer reasons this entry e,
    (Deinflection.deinflect fuel clock pos definer reasons this entry = Throws e ->
     exists term, definer term = Throw e) /\
    (Deinflection.deinflect fuel clock pos definer reasons this entry = Returns (Rejected e) ->
     exists term, definer term = Reject e).
Proof.
  induction fuel as [| fuel IH]; intros clock pos definer reasons this entry e;
    [split; discriminate |].
  cbn [Deinflection.deinflect].
  destruct (Deinflection.spawn
              (fun index child =>
                 Deinflection.deinflect fuel clock (index :: pos) definer reasons child false)
              (fun index => clock (index :: pos)) 1
              (Deinflection.candidates reasons this entry)) as [tasks | e' |] eqn:Es.
  - pose proof (spawn_returns _ _ _ _ _ Es) as Hs.
    assert (Hchild : forall task,
              In task tasks -> Deinflection.carries task = Rejected e ->
              exists term, definer term = Reject e).
    { intros task Hin Hc.
      destruct (Forall2_In_right _ _ _ _ _ _ Hs Hin) as (child & _ & k & promise & Hr & Hc' & _).
      rewrite Hc' in Hc. destruct promise as [[c v] | e0]; [discriminate |].
      injection Hc as ->. exact (proj2 (IH _ _ _ _ _ _ e) Hr). }
    destruct (definer (Deinflection.term this)) as [defs | e0 | e0] eqn:Ed.
    + split; [discriminate |]. intros H.
      match type of H with
      | Returns (match Deinflection.all ?q with _ => _ end) = _ =>
          destruct (Deinflection.all q) as [cs | e1] eqn:Ea; [discriminate |]
      end.
      injection H as ->. apply all_rejected_inv in Ea as (task & Hin & Hc).
      apply (Permutation_in _ (settle_order_perm _)) in Hin as [<- | Hin];
        [discriminate | exact (Hchild _ Hin Hc)].
    + split; [discriminate |]. intros H.
      match type of H with
      | Returns (match Deinflection.all ?q with _ => _ end) = _ =>
          destruct (Deinflection.all q) as [cs | e1] eqn:Ea; [discriminate |]
      end.
      injection H as ->. apply all_rejected_inv in Ea as (task & Hin & Hc).
      apply (Permutation_in _ (settle_order_perm _)) in Hin as [<- | Hin].
      * injection Hc as ->. now exists (Deinflection.term this).
      * exact (Hchild _ Hin Hc).
    + split; [| discriminate]. intros H. injection H as ->.
      now exists (Deinflection.term this).
  - destruct (spawn_throws_inv _ _ _ _ _ Es) as (k & child & _ & Hr).
    destruct (proj1 (IH _ _ _ _ _ _ e') Hr) as [term Hterm].
    destruct (definer (Deinflection.term this)) as [defs | e0 | e0] eqn:Ed.
    + split; [| discriminate]. intros H. injection H as <-. now exists term.
    + split; [| discriminate]. intros H. injection H as <-. now exists term.
    + split; [| discriminate]. intros H. injection H as <-.
      now exists (Deinflection.term this).
  - destruct (definer (Deinflection.term this)) as [defs | e0 | e0] eqn:Ed.
    + split; discriminate.
    + split; discriminate.
    + split; [| discriminate]. intros H. injection H as <-.
      now exists (Deinflection.term this).
Qed.

(** ** The order of completion *)

Lemma same_shape_refl (n : Deinflection.t) : same_shape n n.
Proof.
  induction n as [cs term rules reason defs IH] using Deinflection.tree_ind.
  apply same_shape_node with (cs1 := cs); [apply Permutation_refl |].
  induction IH; constructor; assumption.
Qed.

Lemma then_push_alike (p1 p2 : Promise (Deinflection.t * bool)) :
  alike_promise alike_result p1 p2 ->
  alike_promise alike_pushed (Deinflection.then_push p1) (Deinflection.then_push p2).
Proof.
  destruct p1 as [[c1 v1] | e1], p2 as [[c2 v2] | e2]; simpl; try tauto.
  intros [Hs Hv]. simpl in Hs, Hv. subst v2. now destruct v1.
Qed.

Lemma spawn_alike
    (run1 run2 : nat -> Deinflection.t -> Call (Promise (Deinflection.t * bool)))
    (instant1 instant2 : nat -> nat) (cands : list Deinflection.t) :
  (forall k child, alike_call (alike_promise alike_result) (run1 k child) (run2 k child)) ->
  forall index,
    alike_call (Forall2 alike_task)
      (Deinflection.spawn run1 instant1 index cands)
      (Deinflection.spawn run2 instant2 index cands).
Proof.
  intros Hrun. induction cands as [| child rest IH]; simpl; intros index.
  - constructor.
  - specialize (Hrun index child). specialize (IH (S index)).
    destruct (run1 index child) as [p1 | e1 |], (run2 index child) as [p2 | e2 |];
      simpl in Hrun; try contradiction; try assumption; try exact I.
    destruct (Deinflection.spawn run1 instant1 (S index) rest) as [tasks1 | e1 |],
             (Deinflection.spawn run2 instant2 (S index) rest) as [tasks2 | e2 |];
      simpl in IH; try contradiction; try assumption; try exact I.
    simpl. constructor; [| assumption].
    unfold alike_task. simpl. now apply then_push_alike.
Qed.

Lemma fulfils_alike (q1 q2 : list Deinflection.Task) :
  Forall2 alike_task q1 q2 ->
  (Forall fulfils q1 <-> Forall fulfils q2).
Proof.
  induction 1 as [| t1 t2 q1 q2 Ht _ IH].
  - split; constructor.
  - unfold alike_task in Ht.
    split; intros H; inversion H as [| ? ? [pushed Hp] Hrest]; subst;
      (constructor; [| now apply IH]).
    + rewrite Hp in Ht. destruct (Deinflection.carries t2) as [pushed' | e] eqn:E;
        [now exists pushed' | contradiction].
    + rewrite Hp in Ht. destruct (Deinflection.carries t1) as [pushed' | e] eqn:E;
        [now exists pushed' | contradiction].
Qed.

Lemma pushes_alike (q1 q2 : list Deinflection.Task) :
  Forall2 alike_task q1 q2 ->
  Forall fulfils q1 ->
  Forall2 same_shape (pushes q1) (pushes q2).
Proof.
  induction 1 as [| t1 t2 q1 q2 Ht _ IH]; intros Hall.
  - constructor.
  - inversion Hall as [| ? ? [pushed Hp] Hrest]; subst.
    unfold pushes. simpl. fold (pushes q1) (pushes q2).
    apply Forall2_app; [| now apply IH].
    unfold alike_task in Ht. rewrite Hp in *.
    destruct (Deinflection.carries t2) as [pushed' | e]; [| contradiction].
    destruct pushed as [c1 |], pushed' as [c2 |]; simpl in Ht; try contradiction.
    + constructor; [assumption | constructor].
    + constructor.
Qed.

Lemma all_cases (queue : list Deinflection.Task) :
  (Forall fulfils queue /\ Deinflection.all queue = Fulfilled (pushes queue))
  \/ (~ Forall fulfils queue /\ exists e, Deinflection.all queue = Rejected e).
Proof.
  destruct (Deinflection.all queue) as [cs | e] eqn:Ea.
  - left. apply all_fulfilled in Ea as [-> Hall]. now split.
  - right. split; [| now exists e].
    intros Hall. apply all_of_fulfils in Hall. congruence.
Qed.

(** [Promise.all] on two queues that hold alike tasks in two orders. *)
Lemma join_alike (tasks1 tasks2 q1 q2 : list Deinflection.Task) :
  Forall2 alike_task tasks1 tasks2 ->
  Permutation q1 tasks1 ->
  Permutation q2 tasks2 ->
  alike_promise same_children (Deinflection.all q1) (Deinflection.all q2).
Proof.
  intros Halike Hp1 Hp2.
  destruct (all_cases q1) as [[Hf1 ->] | [Hn1 [e1 ->]]],
           (all_cases q2) as [[Hf2 ->] | [Hn2 [e2 ->]]]; simpl.
  - assert (Hft : Forall fulfils tasks1) by (now rewrite <- Hp1).
    pose proof (pushes_alike _ _ Halike Hft) as Hshape.
    apply Forall2_flip in Hshape.
    destruct (Permutation_Forall2 (pushes_perm _ _ (Permutation_sym Hp2)) Hshape)
      as (cs & Hperm & Hcs).
    exists cs. split.
    + eapply perm_trans; [apply pushes_perm; exact Hp1 | exact Hperm].
    + apply Forall2_flip in Hcs. exact Hcs.
  - apply Hn2. rewrite Hp2. apply (fulfils_alike _ _ Halike). now rewrite <- Hp1.
  - apply Hn1. rewrite Hp1. apply (fulfils_alike _ _ Halike). now rewrite <- Hp2.
  - exact I.
Qed.

Lemma same_children_length (cs1 cs2 : list Deinflection.t) :
  same_children cs1 cs2 -> length cs1 = length cs2.
Proof.
  intros (cs & Hp & Hf). rewrite (Permutation_length Hp). exact (Forall2_length Hf).
Qed.

Lemma same_shape_set_children (this : Deinflection.t) (cs1 cs2 : list Deinflection.t) :
  same_children cs1 cs2 ->
  same_shape
    (Deinflection.set_children this (Deinflection.children this ++ cs1))
    (Deinflection.set_children this (Deinflection.children this ++ cs2)).
Proof.
  intros (cs & Hp & Hf). unfold Deinflection.set_children.
  apply same_shape_node with (cs1 := Deinflection.children this ++ cs).
  - now apply Permutation_app_head.
  - apply Forall2_app; [| exact Hf].
    induction (Deinflection.children this); constructor;
      [apply same_shape_refl | assumption].
Qed.

(** Two runs that differ in the settling instants only end alike. *)
Lemma deinflect_alike (fuel : nat) :
  forall clock1 clock2 pos definer reasons this entry,
    alike_call (alike_promise alike_result)
      (Deinflection.deinflect fuel clock1 pos definer reasons this entry)
      (Deinflection.deinflect fuel clock2 pos definer reasons this entry).
Proof.
  induction fuel as [| fuel IH]; intros clock1 clock2 pos definer reasons this entry;
    [exact I |].
  cbn [Deinflection.deinflect].
  pose proof (spawn_alike
                (fun index child =>
                   Deinflection.deinflect fuel clock1 (index :: pos) definer reasons child false)
                (fun index child =>
                   Deinflection.deinflect fuel clock2 (index :: pos) definer reasons child false)
                (fun index => clock1 (index :: pos))
                (fun index => clock2 (index :: pos))
                (Deinflection.candidates reasons this entry)
                (fun k child => IH clock1 clock2 (k :: pos) definer reasons child false)
                1) as Hspawn.
  destruct (definer (Deinflection.term this)) as [defs | e | e]; [| | reflexivity];
    destruct (Deinflection.spawn _ (fun index => clock1 (index :: pos)) 1 _)
      as [tasks1 | e1 |],
             (Deinflection.spawn _ (fun index => clock2 (index :: pos)) 1 _)
      as [tasks2 | e2 |];
    simpl in Hspawn; try contradiction; try assumption; try exact I;
    match goal with
    | |- alike_call _
           (Returns (match Deinflection.all (Deinflection.settle_order (?f1 :: _)) with _ => _ end))
           (Returns (match Deinflection.all (Deinflection.settle_order (?f2 :: _)) with _ => _ end)) =>
        assert (Hjoin :
          alike_promise same_children
            (Deinflection.all (Deinflection.settle_order (f1 :: tasks1)))
            (Deinflection.all (Deinflection.settle_order (f2 :: tasks2))));
        [ apply join_alike with (tasks1 := f1 :: tasks1) (tasks2 := f2 :: tasks2);
          [ constructor; [| exact Hspawn]
          | apply settle_order_perm
          | apply settle_order_perm ]
        | destruct (Deinflection.all (Deinflection.settle_order (f1 :: tasks1)))
            as [cs1 | r1],
                   (Deinflection.all (Deinflection.settle_order (f2 :: tasks2)))
            as [cs2 | r2];
          simpl in Hjoin; try contradiction; try exact I ]
    end.
  - unfold alike_task. simpl. apply same_shape_refl.
  - simpl. split.
    + apply same_shape_set_children. exact Hjoin.
    + cbn [snd Deinflection.set_children Deinflection.children].
      rewrite !length_app, (same_children_length _ _ Hjoin). reflexivity.
  - exact I.
  - simpl. split.
    + apply same_shape_set_children. exact Hjoin.
    + cbn [snd Deinflection.set_children Deinflection.children].
      rewrite !length_app, (same_children_length _ _ Hjoin). reflexivity.
Qed.

Lemma flat_map_perm_pointwise (A B : Type) (f g : A -> list B) (l1 l2 : list A) :
  Forall2 (fun a b => Permutation (f a) (g b)) l1 l2 ->
  Permutation (flat_map f l1) (flat_map g l2).
Proof.
  induction 1; simpl; [apply Permutation_refl | now apply Permutation_app].
Qed.

(** Trees that differ in the order of the children flatten to the same
    paths, up to their order. *)
Lemma gather_same_shape (n1 : Deinflection.t) :
  forall n2, same_shape n1 n2 ->
  Permutation (Deinflection.gather n1) (Deinflection.gather n2).
Proof.
  induction n1 as [cs term rules reason defs IH] using Deinflection.tree_ind.
  intros n2 H. inversion H as [cs0 cs1 cs2 ? ? ? ? Hperm Hshape]; subst.
  destruct cs as [| c cs].
  - apply Permutation_nil in Hperm. subst cs1. inversion Hshape; subst.
    apply Permutation_refl.
  - assert (Hcs1 : cs1 <> []).
    { intros ->. apply Permutation_sym, Permutation_nil in Hperm. discriminate. }
    assert (Hcs2 : cs2 <> []).
    { intros ->. inversion Hshape; subst. congruence. }
    rewrite !gather_children by (assumption || discriminate).
    eapply perm_trans.
    + apply Permutation_flat_map. exact Hperm.
    + apply flat_map_perm_pointwise.
      assert (IH1 : Forall
                (fun c => forall n2, same_shape c n2 ->
                   Permutation (Deinflection.gather c) (Deinflection.gather n2)) cs1)
        by (now rewrite <- Hperm).
      clear Hperm Hcs1 Hcs2 H IH.
      induction Hshape as [| a b cs1 cs2 Hab _ IHs]; constructor.
      * apply Permutation_map. inversion IH1; subst. auto.
      * apply IHs. now inversion IH1.
Qed.

(** C3, as the code has it. Which children a node holds is determined by
    the rule table, the term and the answers of the definer; their order
    in [children] is the order in which their promises settle.  Two runs
    that differ in the settling instants only build trees that differ in
    the order of the children only, and return the same paths up to their
    order. *)
Theorem completion_order_permutes_children
    (fuel : nat) (clock1 clock2 : Clock) (this : Deinflector.t) (term : jsstring)
    (definer : Definer) (node1 : Deinflection.t) (success : bool) :
  Deinflection.deinflect fuel clock1 [] definer (Deinflector.reasons this)
    (Deinflection.new term [] []) true
  = Returns (Fulfilled (node1, success)) ->
  exists node2 paths1 paths2,
    Deinflection.deinflect fuel clock2 [] definer (Deinflector.reasons this)
      (Deinflection.new term [] []) true
    = Returns (Fulfilled (node2, success)) /\
    same_shape node1 node2 /\
    Deinflector.deinflect fuel clock1 this term definer = Returns (Fulfilled paths1) /\
    Deinflector.deinflect fuel clock2 this term definer = Returns (Fulfilled paths2) /\
    Permutation paths1 paths2.
Proof.
  intros H1.
  pose proof (deinflect_alike fuel clock1 clock2 [] definer (Deinflector.reasons this)
                (Deinflection.new term [] []) true) as Halike.
  rewrite H1 in Halike.
  destruct (Deinflection.deinflect fuel clock2 [] definer (Deinflector.reasons this)
              (Deinflection.new term [] []) true)
    as [[[node2 success2] | e] | e |] eqn:H2; simpl in Halike; try contradiction.
  destruct Halike as [Hshape Hsuccess]. simpl in Hshape, Hsuccess. subst success2.
  exists node2,
    (if success then Deinflection.gather node1 else []),
    (if success then Deinflection.gather node2 else []).
  unfold Deinflector.deinflect. rewrite H1, H2.
  repeat split; try assumption.
  destruct success; [now apply gather_same_shape | apply Permutation_refl].
Qed.

Lemma completion_order_permutes_children_witness :
  exists node2 paths1 paths2,
    Deinflection.deinflect 3 Scenario.surface_last [] Scenario.definer Scenario.table
      (Deinflection.new Scenario.tabeta [] []) true
    = Returns (Fulfilled (node2, true)) /\
    same_shape
      (Deinflection.Node [Scenario.stop_tabeta; Scenario.node_taberu]
         Scenario.tabeta [] [] [])
      node2 /\
    Deinflector.deinflect 3 in_order Scenario.deinflector Scenario.tabeta Scenario.definer
    = Returns (Fulfilled paths1) /\
    Deinflector.deinflect 3 Scenario.surface_last Scenario.deinflector Scenario.tabeta
      Scenario.definer
    = Returns (Fulfilled paths2) /\
    Permutation paths1 paths2.
Proof.
  apply (completion_order_permutes_children 3 in_order Scenario.surface_last
           Scenario.deinflector Scenario.tabeta Scenario.definer).
  reflexivity.
Defined.

(** C3, as stated, fails: the same search run with two orders of completion
    holds the two children of the root, and returns the two paths, in two
    orders. *)
Lemma completion_order_changes_the_order :
  Deinflection.deinflect 3 in_order [] Scenario.definer Scenario.table
    (Deinflection.new Scenario.tabeta [] []) true
  = Returns (Fulfilled
      (Deinflection.Node [Scenario.stop_tabeta; Scenario.node_taberu]
         Scenario.tabeta [] [] [], true))
  /\
  Deinflection.deinflect 3 Scenario.surface_last [] Scenario.definer Scenario.table
    (Deinflection.new Scenario.tabeta [] []) true
  = Returns (Fulfilled
      (Deinflection.Node [Scenario.node_taberu; Scenario.stop_tabeta]
         Scenario.tabeta [] [] [], true))
  /\
  Deinflector.deinflect 3 in_order Scenario.deinflector Scenario.tabeta Scenario.definer
  = Returns (Fulfilled [Scenario.path_tabeta; Scenario.path_taberu])
  /\
  Deinflector.deinflect 3 Scenario.surface_last Scenario.deinflector Scenario.tabeta
    Scenario.definer
  = Returns (Fulfilled [Scenario.path_taberu; Scenario.path_tabeta])
  /\
  Deinflector.deinflect 3 in_order Scenario.deinflector Scenario.tabeta Scenario.definer
  <> Deinflector.deinflect 3 Scenario.surface_last Scenario.deinflector Scenario.tabeta
       Scenario.definer.
Proof.
  repeat (split; [reflexivity |]). vm_compute. discriminate.
Qed.

Lemma facade_permutes (fuel : nat) (clock1 clock2 : Clock) (this : Deinflector.t)
    (term : jsstring) (definer : Definer) (paths1 : list Path) :
  Deinflector.deinflect fuel clock1 this term definer = Returns (Fulfilled paths1) ->
  exists paths2,
    Deinflector.deinflect fuel clock2 this term definer = Returns (Fulfilled paths2) /\
    Permutation paths1 paths2.
Proof.
  intros H. apply facade_inv in H as (node1 & success & H1 & ->).
  pose proof (deinflect_alike fuel clock1 clock2 [] definer (Deinflector.reasons this)
                (Deinflection.new term [] []) true) as Halike.
  rewrite H1 in Halike. unfold Deinflector.deinflect.
  destruct (Deinflection.deinflect fuel clock2 [] definer (Deinflector.reasons this)
              (Deinflection.new term [] []) true)
    as [[[node2 success2] | e] | e |]; simpl in Halike; try contradiction.
  destruct Halike as [Hshape Hsuccess]. simpl in Hshape, Hsuccess. subst success2.
  eexists. split; [reflexivity |].
  destruct success; [now apply gather_same_shape | apply Permutation_refl].
Qed.



(** ** The child of the validation *)

Lemma gather_nonempty (n : Deinflection.t) : Deinflection.gather n <> [].
Proof.
  induction n as [cs term rules reason defs IH] using Deinflection.tree_ind.
  destruct cs as [| c cs]; [discriminate |].
  rewrite gather_children by discriminate. simpl.
  inversion IH as [| ? ? Hc _]; subst.
  destruct (Deinflection.gather c); [congruence | discriminate].
Qed.

(** The child of the validation is pushed whatever the validation found:
    every search that ends well is reported viable and returns a path. *)
Lemma returned_paths_never_empty (fuel : nat) (clock : Clock) (this : Deinflector.t)
    (term : jsstring) (definer : Definer) (paths : list Path) :
  Deinflector.deinflect fuel clock this term definer = Returns (Fulfilled paths) ->
  paths <> [].
Proof.
  intros H. apply facade_inv in H as (node' & success & He & ->).
  destruct fuel as [| fuel]; [discriminate |].
  apply deinflect_inv in He as (defs & pushed & kept & _ & Hperm & _ & _ & ->).
  cbn [Deinflection.new Deinflection.children app].
  pose proof (pushed_nonempty _ _ _ _ Hperm).
  destruct pushed; [congruence |]. apply gather_nonempty.
Qed.

(** C1 on the code. With an empty rule table and a definer that has no
    definition for any term, [deinflect] of "a" returns one path, the
    surface term itself without any definition: the child of the
    validation is pushed although the validation accepted nothing. *)
Theorem empty_definer_still_returns_a_path :
  Deinflector.deinflect 1 in_order Deinflector.new Scenario.a Scenario.nothing
  = Returns (Fulfilled
      [ {| root := Scenario.a; path_rules := []; path_definitions := [];
           path_reasons := []; source := Some Scenario.a |} ]).
Proof. reflexivity. Qed.

(** C2 on the code. In the scenario of the rule "past", [deinflect] returns
    two paths: the expected one for the dictionary form, and one for the
    surface form itself, which has no definition; in every order of
    completion it returns these two paths. *)
Theorem past_scenario_returns_two_paths :
  Deinflector.deinflect 3 in_order Scenario.deinflector Scenario.tabeta Scenario.definer
  = Returns (Fulfilled [Scenario.path_tabeta; Scenario.path_taberu])
  /\
  forall clock,
    exists paths,
      Deinflector.deinflect 3 clock Scenario.deinflector Scenario.tabeta Scenario.definer
      = Returns (Fulfilled paths) /\
      Permutation [Scenario.path_tabeta; Scenario.path_taberu] paths.
Proof.
  split; [reflexivity |]. intros clock.
  apply (facade_permutes 3 in_order clock). reflexivity.
Qed.

(** ** Further properties of the search *)

Lemma endsWith_iff (s suffix : jsstring) :
  endsWith s suffix = true <-> exists prefix, s = prefix ++ suffix.
Proof.
  unfold endsWith. rewrite andb_true_iff, Nat.leb_le, eqb_js_true. split.
  - intros [Hlen Heq]. exists (firstn (length s - length suffix) s).
    rewrite <- Heq at 2. symmetry. apply firstn_skipn.
  - intros [prefix ->]. rewrite length_app. split; [lia |].
    replace (length prefix + length suffix - length suffix) with (length prefix + 0) by lia.
    rewrite skipn_app, Nat.add_0_r, skipn_all. simpl.
    replace (length prefix - length prefix) with 0 by lia. reflexivity.
Qed.

Lemma slice0_drops_suffix (prefix suffix : jsstring) :
  suffix <> [] ->
  slice0 (prefix ++ suffix) (- Z.of_nat (length suffix)) = prefix.
Proof.
  intros Hne. unfold slice0.
  assert (0 < length suffix) by (destruct suffix; [congruence | simpl; lia]).
  destruct (Z.ltb_spec (- Z.of_nat (length suffix)) 0) as [_ | Hge]; [| lia].
  rewrite length_app.
  replace (Z.to_nat (Z.max (Z.of_nat (length prefix + length suffix)
                            + - Z.of_nat (length suffix)) 0))
    with (length prefix + 0) by lia.
  rewrite firstn_app_2. simpl. now rewrite app_nil_r.
Qed.

(** X1. A rule with a non-empty [kanaIn] applies to a term that ends with
    [kanaIn] only, and replaces that suffix by [kanaOut]: the child keeps
    the rest of the term, is tagged with [rulesOut] and with the reason. *)
Theorem rule_application_replaces_the_suffix
    (this child : Deinflection.t) (entry : bool) (reason : jsstring)
    (variant : RuleVariant) :
  Deinflection.candidate this entry reason variant = Some child ->
  kanaIn variant <> [] ->
  exists prefix,
    Deinflection.term this = prefix ++ kanaIn variant /\
    child = Deinflection.new (prefix ++ kanaOut variant) (rulesOut variant) reason /\
    prefix ++ kanaOut variant <> [].
Proof.
  intros Hc Hne. apply candidate_Some in Hc as (-> & _ & Hends & Hlen).
  apply endsWith_iff in Hends as [prefix Hterm]. exists prefix.
  assert (Hrw : Deinflection.rewrite this variant = prefix ++ kanaOut variant).
  { unfold Deinflection.rewrite. rewrite Hterm. now rewrite slice0_drops_suffix. }
  rewrite Hrw in *. repeat split; try assumption.
  intros Hnil. rewrite Hnil in Hlen. simpl in Hlen. lia.
Qed.

Lemma rule_application_replaces_the_suffix_witness :
  exists prefix,
    Scenario.tabeta = prefix ++ Scenario.ta /\
    Deinflection.new Scenario.taberu [Scenario.v1] Scenario.past
    = Deinflection.new (prefix ++ Scenario.ru) [Scenario.v1] Scenario.past /\
    prefix ++ Scenario.ru <> [].
Proof.
  apply (rule_application_replaces_the_suffix
           (Deinflection.new Scenario.tabeta [] []) _ true Scenario.past
           {| kanaIn := Scenario.ta; kanaOut := Scenario.ru;
              rulesIn := [Scenario.v1]; rulesOut := [Scenario.v1] |}).
  - reflexivity.
  - discriminate.
Defined.

(** X2. A rule with an empty [kanaIn] does not append [kanaOut] to the
    term: [slice(0, -0)] is the empty string, so the child's term is
    [kanaOut] alone, and the rule is skipped when [kanaOut] is empty too. *)
Theorem empty_kanaIn_discards_the_term
    (this : Deinflection.t) (entry : bool) (reason : jsstring) (variant : RuleVariant) :
  kanaIn variant = [] ->
  Deinflection.candidate this entry reason variant
  = if Deinflection.allowed this entry variant && negb (length (kanaOut variant) =? 0)
    then Some (Deinflection.new (kanaOut variant) (rulesOut variant) reason)
    else None.
Proof.
  intros Hin. unfold Deinflection.candidate.
  rewrite (rewrite_empty_kanaIn this variant Hin).
  assert (Hends : endsWith (Deinflection.term this) (kanaIn variant) = true).
  { apply endsWith_iff. exists (Deinflection.term this). rewrite Hin. now rewrite app_nil_r. }
  rewrite Hends.
  destruct (Deinflection.allowed this entry variant); simpl; [| reflexivity].
  now destruct (length (kanaOut variant) =? 0).
Qed.

Lemma empty_kanaIn_discards_the_term_witness :
  Deinflection.candidate (Deinflection.new Scenario.tabeta [] []) true Scenario.past
    {| kanaIn := []; kanaOut := Scenario.ru; rulesIn := []; rulesOut := [] |}
  = Some (Deinflection.new Scenario.ru [] Scenario.past).
Proof.
  apply (empty_kanaIn_discards_the_term (Deinflection.new Scenario.tabeta [] []) true
           Scenario.past
           {| kanaIn := []; kanaOut := Scenario.ru; rulesIn := []; rulesOut := [] |}).
  reflexivity.
Defined.

Lemma last_below (n c : Deinflection.t) (below : list Deinflection.t) :
  last (c :: below) n = last below c.
Proof.
  revert n c. induction below as [| b below IH]; intros n c; [reflexivity |].
  change (last (c :: b :: below) n) with (last (b :: below) n).
  now rewrite (IH n b), (IH c b).
Qed.

Lemma recorded_app (l1 l2 : list jsstring) :
  recorded (l1 ++ l2) = recorded l1 ++ recorded l2.
Proof. unfold recorded. apply filter_app. Qed.

Lemma extend_branch_path (n c : Deinflection.t) (below : list Deinflection.t) :
  Deinflection.extend (Deinflection.term n) (Deinflection.reason n)
    (Deinflection.definitions n) (branch_path c below)
  = branch_path n (c :: below).
Proof.
  unfold branch_path, Deinflection.extend. cbn [root path_rules path_definitions path_reasons].
  rewrite (last_below n c below). f_equal.
  - change (rev (n :: c :: below)) with (rev (c :: below) ++ [n]).
    rewrite flat_map_app. simpl. now rewrite app_nil_r.
  - change (removelast (n :: c :: below)) with (n :: removelast (c :: below)).
    cbn [map]. change (rev (Deinflection.reason n :: ?l)) with (rev l ++ [Deinflection.reason n]).
    cbn [rev]. rewrite recorded_app.
    assert (Hone : recorded [Deinflection.reason n]
                   = if 0 <? length (Deinflection.reason n)
                     then [Deinflection.reason n] else []) by reflexivity.
    rewrite Hone.
    destruct (0 <? length (Deinflection.reason n)); [reflexivity | now rewrite app_nil_r].
Qed.

(** X3. [gather] returns one path for each way down from the node to a
    leaf, in the order of the children: its root and rules are those of the
    leaf, its definitions are those of the nodes on the way from the leaf up
    to the node, its reasons are the non-empty reasons of the nodes above
    the leaf from the deepest one, and its source is the term of the node
    (absent when the node is itself a leaf). *)
Theorem gather_one_path_per_branch (n : Deinflection.t) :
  Deinflection.gather n = map (branch_path n) (descents n).
Proof.
  induction n as [cs term rules reason defs IH] using Deinflection.tree_ind.
  destruct cs as [| c cs].
  - unfold branch_path. simpl. now rewrite app_nil_r.
  - rewrite gather_children by discriminate.
    change (descents (Deinflection.Node (c :: cs) term rules reason defs))
      with (flat_map (fun c0 => map (cons c0) (descents c0)) (c :: cs)).
    remember (Deinflection.Node (c :: cs) term rules reason defs) as n eqn:Hn.
    assert (Hfields : Deinflection.term n = term /\ Deinflection.reason n = reason /\
                      Deinflection.definitions n = defs) by (subst n; repeat split).
    destruct Hfields as (Ht & Hr & Hd). rewrite <- Ht, <- Hr, <- Hd.
    clear Hn Ht Hr Hd. induction IH as [| c0 cs0 Hc0 _ IHcs]; [reflexivity |].
    cbn [flat_map]. rewrite map_app, <- IHcs. f_equal.
    rewrite Hc0, !map_map. apply map_ext. intros below. apply extend_branch_path.
Qed.

(** One level of a search that ends well, with the tasks of the children. *)
Lemma deinflect_inv_tasks (fuel : nat) (clock : Clock) (pos : list nat) (definer : Definer)
    (reasons : Reasons) (this this'' : Deinflection.t) (entry viable : bool) :
  Deinflection.deinflect (S fuel) clock pos definer reasons this entry
  = Returns (Fulfilled (this'', viable)) ->
  exists defs tasks,
    definer (Deinflection.term this) = Resolve defs /\
    Forall2
      (fun child task =>
         exists k promise,
           Deinflection.deinflect fuel clock (k :: pos) definer reasons child false
           = Returns promise /\
           Deinflection.carries task = Deinflection.then_push promise /\
           Deinflection.settles task = clock (k :: pos))
      (Deinflection.candidates reasons this entry) tasks /\
    Forall fulfils tasks /\
    (exists pushed,
       Permutation pushed (stop_child this :: pushes tasks) /\
       this'' = Deinflection.set_children
                  (fst (Deinflection.validate this entry defs))
                  (Deinflection.children this ++ pushed)) /\
    viable = true.
Proof.
  intros H. pose proof H as Hinv.
  apply deinflect_inv in Hinv as (defs & _ & _ & Hd & _ & _ & _ & _).
  cbn [Deinflection.deinflect] in H. rewrite Hd in H.
  destruct (Deinflection.spawn _ _ 1 (Deinflection.candidates reasons this entry))
    as [tasks | e |] eqn:Es; try discriminate.
  apply spawn_returns in Es.
  match type of H with
  | Returns (match Deinflection.all ?q with _ => _ end) = _ =>
      destruct (Deinflection.all q) as [pushed | e] eqn:Ea; [| discriminate];
      pose proof (settle_order_perm
                    ({| Deinflection.settles := clock (0 :: pos);
                        Deinflection.carries := Fulfilled (Some (stop_child this)) |}
                       :: tasks)) as Hperm
  end.
  apply all_fulfilled in Ea as [-> Hall].
  assert (Hft : Forall fulfils tasks).
  { assert (Hfirst : Forall fulfils
                       ({| Deinflection.settles := clock (0 :: pos);
                           Deinflection.carries := Fulfilled (Some (stop_child this)) |}
                          :: tasks))
      by (eapply Permutation_Forall; [exact Hperm | exact Hall]).
    now inversion Hfirst. }
  apply pushes_perm in Hperm.
  exists defs, tasks. split; [exact Hd |]. split; [exact Es |]. split; [exact Hft |].
  destruct (validate_fields this entry defs) as (_ & _ & _ & Hcs). cbn zeta in Hcs.
  destruct (Deinflection.validate this entry defs) as [this' valid].
  cbn [fst] in *. injection H as <- <-. split.
  - eexists. split; [exact Hperm |]. now rewrite Hcs.
  - cbn [Deinflection.set_children Deinflection.children]. rewrite length_app.
    assert (Hpos : 0 < length
                         (pushes
                            (Deinflection.settle_order
                               ({| Deinflection.settles := clock (0 :: pos);
                                   Deinflection.carries := Fulfilled (Some (stop_child this)) |}
                                  :: tasks)))).
    { rewrite (Permutation_length Hperm). unfold pushes. simpl. lia. }
    apply Nat.ltb_lt. eapply Nat.lt_le_trans; [exact Hpos | apply Nat.le_add_l].
Qed.

(** Exploring a node leaves its term, rules and reason as they were. *)
Lemma deinflect_fields (fuel : nat) (clock : Clock) (pos : list nat) (definer : Definer)
    (reasons : Reasons) (this this' : Deinflection.t) (entry viable : bool) :
  Deinflection.deinflect fuel clock pos definer reasons this entry
  = Returns (Fulfilled (this', viable)) ->
  Deinflection.term this' = Deinflection.term this /\
  Deinflection.rules this' = Deinflection.rules this /\
  Deinflection.reason this' = Deinflection.reason this.
Proof.
  destruct fuel as [| fuel]; [discriminate |]. intros H.
  apply deinflect_inv in H as (defs & pushed & kept & _ & _ & _ & -> & _).
  destruct (validate_fields this entry defs) as (Ht & Hr & Hre & _).
  cbn. repeat split; assumption.
Qed.

(** Every child constructed by the loops is explored, reported viable and
    pushed. *)
Lemma constructed_children_are_pushed (fuel : nat) (clock : Clock) (pos : list nat)
    (definer : Definer) (reasons : Reasons) (this this'' : Deinflection.t)
    (entry viable : bool) (child : Deinflection.t) :
  Deinflection.deinflect (S fuel) clock pos definer reasons this entry
  = Returns (Fulfilled (this'', viable)) ->
  In child (Deinflection.candidates reasons this entry) ->
  exists k child',
    Deinflection.deinflect fuel clock (k :: pos) definer reasons child false
    = Returns (Fulfilled (child', true)) /\
    In child' (Deinflection.children this'').
Proof.
  intros H Hin.
  apply deinflect_inv_tasks in H
    as (defs & tasks & _ & Hspawn & Hall & (pushed & Hperm & ->) & _).
  destruct (spawn_all_returned _ _ _ _ _ Hspawn Hin)
    as (task & k & promise & Htask & Hrun & Hcarries).
  rewrite Forall_forall in Hall. destruct (Hall task Htask) as [push Hpush].
  rewrite Hcarries in Hpush.
  destruct promise as [[child' valid] | e]; [| discriminate].
  assert (Hvalid : valid = true).
  { destruct fuel as [| fuel]; [discriminate |].
    now apply deinflect_inv_tasks in Hrun as (_ & _ & _ & _ & _ & _ & ->). }
  subst valid. exists k, child'. split; [exact Hrun |].
  cbn [Deinflection.set_children Deinflection.children].
  apply in_or_app. right.
  apply (Permutation_in _ (Permutation_sym Hperm)). right.
  unfold pushes. apply in_flat_map. exists task. split; [exact Htask |].
  rewrite Hcarries. simpl. now left.
Qed.

Lemma candidate_depends_on_term_and_rules (a b : Deinflection.t) (entry : bool)
    (reason : jsstring) (variant : RuleVariant) :
  Deinflection.term a = Deinflection.term b ->
  Deinflection.rules a = Deinflection.rules b ->
  Deinflection.candidate a entry reason variant
  = Deinflection.candidate b entry reason variant.
Proof.
  intros Ht Hr.
  unfold Deinflection.candidate, Deinflection.allowed, Deinflection.rewrite.
  now rewrite Ht, Hr.
Qed.

Lemma explored_tree (fuel : nat) :
  forall clock pos definer reasons this entry this' viable,
    Deinflection.deinflect fuel clock pos definer reasons this entry
    = Returns (Fulfilled (this', viable)) ->
    Deinflection.children this = [] ->
    explored reasons entry this'.
Proof.
  induction fuel as [| fuel IH];
    intros clock pos definer reasons this entry this' viable H Hcs; [discriminate |].
  pose proof (deinflect_fields _ _ _ _ _ _ _ _ _ H) as (Ht & Hr & _).
  apply deinflect_inv in H as (defs & pushed & kept & _ & Hperm & Hkept & Heq & _).
  assert (Hstop : stop_child this' = stop_child this)
    by (unfold stop_child; now rewrite Ht, Hr).
  assert (Hchildren : Deinflection.children this' = pushed)
    by (subst this'; cbn; now rewrite Hcs).
  constructor.
  - rewrite Hstop, Hchildren.
    apply (Permutation_in _ (Permutation_sym Hperm)). now left.
  - rewrite Hstop, Hchildren. apply Forall_forall. intros c Hc.
    apply (Permutation_in _ Hperm) in Hc as [<- | Hc]; [now left | right].
    destruct (Hkept c Hc) as (child & k & Hin & Hrun).
    pose proof (deinflect_fields _ _ _ _ _ _ _ _ _ Hrun) as (Htc & Hrc & Hrec).
    pose proof Hin as Hfresh. apply candidates_fresh in Hfresh as (Hc0 & _ & _).
    split; [| exact (IH _ _ _ _ _ _ _ _ Hrun Hc0)].
    apply candidates_In in Hin as (reason & variants & variant & Hin1 & Hin2 & Hcand).
    exists reason, variants, variant. repeat split; try assumption.
    rewrite (candidate_depends_on_term_and_rules this' this entry reason variant Ht Hr).
    rewrite Hcand. f_equal.
    apply candidate_Some in Hcand as (-> & _). cbn in Htc, Hrc, Hrec.
    unfold Deinflection.new. now rewrite Htc, Hrc, Hrec.
Qed.

(** X4. The tree that [deinflect] leaves at the root has a fixed shape:
    every explored node holds the child of its validation, and every other
    child is the explored form of a child constructed by an admissible rule
    application at that node (the rules of a variant are tested below the
    root only). *)
Theorem search_tree_is_explored
    (fuel : nat) (clock : Clock) (definer : Definer) (reasons : Reasons)
    (term : jsstring) (node' : Deinflection.t) (success : bool) :
  Deinflection.deinflect fuel clock [] definer reasons (Deinflection.new term [] []) true
  = Returns (Fulfilled (node', success)) ->
  explored reasons true node' /\
  Deinflection.term node' = term /\
  Deinflection.rules node' = [] /\
  Deinflection.reason node' = [].
Proof.
  intros H. split.
  - exact (explored_tree _ _ _ _ _ _ _ _ _ H eq_refl).
  - exact (deinflect_fields _ _ _ _ _ _ _ _ _ H).
Qed.

Lemma search_tree_is_explored_witness :
  let node' :=
    Deinflection.Node [Scenario.stop_tabeta; Scenario.node_taberu] Scenario.tabeta [] [] [] in
  explored Scenario.table true node' /\
  Deinflection.term node' = Scenario.tabeta /\
  Deinflection.rules node' = [] /\
  Deinflection.reason node' = [].
Proof.
  exact (search_tree_is_explored 3 in_order Scenario.definer Scenario.table
           Scenario.tabeta
           (Deinflection.Node [Scenario.stop_tabeta; Scenario.node_taberu]
              Scenario.tabeta [] [] [])
           true eq_refl).
Defined.

Lemma gather_In_child (n c : Deinflection.t) (q : Path) :
  In c (Deinflection.children n) ->
  In q (Deinflection.gather c) ->
  In (Deinflection.extend (Deinflection.term n) (Deinflection.reason n)
        (Deinflection.definitions n) q)
     (Deinflection.gather n).
Proof.
  destruct n as [cs t r re ds]. cbn [Deinflection.children Deinflection.term
    Deinflection.reason Deinflection.definitions]. intros Hc Hq.
  rewrite gather_children by (intros ->; contradiction).
  apply in_flat_map. exists c. split; [exact Hc | now apply in_map].
Qed.

Lemma derivations_are_gathered (reasons : Reasons) (this last : Deinflection.t)
    (entry : bool) (names : list jsstring) :
  derivation reasons this entry names last ->
  forall fuel clock pos definer this' viable,
    Deinflection.deinflect fuel clock pos definer reasons this entry
    = Returns (Fulfilled (this', viable)) ->
    Deinflection.children this = [] ->
    exists p,
      In p (Deinflection.gather this') /\
      root p = Deinflection.term last /\
      path_rules p = Deinflection.rules last /\
      path_reasons p = rev (recorded names) ++ recorded [Deinflection.reason this].
Proof.
  induction 1 as [this entry | this entry reason variants variant child names last Hr Hv Hc Hd IH];
    intros fuel clock pos definer this' viable H Hcs.
  - destruct fuel as [| fuel]; [discriminate |].
    pose proof (deinflect_fields _ _ _ _ _ _ _ _ _ H) as (Ht & _ & Hre).
    apply deinflect_inv in H as (defs & pushed & kept & _ & Hperm & _ & Heq & _).
    exists (Deinflection.extend (Deinflection.term this') (Deinflection.reason this')
              (Deinflection.definitions this')
              {| root := Deinflection.term this; path_rules := Deinflection.rules this;
                 path_definitions := []; path_reasons := []; source := None |}).
    split; [| split; [reflexivity | split; [reflexivity |]]].
    + assert (Hin : In (stop_child this) (Deinflection.children this')).
      { subst this'. cbn. rewrite Hcs. cbn.
        apply (Permutation_in _ (Permutation_sym Hperm)). now left. }
      apply (gather_In_child this' (stop_child this)); [exact Hin |].
      rewrite gather_stop_child. now left.
    + rewrite extend_reasons, Hre. reflexivity.
  - destruct fuel as [| fuel]; [discriminate |].
    pose proof (deinflect_fields _ _ _ _ _ _ _ _ _ H) as (_ & _ & Hre).
    assert (Hin : In child (Deinflection.candidates reasons this entry))
      by (apply candidates_In; now exists reason, variants, variant).
    destruct (constructed_children_are_pushed _ _ _ _ _ _ _ _ _ _ H Hin)
      as (k & child' & Hrun & Hpushed).
    pose proof Hin as Hfresh. apply candidates_fresh in Hfresh as (Hc0 & _ & _).
    destruct (IH _ _ _ _ _ _ Hrun Hc0) as (q & Hq & Hroot & Hrules & Hreasons).
    exists (Deinflection.extend (Deinflection.term this') (Deinflection.reason this')
              (Deinflection.definitions this') q).
    split; [| split; [exact Hroot | split; [exact Hrules |]]].
    + exact (gather_In_child this' child' q Hpushed Hq).
    + rewrite extend_reasons, Hre, Hreasons, recorded_cons.
      apply candidate_Some in Hc as (-> & _). reflexivity.
Qed.

(** X5. The search prunes nothing: when [deinflect] resolves, every chain
    of admissible rule applications from the surface term has its path in
    the result, with the reached term as root, its rules, and the recorded
    reasons of the chain from the deepest one, whether or not the definer
    has a definition for any term of the chain. *)
Theorem every_derivation_is_returned
    (fuel : nat) (clock : Clock) (this : Deinflector.t) (term : jsstring)
    (definer : Definer) (paths : list Path) (names : list jsstring)
    (last : Deinflection.t) :
  Deinflector.deinflect fuel clock this term definer = Returns (Fulfilled paths) ->
  derivation (Deinflector.reasons this) (Deinflection.new term [] []) true names last ->
  exists p,
    In p paths /\
    root p = Deinflection.term last /\
    path_rules p = Deinflection.rules last /\
    path_reasons p = rev (recorded names).
Proof.
  intros H Hd. apply facade_inv in H as (node' & success & He & ->).
  destruct (derivations_are_gathered _ _ _ _ _ Hd _ _ _ _ _ _ He eq_refl)
    as (p & Hp & Hroot & Hrules & Hreasons).
  assert (success = true) as ->.
  { destruct fuel as [| fuel]; [discriminate |].
    now apply deinflect_inv_tasks in He as (_ & _ & _ & _ & _ & _ & ->). }
  exists p. repeat split; try assumption.
  rewrite Hreasons. cbn. now rewrite app_nil_r.
Qed.

Lemma every_derivation_is_returned_witness :
  exists p,
    In p [Scenario.path_tabeta; Scenario.path_taberu_bare] /\
    root p = Scenario.taberu /\
    path_rules p = [Scenario.v1] /\
    path_reasons p = rev (recorded [Scenario.past]).
Proof.
  apply (every_derivation_is_returned 3 in_order Scenario.deinflector Scenario.tabeta
           Scenario.nothing _ [Scenario.past]
           (Deinflection.new Scenario.taberu [Scenario.v1] Scenario.past)).
  - reflexivity.
  - eapply derivation_step.
    + simpl. left. reflexivity.
    + simpl. left. reflexivity.
    + reflexivity.
    + apply derivation_stop.
Defined.

(** X6. The root stores every definition of the surface term and [gather]
    appends the definitions of the root to every path: the definitions of
    each returned path end with all the definitions that the definer gave
    for the surface term, also on the paths of other roots. *)
Theorem paths_end_with_surface_definitions
    (fuel : nat) (clock : Clock) (this : Deinflector.t) (term : jsstring)
    (definer : Definer) (defs : list Defn) (paths : list Path) (p : Path) :
  Deinflector.deinflect fuel clock this term definer = Returns (Fulfilled paths) ->
  definer term = Resolve defs ->
  In p paths ->
  exists deeper, path_definitions p = deeper ++ defs.
Proof.
  intros H Hdefs Hp. apply facade_inv in H as (node' & success & He & ->).
  destruct fuel as [| fuel]; [discriminate |].
  apply deinflect_inv in He as (defs' & pushed & kept & Hd & Hperm & _ & -> & ->).
  cbn [Deinflection.new Deinflection.term] in Hd. rewrite Hdefs in Hd. injection Hd as <-.
  cbn [Deinflection.new Deinflection.children app] in Hp.
  pose proof (pushed_nonempty _ _ _ _ Hperm) as Hne.
  destruct pushed as [| c pushed]; [congruence |].
  cbn [length Nat.ltb Nat.leb] in Hp.
  apply gather_In in Hp as (child & q & _ & _ & ->); [| discriminate].
  exists (path_definitions q). reflexivity.
Qed.

Lemma paths_end_with_surface_definitions_witness :
  exists deeper,
    path_definitions
      {| root := Scenario.taberu; path_rules := []; path_definitions := [Scenario.entry_v1];
         path_reasons := []; source := Some Scenario.taberu |}
    = deeper ++ [Scenario.entry_v1].
Proof.
  apply (paths_end_with_surface_definitions 1 in_order Deinflector.new Scenario.taberu
           Scenario.definer [Scenario.entry_v1]
           [ {| root := Scenario.taberu; path_rules := [];
                path_definitions := [Scenario.entry_v1];
                path_reasons := []; source := Some Scenario.taberu |} ]).
  - reflexivity.
  - reflexivity.
  - simpl. left. reflexivity.
Defined.

Lemma no_suffix_no_candidates (reasons : Reasons) (this : Deinflection.t) (entry : bool) :
  (forall reason variants variant,
     In (reason, variants) reasons -> In variant variants ->
     endsWith (Deinflection.term this) (kanaIn variant) = false) ->
  Deinflection.candidates reasons this entry = [].
Proof.
  intros Hno.
  destruct (Deinflection.candidates reasons this entry) as [| child rest] eqn:E;
    [reflexivity |].
  assert (Hin : In child (Deinflection.candidates reasons this entry))
    by (rewrite E; now left).
  apply candidates_In in Hin as (reason & variants & variant & Hr & Hv & Hc).
  apply candidate_Some in Hc as (_ & _ & Hends & _).
  rewrite (Hno _ _ _ Hr Hv) in Hends. discriminate.
Qed.

(** X7. When no variant of the table has a [kanaIn] that the surface term
    ends with (in particular with the empty table of a new [Deinflector]),
    [deinflect] resolves to exactly one path: the surface term itself, with
    no rules and no reasons, and with the definitions that the definer gave
    for it, in every order of completion. *)
Theorem no_applicable_rule_returns_the_surface_term
    (fuel : nat) (clock : Clock) (this : Deinflector.t) (term : jsstring)
    (definer : Definer) (defs : list Defn) :
  (forall reason variants variant,
     In (reason, variants) (Deinflector.reasons this) -> In variant variants ->
     endsWith term (kanaIn variant) = false) ->
  definer term = Resolve defs ->
  Deinflector.deinflect (S fuel) clock this term definer
  = Returns (Fulfilled
      [ {| root := term; path_rules := []; path_definitions := defs;
           path_reasons := []; source := Some term |} ]).
Proof.
  intros Hno Hdefs. unfold Deinflector.deinflect. cbn [Deinflection.deinflect].
  rewrite (no_suffix_no_candidates _ (Deinflection.new term [] []) true Hno).
  cbn [Deinflection.new Deinflection.term]. rewrite Hdefs. reflexivity.
Qed.

Lemma no_applicable_rule_returns_the_surface_term_witness :
  Deinflector.deinflect 1 Scenario.surface_last Scenario.deinflector Scenario.taberu
    Scenario.definer
  = Returns (Fulfilled
      [ {| root := Scenario.taberu; path_rules := [];
           path_definitions := [Scenario.entry_v1];
           path_reasons := []; source := Some Scenario.taberu |} ]).
Proof.
  apply (no_applicable_rule_returns_the_surface_term 0 Scenario.surface_last
           Scenario.deinflector Scenario.taberu Scenario.definer [Scenario.entry_v1]).
  - intros reason variants variant Hr Hv. simpl in Hr.
    destruct Hr as [Hr | []]. injection Hr as <- <-.
    destruct Hv as [<- | []]. reflexivity.
  - reflexivity.
Defined.

Lemma failure_has_a_source (fuel : nat) :
  forall clock pos definer reasons this entry e,
    (Deinflection.deinflect fuel clock pos definer reasons this entry = Throws e ->
     exists names last,
       derivation reasons this entry names last /\
       definer (Deinflection.term last) = Throw e) /\
    (Deinflection.deinflect fuel clock pos definer reasons this entry = Returns (Rejected e) ->
     exists names last,
       derivation reasons this entry names last /\
       definer (Deinflection.term last) = Reject e).
Proof.
  induction fuel as [| fuel IH]; intros clock pos definer reasons this entry e;
    [split; discriminate |].
  assert (Hstep : forall child names last,
            In child (Deinflection.candidates reasons this entry) ->
            derivation reasons child false names last ->
            exists names' last', derivation reasons this entry names' last' /\
                                 last' = last).
  { intros child names last Hin Hd.
    apply candidates_In in Hin as (reason & variants & variant & Hr & Hv & Hc).
    exists (reason :: names), last. split; [| reflexivity].
    econstructor; eassumption. }
  cbn [Deinflection.deinflect].
  destruct (Deinflection.spawn
              (fun index child =>
                 Deinflection.deinflect fuel clock (index :: pos) definer reasons child false)
              (fun index => clock (index :: pos)) 1
              (Deinflection.candidates reasons this entry)) as [tasks | e' |] eqn:Es.
  - pose proof (spawn_returns _ _ _ _ _ Es) as Hs.
    assert (Hchild : forall task,
              In task tasks -> Deinflection.carries task = Rejected e ->
              exists names last,
                derivation reasons this entry names last /\
                definer (Deinflection.term last) = Reject e).
    { intros task Hin Hc.
      destruct (Forall2_In_right _ _ _ _ _ _ Hs Hin)
        as (child & Hcand & k & promise & Hr & Hc' & _).
      rewrite Hc' in Hc. destruct promise as [[c v] | e0]; [discriminate |].
      injection Hc as ->.
      destruct (proj2 (IH _ _ _ _ _ _ e) Hr) as (names & last & Hd & Hfail).
      destruct (Hstep _ _ _ Hcand Hd) as (names' & last' & Hd' & ->).
      now exists names', last. }
    destruct (definer (Deinflection.term this)) as [defs | e0 | e0] eqn:Ed.
    + split; [discriminate |]. intros H.
      match type of H with
      | Returns (match Deinflection.all ?q with _ => _ end) = _ =>
          destruct (Deinflection.all q) as [cs | e1] eqn:Ea; [discriminate |]
      end.
      injection H as ->. apply all_rejected_inv in Ea as (task & Hin & Hc).
      apply (Permutation_in _ (settle_order_perm _)) in Hin as [<- | Hin];
        [discriminate | exact (Hchild _ Hin Hc)].
    + split; [discriminate |]. intros H.
      match type of H with
      | Returns (match Deinflection.all ?q with _ => _ end) = _ =>
          destruct (Deinflection.all q) as [cs | e1] eqn:Ea; [discriminate |]
      end.
      injection H as ->. apply all_rejected_inv in Ea as (task & Hin & Hc).
      apply (Permutation_in _ (settle_order_perm _)) in Hin as [<- | Hin].
      * injection Hc as ->. exists [], this. split; [constructor | exact Ed].
      * exact (Hchild _ Hin Hc).
    + split; [| discriminate]. intros H. injection H as ->.
      exists [], this. split; [constructor | exact Ed].
  - destruct (spawn_throws_inv _ _ _ _ _ Es) as (k & child & Hcand & Hr).
    destruct (proj1 (IH _ _ _ _ _ _ e') Hr) as (names & last & Hd & Hfail).
    destruct (Hstep _ _ _ Hcand Hd) as (names' & last' & Hd' & ->).
    destruct (definer (Deinflection.term this)) as [defs | e0 | e0] eqn:Ed.
    + split; [| discriminate]. intros H. injection H as <-. now exists names', last.
    + split; [| discriminate]. intros H. injection H as <-. now exists names', last.
    + split; [| discriminate]. intros H. injection H as <-.
      exists [], this. split; [constructor | exact Ed].
  - destruct (definer (Deinflection.term this)) as [defs | e0 | e0] eqn:Ed.
    + split; discriminate.
    + split; discriminate.
    + split; [| discriminate]. intros H. injection H as <-.
      exists [], this. split; [constructor | exact Ed].
Qed.

(** X8. The search raises no error of its own: when [deinflect] throws,
    the definer threw that error for a term reached from the surface term
    by a chain of admissible rule applications, and when its promise
    rejects, the definer rejected with that error for such a term. *)
Theorem errors_are_those_of_the_definer
    (fuel : nat) (clock : Clock) (this : Deinflector.t) (term : jsstring)
    (definer : Definer) (e : Error) :
  (Deinflector.deinflect fuel clock this term definer = Throws e ->
   exists names last,
     derivation (Deinflector.reasons this) (Deinflection.new term [] []) true names last /\
     definer (Deinflection.term last) = Throw e) /\
  (Deinflector.deinflect fuel clock this term definer = Returns (Rejected e) ->
   exists names last,
     derivation (Deinflector.reasons this) (Deinflection.new term [] []) true names last /\
     definer (Deinflection.term last) = Reject e).
Proof.
  pose proof (failure_has_a_source fuel clock [] definer (Deinflector.reasons this)
                (Deinflection.new term [] []) true e) as [Hthrow Hreject].
  unfold Deinflector.deinflect.
  destruct (Deinflection.deinflect fuel clock [] definer (Deinflector.reasons this)
              (Deinflection.new term [] []) true) as [[[node' success] | e0] | e0 |];
    split; intros H; try discriminate; injection H as ->;
    [apply Hreject | apply Hthrow]; reflexivity.
Qed.

Lemma errors_are_those_of_the_definer_witness :
  exists names last,
    derivation Scenario.table (Deinflection.new Scenario.tabeta [] []) true names last /\
    Scenario.failing (Deinflection.term last) = Reject "lookup failed"%string.
Proof.
  apply (proj2 (errors_are_those_of_the_definer 3 in_order Scenario.deinflector
                  Scenario.tabeta Scenario.failing "lookup failed"%string)).
  reflexivity.
Defined.



Lemma shrinking_derivation (reasons : Reasons) (this last : Deinflection.t)
    (entry : bool) (names : list jsstring) :
  shrinking reasons ->
  derivation reasons this entry names last ->
  length (Deinflection.term last) + length names <= length (Deinflection.term this).
Proof.
  intros Hshrink.
  induction 1 as [this entry | this entry reason variants variant child names last Hr Hv Hc Hd IH].
  - simpl. lia.
  - apply candidate_Some in Hc as (-> & _ & Hends & _).
    pose proof (rewrite_shorter this variant (Hshrink _ _ _ Hr Hv) Hends) as Hlt.
    cbn [Deinflection.new Deinflection.term] in IH. simpl. lia.
Qed.

Lemma recorded_length (names : list jsstring) : length (recorded names) <= length names.
Proof. unfold recorded. apply filter_length_le. Qed.

(** X10. With a rule table whose variants all replace a suffix by a
    shorter one, the search returns, the calls of [deinflect] nesting at
    most as deep as the surface term is long, plus one; and every reason of
    a returned path accounts for at least one code unit lost: the length of
    the root plus the number of reasons is at most the length of the
    surface term. *)
Theorem shrinking_table_bounds_the_depth
    (fuel : nat) (clock : Clock) (this : Deinflector.t) (term : jsstring)
    (definer : Definer) :
  shrinking (Deinflector.reasons this) ->
  (length term < fuel ->
   Deinflector.deinflect fuel clock this term definer <> Overflow) /\
  (forall paths p,
     Deinflector.deinflect fuel clock this term definer = Returns (Fulfilled paths) ->
     In p paths ->
     length (root p) + length (path_reasons p) <= length term).
Proof.
  intros Hshrink. split.
  - exact (shrinking_table_returns fuel clock this term definer Hshrink).
  - intros paths p H Hp. apply facade_inv in H as (node' & success & He & ->).
    destruct success; [| contradiction].
    destruct (paths_follow_derivations _ _ _ _ _ _ _ _ _ p He eq_refl Hp)
      as (names & last & Hd & Hroot & _ & Hrs).
    pose proof (shrinking_derivation _ _ _ _ _ Hshrink Hd) as Hlen.
    cbn [Deinflection.new Deinflection.term Deinflection.reason] in Hlen, Hrs.
    rewrite Hroot, Hrs. cbn. rewrite app_nil_r, length_rev.
    pose proof (recorded_length names). lia.
Qed.

Lemma shrinking_table_bounds_the_depth_witness :
  Deinflector.deinflect 4 in_order (Deinflector.setReasons Deinflector.new Shrinking.table)
    Scenario.abc Scenario.nothing
  <> Overflow.
Proof.
  apply shrinking_table_bounds_the_depth.
  - intros reason variants variant Hr Hv. simpl in Hr.
    destruct Hr as [Hr | []]. injection Hr as <- <-.
    destruct Hv as [<- | []]. simpl. lia.
  - simpl. lia.
Defined.

(** * Properties of [core.js] *)

(** ** stringReverse *)

Lemma pairwise_ind (P : jsstring -> Prop) :
  P [] ->
  (forall c, P [c]) ->
  (forall c d rest, P rest -> P (d :: rest) -> P (c :: d :: rest)) ->
  forall s, P s.
Proof.
  intros Hnil Hone Hstep s.
  enough (H : P s /\ forall c, P (c :: s)) by apply H.
  induction s as [| d rest [IH1 IH2]].
  - split; [exact Hnil | exact Hone].
  - split; [apply IH2 |]. intros c. apply Hstep; [exact IH1 | apply IH2].
Qed.

Lemma spread_two (c d : N) (rest : jsstring) :
  spread (c :: d :: rest)
  = if is_high_surrogate c && is_low_surrogate d
    then [c; d] :: spread rest
    else [c] :: spread (d :: rest).
Proof. reflexivity. Qed.

Lemma concat_spread (s : jsstring) : concat (spread s) = s.
Proof.
  induction s as [| c | c d rest IH1 IH2] using pairwise_ind; try reflexivity.
  rewrite spread_two.
  destruct (is_high_surrogate c && is_low_surrogate d); cbn [concat app].
  - now rewrite IH1.
  - now rewrite IH2.
Qed.

Lemma proper_nonempty (cps : list jsstring) :
  Forall proper_code_point cps -> concat cps = [] -> cps = [].
Proof.
  intros H. destruct H as [| cp cps Hcp _]; [reflexivity |].
  destruct Hcp as [(c & -> & _) | (c & d & -> & _)]; discriminate.
Qed.

Lemma spread_concat (cps : list jsstring) :
  Forall proper_code_point cps -> spread (concat cps) = cps.
Proof.
  induction 1 as [| cp cps Hcp Hall IH]; [reflexivity |].
  destruct Hcp as [(c & -> & Hh & _) | (c & d & -> & Hh & Hl)]; cbn [concat app].
  - destruct (concat cps) as [| d rest] eqn:E.
    + rewrite (proper_nonempty cps Hall E). reflexivity.
    + rewrite spread_two, Hh. cbn [andb]. now rewrite IH.
  - rewrite spread_two, Hh, Hl. cbn [andb]. now rewrite IH.
Qed.

Lemma spread_well_formed (s : jsstring) :
  well_formed_utf16 s = true -> Forall proper_code_point (spread s).
Proof.
  induction s as [| c | c d rest IH1 IH2] using pairwise_ind; intros H.
  - constructor.
  - cbn in H. destruct (is_high_surrogate c) eqn:Hh; [discriminate |].
    apply andb_true_iff in H as [Hl _]. apply negb_true_iff in Hl.
    constructor; [| constructor]. left. now exists c.
  - cbn [well_formed_utf16] in H. rewrite spread_two.
    destruct (is_high_surrogate c) eqn:Hh.
    + apply andb_true_iff in H as [Hl Hrest]. rewrite Hl. cbn [andb].
      constructor; [| exact (IH1 Hrest)]. right. now exists c, d.
    + apply andb_true_iff in H as [Hl Hrest]. apply negb_true_iff in Hl. cbn [andb].
      constructor; [| exact (IH2 Hrest)]. left. now exists c.
Qed.

Lemma concat_well_formed (cps : list jsstring) :
  Forall proper_code_point cps -> well_formed_utf16 (concat cps) = true.
Proof.
  induction 1 as [| cp cps Hcp _ IH]; [reflexivity |].
  destruct Hcp as [(c & -> & Hh & Hl) | (c & d & -> & Hh & Hl)];
    cbn [concat app well_formed_utf16]; rewrite Hh.
  - now rewrite Hl, IH.
  - now rewrite Hl, IH.
Qed.

(** X11. [stringReverse] moves code units and neither drops nor repeats
    one: the result is a permutation of the string. *)
Theorem stringReverse_permutes (s : jsstring) : Permutation (stringReverse s) s.
Proof.
  unfold stringReverse. rewrite <- (concat_spread s) at 2.
  generalize (spread s). intros cps.
  induction cps as [| cp cps IH]; [apply Permutation_refl |].
  cbn [rev concat]. rewrite concat_app. cbn [concat]. rewrite app_nil_r.
  eapply perm_trans; [apply Permutation_app_comm |].
  now apply Permutation_app_head.
Qed.

(** X12. On a string in which every surrogate is half of a pair,
    [stringReverse] keeps the pairs in their order, high surrogate first:
    the result is again such a string, its code points are those of the
    string in reverse, and reversing twice gives the string back. *)
Theorem stringReverse_involutive (s : jsstring) :
  well_formed_utf16 s = true ->
  well_formed_utf16 (stringReverse s) = true /\
  spread (stringReverse s) = rev (spread s) /\
  stringReverse (stringReverse s) = s.
Proof.
  intros H. pose proof (spread_well_formed s H) as Hproper.
  assert (Hrev : Forall proper_code_point (rev (spread s))).
  { apply Forall_forall. intros cp Hin. apply in_rev in Hin.
    rewrite Forall_forall in Hproper. now apply Hproper. }
  unfold stringReverse. split; [| split].
  - now apply concat_well_formed.
  - now apply spread_concat.
  - rewrite (spread_concat _ Hrev), rev_involutive. apply concat_spread.
Qed.

Lemma stringReverse_involutive_witness :
  well_formed_utf16 (stringReverse [0x61; 0xD83D; 0xDE00; 0x62]%N) = true /\
  spread (stringReverse [0x61; 0xD83D; 0xDE00; 0x62]%N)
  = rev (spread [0x61; 0xD83D; 0xDE00; 0x62]%N) /\
  stringReverse (stringReverse [0x61; 0xD83D; 0xDE00; 0x62]%N)
  = [0x61; 0xD83D; 0xDE00; 0x62]%N.
Proof.
  apply stringReverse_involutive. reflexivity.
Defined.

(** A pair stays a pair; two lone surrogates can become one. *)
Example stringReverse_pair :
  stringReverse [0x61; 0xD83D; 0xDE00; 0x62]%N = [0x62; 0xD83D; 0xDE00; 0x61]%N.
Proof. reflexivity. Qed.

Example stringReverse_lone_surrogates :
  stringReverse [0xDE00; 0xD83D]%N = [0xD83D; 0xDE00]%N /\
  stringReverse (stringReverse [0xDE00; 0xD83D]%N) = [0xD83D; 0xDE00]%N.
Proof. split; reflexivity. Qed.

Lemma spread_no_surrogate (s : jsstring) :
  Forall (fun c => is_surrogate c = false) s ->
  spread s = map (fun c => [c]) s.
Proof.
  induction s as [| c | c d rest IH1 IH2] using pairwise_ind; intros H;
    try reflexivity.
  rewrite spread_two. inversion H as [| ? ? Hc Hrest]; subst.
  unfold is_surrogate in Hc. apply orb_false_iff in Hc as [Hh _].
  rewrite Hh. cbn [andb map]. now rewrite (IH2 Hrest).
Qed.

(** X13. On a string without surrogates [stringReverse] is the reversal of
    the code units. *)
Theorem stringReverse_without_surrogates (s : jsstring) :
  Forall (fun c => is_surrogate c = false) s ->
  stringReverse s = rev s.
Proof.
  intros H. unfold stringReverse. rewrite (spread_no_surrogate s H).
  clear H. induction s as [| c s IH]; [reflexivity |].
  cbn [map rev]. rewrite concat_app, IH. reflexivity.
Qed.

Lemma stringReverse_without_surrogates_witness :
  stringReverse Scenario.tabeta = rev Scenario.tabeta.
Proof.
  apply stringReverse_without_surrogates.
  repeat constructor.
Defined.

(** ** escapeRegExp *)

Lemma unescape_escapeRegExp (s : jsstring) : unescape (escapeRegExp s) = s.
Proof.
  induction s as [| c s IH]; [reflexivity |].
  unfold escapeRegExp in *. cbn [flat_map].
  destruct (regexp_special c) eqn:Hs.
  - cbn [app unescape]. rewrite N.eqb_refl. now rewrite IH.
  - cbn [app unescape].
    destruct (N.eqb_spec c 0x5C) as [-> | _]; [discriminate Hs |].
    now rewrite IH.
Qed.

Lemma escapeRegExp_length (s : jsstring) :
  length (escapeRegExp s) = length s + length (filter regexp_special s).
Proof.
  induction s as [| c s IH]; [reflexivity |].
  unfold escapeRegExp in *. cbn [flat_map filter]. rewrite length_app, IH.
  destruct (regexp_special c); simpl; lia.
Qed.

(** X14. [escapeRegExp] puts one backslash before each of the fifteen
    characters [. * + - ? ^ $ { } ( ) | [ ] \] and changes nothing else: it
    loses nothing (two strings with the same escaped form are equal), it
    adds one code unit for each such character, and it returns a string
    unchanged exactly when the string has none of them. *)
Theorem escapeRegExp_is_faithful :
  (forall s1 s2, escapeRegExp s1 = escapeRegExp s2 -> s1 = s2) /\
  (forall s, length (escapeRegExp s) = length s + length (filter regexp_special s)) /\
  (forall s, escapeRegExp s = s <-> Forall (fun c => regexp_special c = false) s).
Proof.
  split; [| split].
  - intros s1 s2 H. rewrite <- (unescape_escapeRegExp s1), <- (unescape_escapeRegExp s2).
    now rewrite H.
  - exact escapeRegExp_length.
  - intros s. split.
    + intros H. pose proof (escapeRegExp_length s) as Hlen. rewrite H in Hlen.
      assert (Hnone : filter regexp_special s = [])
        by (destruct (filter regexp_special s); [reflexivity | simpl in Hlen; lia]).
      apply Forall_forall. intros c Hc.
      destruct (regexp_special c) eqn:E; [| reflexivity].
      assert (Hin : In c (filter regexp_special s)) by (apply filter_In; now split).
      rewrite Hnone in Hin. contradiction.
    + induction 1 as [| c s Hc _ IH]; [reflexivity |].
      unfold escapeRegExp in *. cbn [flat_map]. rewrite Hc. cbn [app]. now rewrite IH.
Qed.

Example escapeRegExp_example :
  escapeRegExp (str "a.b*[c]\") = str "a\.b\*\[c\]\\".
Proof. reflexivity. Qed.

(** ** generateId *)

Lemma generateId_flat_map (array : list N) :
  generateId array = flat_map (fun value => padStart0 (byte_toString16 value) 2) array.
Proof.
  unfold generateId.
  enough (H : forall acc,
             fold_left (fun id value => id ++ padStart0 (byte_toString16 value) 2) array acc
             = acc ++ flat_map (fun value => padStart0 (byte_toString16 value) 2) array)
    by apply (H []).
  induction array as [| value array IH]; intros acc; cbn [fold_left flat_map].
  - now rewrite app_nil_r.
  - rewrite IH. now rewrite app_assoc.
Qed.

Lemma byte_values_complete (value : N) : (value < 256)%N -> In value byte_values.
Proof.
  intros H. unfold byte_values. apply in_map_iff. exists (N.to_nat value).
  split; [apply N2Nat.id |]. apply in_seq. lia.
Qed.

Lemma byte_two_digits (value : N) :
  (value < 256)%N ->
  padStart0 (byte_toString16 value) 2
  = [hex_digit (value / 16)%N; hex_digit (value mod 16)%N]
  /\ is_lower_hex (hex_digit (value / 16)%N) = true
  /\ is_lower_hex (hex_digit (value mod 16)%N) = true.
Proof.
  intros H. apply byte_values_complete in H. revert value H.
  apply Forall_forall.
  assert (Hcheck :
    forallb
      (fun value =>
         eqb_js (padStart0 (byte_toString16 value) 2)
                [hex_digit (value / 16)%N; hex_digit (value mod 16)%N]
         && is_lower_hex (hex_digit (value / 16)%N)
         && is_lower_hex (hex_digit (value mod 16)%N))
      byte_values = true) by (vm_compute; reflexivity).
  rewrite forallb_forall in Hcheck. apply Forall_forall. intros value Hin.
  specialize (Hcheck value Hin).
  apply andb_true_iff in Hcheck as [Hcheck H3].
  apply andb_true_iff in Hcheck as [H1 H2].
  apply eqb_js_true in H1. now repeat split.
Qed.

Lemma hex_digits_decide_the_byte (a b : N) :
  (a < 256)%N -> (b < 256)%N ->
  hex_digit (a / 16)%N = hex_digit (b / 16)%N ->
  hex_digit (a mod 16)%N = hex_digit (b mod 16)%N ->
  a = b.
Proof.
  intros Ha Hb Hhigh Hlow.
  assert (Hinj : forall x y, (x < 16)%N -> (y < 16)%N -> hex_digit x = hex_digit y -> x = y).
  { intros x y Hx Hy. unfold hex_digit.
    destruct (N.ltb_spec x 10), (N.ltb_spec y 10); lia. }
  assert (Hq : (a / 16 = b / 16)%N).
  { apply Hinj; try assumption; apply N.Div0.div_lt_upper_bound; lia. }
  assert (Hr : (a mod 16 = b mod 16)%N).
  { apply Hinj; try assumption; apply N.mod_lt; lia. }
  rewrite (N.div_mod a 16), (N.div_mod b 16) by lia. now rewrite Hq, Hr.
Qed.

(** X15. [generateId] writes each byte as two lower-case hexadecimal
    digits, a value below 16 with a leading zero: the id is twice as long
    as the byte array and holds digits [0-9a-f] only. *)
Theorem generateId_two_digits_per_byte (array : list N) :
  bytes array ->
  length (generateId array) = 2 * length array /\
  Forall (fun c => is_lower_hex c = true) (generateId array).
Proof.
  rewrite generateId_flat_map. unfold bytes.
  induction 1 as [| value array Hv _ [IHlen IHhex]]; [split; [reflexivity | constructor] |].
  cbn [flat_map]. destruct (byte_two_digits value Hv) as (-> & Hd1 & Hd2).
  split.
  - cbn [app length]. rewrite IHlen. simpl. lia.
  - cbn [app]. repeat constructor; assumption.
Qed.

Lemma generateId_two_digits_per_byte_witness :
  length (generateId [0; 10; 255]%N) = 2 * length [0; 10; 255]%N /\
  Forall (fun c => is_lower_hex c = true) (generateId [0; 10; 255]%N).
Proof.
  apply generateId_two_digits_per_byte.
  repeat constructor.
Defined.

Example generateId_example : generateId [0; 10; 255]%N = str "000aff".
Proof. reflexivity. Qed.

(** X16. Two byte arrays with the same id are equal: ids collide only
    when the random bytes do. *)
Theorem generateId_injective (a b : list N) :
  bytes a -> bytes b -> generateId a = generateId b -> a = b.
Proof.
  rewrite !generateId_flat_map. unfold bytes. intros Ha. revert b.
  induction Ha as [| x a Hx _ IH]; intros b Hb H.
  - destruct Hb as [| y b Hy _]; [reflexivity |].
    cbn [flat_map] in H. destruct (byte_two_digits y Hy) as (Hy2 & _).
    rewrite Hy2 in H. discriminate.
  - destruct Hb as [| y b Hy Hb].
    + cbn [flat_map] in H. destruct (byte_two_digits x Hx) as (Hx2 & _).
      rewrite Hx2 in H. discriminate.
    + cbn [flat_map] in H.
      destruct (byte_two_digits x Hx) as (Hx2 & _).
      destruct (byte_two_digits y Hy) as (Hy2 & _).
      rewrite Hx2, Hy2 in H. cbn [app] in H. injection H as Hhigh Hlow Hrest.
      f_equal; [exact (hex_digits_decide_the_byte x y Hx Hy Hhigh Hlow) |].
      exact (IH b Hb Hrest).
Qed.

Lemma generateId_injective_witness : [0; 10; 255]%N = [0; 10; 255]%N.
Proof.
  apply generateId_injective; try reflexivity; repeat constructor.
Defined.

(** ** EventDispatcher *)

Lemma eqb_js_refl (a : jsstring) : eqb_js a a = true.
Proof. now apply eqb_js_true. Qed.

Lemma eqb_js_false (a b : jsstring) : a <> b -> eqb_js a b = false.
Proof.
  intros H. destruct (eqb_js a b) eqn:E; [| reflexivity].
  apply eqb_js_true in E. contradiction.
Qed.

Lemma get_set_same (m : EventDispatcher.t) (e : jsstring) (v : list EventDispatcher.Callback) :
  EventDispatcher.get (EventDispatcher.set m e v) e = Some v.
Proof.
  induction m as [| [k old] m IH]; cbn.
  - now rewrite eqb_js_refl.
  - destruct (eqb_js k e) eqn:E; cbn; rewrite E; [reflexivity | exact IH].
Qed.

Lemma get_set_other (m : EventDispatcher.t) (e e' : jsstring)
    (v : list EventDispatcher.Callback) :
  e <> e' ->
  EventDispatcher.get (EventDispatcher.set m e v) e' = EventDispatcher.get m e'.
Proof.
  intros Hne. induction m as [| [k old] m IH]; cbn.
  - now rewrite (eqb_js_false e e' Hne).
  - destruct (eqb_js k e) eqn:E; cbn.
    + apply eqb_js_true in E. subst k. now rewrite (eqb_js_false e e' Hne).
    + now rewrite IH.
Qed.

Lemma get_delete_other (m : EventDispatcher.t) (e e' : jsstring) :
  e <> e' ->
  EventDispatcher.get (EventDispatcher.delete m e) e' = EventDispatcher.get m e'.
Proof.
  intros Hne. induction m as [| [k old] m IH]; cbn; [reflexivity |].
  destruct (eqb_js k e) eqn:E; cbn.
  - apply eqb_js_true in E. subst k. now rewrite (eqb_js_false e e' Hne).
  - now rewrite IH.
Qed.

Lemma get_None (m : EventDispatcher.t) (e : jsstring) :
  EventDispatcher.get m e = None <-> ~ In e (map fst m).
Proof.
  induction m as [| [k v] m IH]; cbn; [tauto |].
  destruct (eqb_js k e) eqn:E.
  - apply eqb_js_true in E. split; [discriminate | intros H; exfalso; apply H; now left].
  - rewrite IH. split.
    + intros H [Hk | Hin]; [subst k; now rewrite eqb_js_refl in E | contradiction].
    + intros H Hin. apply H. now right.
Qed.

Lemma get_delete_same (m : EventDispatcher.t) (e : jsstring) :
  NoDup (map fst m) ->
  EventDispatcher.get (EventDispatcher.delete m e) e = None.
Proof.
  induction m as [| [k v] m IH]; cbn; intros Hnd; [reflexivity |].
  inversion Hnd as [| ? ? Hnotin Hrest]; subst.
  destruct (eqb_js k e) eqn:E; cbn.
  - apply eqb_js_true in E. subst k. now apply get_None.
  - rewrite E. now apply IH.
Qed.

Lemma keys_set (m : EventDispatcher.t) (e : jsstring) (v : list EventDispatcher.Callback) :
  map fst (EventDispatcher.set m e v)
  = match EventDispatcher.get m e with
    | Some _ => map fst m
    | None => map fst m ++ [e]
    end.
Proof.
  induction m as [| [k old] m IH]; cbn; [reflexivity |].
  destruct (eqb_js k e) eqn:E; cbn; [reflexivity |].
  rewrite IH. now destruct (EventDispatcher.get m e).
Qed.

Lemma keys_delete (m : EventDispatcher.t) (e : jsstring) :
  NoDup (map fst m) -> NoDup (map fst (EventDispatcher.delete m e)) /\
  forall k, In k (map fst (EventDispatcher.delete m e)) -> In k (map fst m).
Proof.
  induction m as [| [k v] m IH]; cbn; intros Hnd; [split; [constructor | tauto] |].
  inversion Hnd as [| ? ? Hnotin Hrest]; subst.
  destruct (eqb_js k e) eqn:E; cbn.
  - split; [exact Hrest | intros; now right].
  - destruct (IH Hrest) as [IH1 IH2]. split.
    + constructor; [| exact IH1]. intros Hin. apply Hnotin. now apply IH2.
    + intros k' [-> | Hin]; [now left | right; now apply IH2].
Qed.

Lemma entries_set (m : EventDispatcher.t) (e : jsstring) (v : list EventDispatcher.Callback) :
  v <> [] ->
  Forall (fun entry => snd entry <> []) m ->
  Forall (fun entry => snd entry <> []) (EventDispatcher.set m e v).
Proof.
  intros Hv. induction 1 as [| [k old] m Hk Hrest IH]; cbn.
  - constructor; [exact Hv | constructor].
  - destruct (eqb_js k e); constructor; assumption.
Qed.

Lemma entries_delete (m : EventDispatcher.t) (e : jsstring) :
  Forall (fun entry => snd entry <> []) m ->
  Forall (fun entry => snd entry <> []) (EventDispatcher.delete m e).
Proof.
  induction 1 as [| [k old] m Hk Hrest IH]; cbn; [constructor |].
  destruct (eqb_js k e); [exact Hrest | constructor; assumption].
Qed.

Lemma tidy_set (m : EventDispatcher.t) (e : jsstring) (v : list EventDispatcher.Callback) :
  v <> [] -> tidy m -> tidy (EventDispatcher.set m e v).
Proof.
  intros Hv [Hnd Hne]. split; [| now apply entries_set].
  rewrite keys_set. destruct (EventDispatcher.get m e) eqn:E; [exact Hnd |].
  apply get_None in E. apply NoDup_app; [exact Hnd | repeat constructor; tauto |].
  intros k Hk [<- | []]. contradiction.
Qed.

Lemma tidy_delete (m : EventDispatcher.t) (e : jsstring) :
  tidy m -> tidy (EventDispatcher.delete m e).
Proof.
  intros [Hnd Hne]. split; [now apply keys_delete | now apply entries_delete].
Qed.

Lemma tidy_step (m : EventDispatcher.t) (op : EventDispatcher.Op) :
  tidy m -> tidy (EventDispatcher.step m op).
Proof.
  intros Ht. destruct op as [e cb | e cb]; cbn.
  - unfold EventDispatcher.on. destruct (EventDispatcher.get m e);
      apply tidy_set; try assumption; [now destruct l | discriminate].
  - unfold EventDispatcher.off. destruct (EventDispatcher.get m e); [| exact Ht].
    destruct (EventDispatcher.splice_first cb l) as [l' |]; [| exact Ht]. cbn.
    destruct (Nat.eqb_spec (length l') 0) as [| Hlen]; [now apply tidy_delete |].
    apply tidy_set; [| exact Ht]. intros ->. now apply Hlen.
Qed.

Lemma tidy_after (ops : list EventDispatcher.Op) : tidy (EventDispatcher.after ops).
Proof.
  unfold EventDispatcher.after.
  assert (H : tidy EventDispatcher.new) by (split; constructor).
  revert H. generalize EventDispatcher.new.
  induction ops as [| op ops IH]; intros m Hm; [exact Hm |].
  cbn [fold_left]. apply IH. now apply tidy_step.
Qed.

Lemma tidy_get (m : EventDispatcher.t) (e : jsstring) (cs : list EventDispatcher.Callback) :
  tidy m -> EventDispatcher.get m e = Some cs -> cs <> [].
Proof.
  intros [_ Hne]. induction Hne as [| [k v] m Hk _ IH]; cbn; [discriminate |].
  destruct (eqb_js k e); [| exact IH]. intros H. injection H as <-. exact Hk.
Qed.

(** X17. Whatever calls of [on] and [off] were made on a new dispatcher,
    no event is left with an empty array of callbacks (and no event is
    twice in the map), so [trigger] returns [true] exactly for the events
    for which [hasListeners] does. *)
Theorem trigger_agrees_with_hasListeners (ops : list EventDispatcher.Op) (e : jsstring) :
  tidy (EventDispatcher.after ops) /\
  fst (EventDispatcher.trigger (EventDispatcher.after ops) e)
  = EventDispatcher.hasListeners (EventDispatcher.after ops) e.
Proof.
  pose proof (tidy_after ops) as Ht. split; [exact Ht |].
  unfold EventDispatcher.trigger, EventDispatcher.hasListeners.
  destruct (EventDispatcher.get (EventDispatcher.after ops) e) as [cs |] eqn:E;
    [| reflexivity].
  pose proof (tidy_get _ _ _ Ht E). destruct cs; [congruence | reflexivity].
Qed.

Lemma set_same (m : EventDispatcher.t) (e : jsstring) (v : list EventDispatcher.Callback) :
  EventDispatcher.get m e = Some v -> EventDispatcher.set m e v = m.
Proof.
  induction m as [| [k old] m IH]; cbn; [discriminate |].
  destruct (eqb_js k e) eqn:E.
  - intros H. now injection H as ->.
  - intros H. now rewrite (IH H).
Qed.

Lemma set_set (m : EventDispatcher.t) (e : jsstring) (v v' : list EventDispatcher.Callback) :
  EventDispatcher.set (EventDispatcher.set m e v') e v = EventDispatcher.set m e v.
Proof.
  induction m as [| [k old] m IH]; cbn.
  - now rewrite eqb_js_refl.
  - destruct (eqb_js k e) eqn:E; cbn; rewrite E; [reflexivity | now rewrite IH].
Qed.

Lemma delete_set_fresh (m : EventDispatcher.t) (e : jsstring)
    (v : list EventDispatcher.Callback) :
  EventDispatcher.get m e = None ->
  EventDispatcher.delete (EventDispatcher.set m e v) e = m.
Proof.
  induction m as [| [k old] m IH]; cbn.
  - now rewrite eqb_js_refl.
  - destruct (eqb_js k e) eqn:E; [discriminate |].
    intros H. cbn. rewrite E. now rewrite (IH H).
Qed.

Lemma splice_first_appended (cb : EventDispatcher.Callback)
    (cs : list EventDispatcher.Callback) :
  ~ In cb cs -> EventDispatcher.splice_first cb (cs ++ [cb]) = Some cs.
Proof.
  induction cs as [| c cs IH]; cbn; intros Hnotin.
  - now rewrite Nat.eqb_refl.
  - destruct (Nat.eqb_spec c cb) as [-> | _]; [exfalso; apply Hnotin; now left |].
    rewrite IH; [reflexivity |]. intros Hin. apply Hnotin. now right.
Qed.

Lemma splice_first_spec (cb : EventDispatcher.Callback) (cs : list EventDispatcher.Callback) :
  match EventDispatcher.splice_first cb cs with
  | Some cs' =>
      exists before after,
        cs = before ++ cb :: after /\ cs' = before ++ after /\ ~ In cb before
  | None => ~ In cb cs
  end.
Proof.
  induction cs as [| c cs IH]; cbn; [tauto |].
  destruct (Nat.eqb_spec c cb) as [-> | Hne].
  - exists [], cs. repeat split. tauto.
  - destruct (EventDispatcher.splice_first cb cs) as [cs' |].
    + destruct IH as (before & after & -> & -> & Hnotin).
      exists (c :: before), after. repeat split.
      intros [Heq | Hin]; [contradiction | contradiction].
    + intros [Heq | Hin]; [contradiction | contradiction].
Qed.

(** X18. Registering a callback that does not yet listen to an event and
    removing it again gives the dispatcher back as it was, and [off]
    reports the removal. *)
Theorem on_then_off_restores (ops : list EventDispatcher.Op) (e : jsstring)
    (cb : EventDispatcher.Callback) :
  ~ In cb (EventDispatcher.listeners (EventDispatcher.after ops) e) ->
  EventDispatcher.off (EventDispatcher.on (EventDispatcher.after ops) e cb) e cb
  = (EventDispatcher.after ops, true).
Proof.
  pose proof (tidy_after ops) as Ht. generalize dependent (EventDispatcher.after ops).
  intros m Ht Hnotin.
  unfold EventDispatcher.listeners in Hnotin.
  unfold EventDispatcher.on, EventDispatcher.off.
  destruct (EventDispatcher.get m e) as [cs |] eqn:E.
  - rewrite get_set_same, (splice_first_appended cb cs Hnotin).
    pose proof (tidy_get _ _ _ Ht E) as Hne.
    destruct (Nat.eqb_spec (length cs) 0) as [Hlen | _];
      [destruct cs; [congruence | discriminate] |].
    now rewrite set_set, (set_same m e cs E).
  - rewrite get_set_same. cbn. rewrite Nat.eqb_refl. cbn.
    now rewrite (delete_set_fresh m e [cb] E).
Qed.

Lemma on_then_off_restores_witness :
  EventDispatcher.off
    (EventDispatcher.on
       (EventDispatcher.after [EventDispatcher.On (str "log") 1]) (str "log") 2)
    (str "log") 2
  = (EventDispatcher.after [EventDispatcher.On (str "log") 1], true).
Proof.
  apply on_then_off_restores. vm_compute. intros [H | []]. discriminate.
Defined.

(** X19. [off] removes one registration of the callback, the earliest one,
    and reports [true]; the other callbacks of the event keep their order
    and the other events are untouched.  When the callback does not listen
    to the event, [off] reports [false] and changes nothing. *)
Theorem off_removes_the_first_registration (ops : list EventDispatcher.Op)
    (e : jsstring) (cb : EventDispatcher.Callback) :
  let m := EventDispatcher.after ops in
  let m' := fst (EventDispatcher.off m e cb) in
  (forall e', e' <> e -> EventDispatcher.listeners m' e' = EventDispatcher.listeners m e') /\
  if snd (EventDispatcher.off m e cb)
  then exists before after,
         EventDispatcher.listeners m e = before ++ cb :: after /\
         ~ In cb before /\
         EventDispatcher.listeners m' e = before ++ after
  else ~ In cb (EventDispatcher.listeners m e) /\ m' = m.
Proof.
  pose proof (tidy_after ops) as Ht. generalize dependent (EventDispatcher.after ops).
  intros m Ht. cbn zeta.
  unfold EventDispatcher.off, EventDispatcher.listeners.
  destruct (EventDispatcher.get m e) as [cs |] eqn:E; [| cbn; repeat split; tauto].
  pose proof (splice_first_spec cb cs) as Hspec.
  destruct (EventDispatcher.splice_first cb cs) as [cs' |];
    [| cbn; repeat split; try tauto; rewrite ?E; exact Hspec].
  destruct Hspec as (before & after & -> & -> & Hnotin). cbn [fst snd].
  split.
  - intros e' Hne.
    destruct (length (before ++ after) =? 0);
      [rewrite get_delete_other | rewrite get_set_other]; congruence.
  - exists before, after. repeat split; [exact Hnotin |].
    destruct (Nat.eqb_spec (length (before ++ after)) 0) as [Hlen | _].
    + rewrite (get_delete_same m e (proj1 Ht)).
      destruct (before ++ after); [reflexivity | discriminate].
    + now rewrite get_set_same.
Qed.

(** X20. [on] appends: after [on(eventName, callback)], [trigger] of the
    event calls the callbacks that listened before, in their order, and
    then the new one (once more if it listened already), [hasListeners] is
    [true] for the event, and the other events are untouched. *)
Theorem on_appends_the_callback (this : EventDispatcher.t) (e : jsstring)
    (cb : EventDispatcher.Callback) :
  snd (EventDispatcher.trigger (EventDispatcher.on this e cb) e)
  = snd (EventDispatcher.trigger this e) ++ [cb] /\
  EventDispatcher.hasListeners (EventDispatcher.on this e cb) e = true /\
  forall e', e' <> e ->
    EventDispatcher.trigger (EventDispatcher.on this e cb) e'
    = EventDispatcher.trigger this e'.
Proof.
  unfold EventDispatcher.trigger, EventDispatcher.hasListeners, EventDispatcher.on.
  destruct (EventDispatcher.get this e) as [cs |] eqn:E.
  - rewrite get_set_same. cbn [fst snd]. split; [reflexivity |]. split.
    + rewrite length_app. apply Nat.ltb_lt. simpl. lia.
    + intros e' Hne. rewrite get_set_other by congruence. reflexivity.
  - rewrite get_set_same. cbn. split; [reflexivity |]. split; [reflexivity |].
    intros e' Hne. rewrite get_set_other by congruence. reflexivity.
Qed.

(** ** DynamicProperty *)

Lemma strict_equal_true (a b : JsValue) : strict_equal a b = true <-> a = b.
Proof.
  unfold strict_equal. destruct (JsValue_eq_dec a b); split; congruence.
Qed.

Lemma updateValue_spec (this : DynamicProperty.t) :
  let this' := fst (DynamicProperty.updateValue this) in
  DynamicProperty.value this' = DynamicProperty.effective this /\
  DynamicProperty.overrides this' = DynamicProperty.overrides this /\
  DynamicProperty.defaultValue this' = DynamicProperty.defaultValue this /\
  DynamicProperty.events this' = DynamicProperty.events this.
Proof.
  unfold DynamicProperty.updateValue, DynamicProperty.effective. cbn zeta.
  destruct (strict_equal _ _) eqn:E; cbn [fst]; [| repeat split].
  apply strict_equal_true in E. repeat split. exact E.
Qed.

Lemma insertion_index_bound (p : Z) (os : list DynamicProperty.Override) :
  DynamicProperty.insertion_index p os <= length os.
Proof.
  induction os as [| o os IH]; cbn; [lia |].
  destruct (p >? DynamicProperty.o_priority o)%Z; cbn; lia.
Qed.

Lemma insert_by_priority (p : Z) (new : DynamicProperty.Override)
    (os : list DynamicProperty.Override) :
  DynamicProperty.o_priority new = p ->
  DynamicProperty.by_priority os ->
  DynamicProperty.by_priority
    (DynamicProperty.splice_insert (DynamicProperty.insertion_index p os) new os).
Proof.
  intros Hp. unfold DynamicProperty.splice_insert.
  induction os as [| o os IH]; cbn [DynamicProperty.insertion_index]; intros Hs.
  - cbn. split; [constructor | exact I].
  - destruct Hs as [Hle Hs].
    destruct (Z.gtb_spec p (DynamicProperty.o_priority o)) as [Hgt | Hngt].
    + cbn. split; [| split; assumption].
      constructor; [lia |]. eapply Forall_impl; [| exact Hle]. cbn. intros; lia.
    + cbn [firstn skipn app DynamicProperty.by_priority]. split; [| exact (IH Hs)].
      rewrite <- (firstn_skipn (DynamicProperty.insertion_index p os) os) in Hle.
      apply Forall_app in Hle as [H1 H2].
      apply Forall_app. split; [exact H1 |]. constructor; [lia | exact H2].
Qed.

Lemma insert_keeps_head (p : Z) (new : DynamicProperty.Override)
    (os : list DynamicProperty.Override) (d : DynamicProperty.Override) :
  DynamicProperty.insertion_index p os <> 0 ->
  hd d (DynamicProperty.splice_insert (DynamicProperty.insertion_index p os) new os)
  = hd d os /\ os <> [].
Proof.
  destruct os as [| o os]; cbn; [congruence |].
  destruct (p >? DynamicProperty.o_priority o)%Z; [congruence |].
  intros _. split; [reflexivity | discriminate].
Qed.

Lemma effective_hd (this : DynamicProperty.t) :
  DynamicProperty.effective this
  = match DynamicProperty.overrides this with
    | o :: _ => DynamicProperty.o_value o
    | [] => DynamicProperty.defaultValue this
    end.
Proof. reflexivity. Qed.

Lemma splice_remove_In (A : Type) (i : nat) (l : list A) (x : A) :
  In x (DynamicProperty.splice_remove i l) -> In x l.
Proof.
  unfold DynamicProperty.splice_remove. revert i.
  induction l as [| a l IH]; intros i; [now destruct i |].
  destruct i as [| i]; cbn.
  - intros H. now right.
  - intros [-> | H]; [now left | right; exact (IH i H)].
Qed.

Lemma remove_by_priority (i : nat) (os : list DynamicProperty.Override) :
  DynamicProperty.by_priority os ->
  DynamicProperty.by_priority (DynamicProperty.splice_remove i os).
Proof.
  revert i. induction os as [| o os IH]; intros i Hs.
  - now destruct i.
  - destruct Hs as [Hle Hs]. destruct i as [| i].
    + exact Hs.
    + change (DynamicProperty.splice_remove (S i) (o :: os))
        with (o :: DynamicProperty.splice_remove i os).
      split; [| exact (IH i Hs)].
      apply Forall_forall. intros x Hx. apply splice_remove_In in Hx.
      rewrite Forall_forall in Hle. now apply Hle.
Qed.

Lemma step_consistent (this : DynamicProperty.t) (op : DynamicProperty.Op) :
  consistent this -> consistent (fst (DynamicProperty.step this op)).
Proof.
  intros [Hv Hs]. destruct op as [v | v p random | token | e cb]; cbn [DynamicProperty.step].
  - unfold DynamicProperty.set_defaultValue. cbn [DynamicProperty.overrides].
    destruct (Nat.eqb_spec (length (DynamicProperty.overrides this)) 0) as [Hlen | Hlen].
    + match goal with |- consistent (fst (DynamicProperty.updateValue ?x)) =>
        destruct (updateValue_spec x) as (H1 & H2 & H3 & _) end.
      split; [| cbn zeta in H2; rewrite H2; exact Hs].
      cbn zeta in H1, H2, H3. rewrite H1. unfold DynamicProperty.effective.
      now rewrite H2, H3.
    + split; [| exact Hs]. cbn. unfold DynamicProperty.effective in *. cbn.
      destruct (DynamicProperty.overrides this); [contradiction | exact Hv].
  - unfold DynamicProperty.setOverride.
    set (i := DynamicProperty.insertion_index p (DynamicProperty.overrides this)).
    set (new := {| DynamicProperty.o_value := v; DynamicProperty.o_priority := p;
                   DynamicProperty.o_token := generateId random |}).
    pose proof (insert_by_priority p new (DynamicProperty.overrides this) eq_refl Hs) as Hs'.
    fold i in Hs'.
    destruct (Nat.eqb_spec i 0) as [Hi | Hi].
    + match goal with |- context [DynamicProperty.updateValue ?x] =>
        destruct (updateValue_spec x) as (H1 & H2 & H3 & _);
        destruct (DynamicProperty.updateValue x) as [this'' calls] end.
      cbn [fst] in *. split; [| rewrite H2; exact Hs'].
      rewrite H1. unfold DynamicProperty.effective. now rewrite H2, H3.
    + cbn [fst]. split; [| exact Hs'].
      unfold DynamicProperty.effective in *. cbn.
      destruct (insert_keeps_head p new (DynamicProperty.overrides this) new Hi)
        as [Hhd Hne].
      fold i in Hhd.
      destruct (DynamicProperty.overrides this) as [| o os]; [congruence |].
      destruct (DynamicProperty.splice_insert i new (o :: os)) as [| o' os'] eqn:Ei.
      * unfold DynamicProperty.splice_insert in Ei.
        destruct (firstn i (o :: os)); discriminate.
      * cbn in Hhd. subst o'. exact Hv.
  - unfold DynamicProperty.clearOverride.
    destruct (DynamicProperty.token_index token (DynamicProperty.overrides this))
      as [i |] eqn:Ei; [| split; assumption].
    pose proof (remove_by_priority i _ Hs) as Hs'.
    destruct (Nat.eqb_spec i 0) as [Hi | Hi].
    + match goal with |- context [DynamicProperty.updateValue ?x] =>
        destruct (updateValue_spec x) as (H1 & H2 & H3 & _);
        destruct (DynamicProperty.updateValue x) as [this'' calls] end.
      cbn [fst] in *. split; [| rewrite H2; exact Hs'].
      rewrite H1. unfold DynamicProperty.effective. now rewrite H2, H3.
    + cbn [fst]. split; [| exact Hs'].
      unfold DynamicProperty.effective in *. cbn.
      destruct i as [| i]; [congruence |].
      destruct (DynamicProperty.overrides this) as [| o os]; [discriminate Ei |].
      exact Hv.
  - split; assumption.
Qed.

Lemma after_consistent (v : JsValue) (ops : list DynamicProperty.Op) :
  consistent (DynamicProperty.after v ops).
Proof.
  unfold DynamicProperty.after.
  assert (H : consistent (DynamicProperty.new v)) by (split; [reflexivity | exact I]).
  revert H. generalize (DynamicProperty.new v).
  induction ops as [| op ops IH]; intros this H; [exact H |].
  cbn [fold_left]. apply IH. now apply step_consistent.
Qed.

(** X21. Whatever calls were made on a [DynamicProperty], [value] is the
    value of the first override, or the default value when there is no
    override, and the overrides are held by non-increasing priority: the
    value is always that of an override of the highest priority. *)
Theorem value_is_the_highest_override (v : JsValue) (ops : list DynamicProperty.Op) :
  let this := DynamicProperty.after v ops in
  DynamicProperty.value this = DynamicProperty.effective this /\
  DynamicProperty.by_priority (DynamicProperty.overrides this) /\
  match DynamicProperty.overrides this with
  | [] => DynamicProperty.value this = DynamicProperty.defaultValue this
  | first :: rest =>
      DynamicProperty.value this = DynamicProperty.o_value first /\
      Forall (fun o => (DynamicProperty.o_priority o
                        <= DynamicProperty.o_priority first)%Z) rest
  end.
Proof.
  cbn zeta. destruct (after_consistent v ops) as [Hv Hs].
  split; [exact Hv |]. split; [exact Hs |].
  unfold DynamicProperty.effective in Hv.
  destruct (DynamicProperty.overrides (DynamicProperty.after v ops)) as [| first rest];
    [exact Hv |].
  split; [exact Hv | exact (proj1 Hs)].
Qed.

Lemma insert_closed_form (p : Z) (new : DynamicProperty.Override)
    (os : list DynamicProperty.Override) :
  DynamicProperty.by_priority os ->
  DynamicProperty.splice_insert (DynamicProperty.insertion_index p os) new os
  = filter (fun o => (p <=? DynamicProperty.o_priority o)%Z) os
    ++ new :: filter (fun o => (DynamicProperty.o_priority o <? p)%Z) os.
Proof.
  unfold DynamicProperty.splice_insert.
  induction os as [| o os IH]; intros Hs; [reflexivity |].
  destruct Hs as [Hle Hs]. cbn [DynamicProperty.insertion_index filter].
  destruct (Z.gtb_spec p (DynamicProperty.o_priority o)) as [Hgt | Hngt].
  - assert (Hall : forall x, In x (o :: os) -> (DynamicProperty.o_priority x < p)%Z).
    { rewrite Forall_forall in Hle. intros x [<- | Hx]; [lia |].
      specialize (Hle x Hx). lia. }
    assert (Hnone : filter (fun o0 => (p <=? DynamicProperty.o_priority o0)%Z) (o :: os) = []).
    { clear - Hall. induction (o :: os) as [| x l IHl]; [reflexivity |].
      cbn. destruct (Z.leb_spec p (DynamicProperty.o_priority x)) as [Hc | _].
      - specialize (Hall x (or_introl eq_refl)). lia.
      - apply IHl. intros y Hy. apply Hall. now right. }
    assert (Hevery : filter (fun o0 => (DynamicProperty.o_priority o0 <? p)%Z) (o :: os)
                     = o :: os).
    { clear - Hall. induction (o :: os) as [| x l IHl]; [reflexivity |].
      cbn. destruct (Z.ltb_spec (DynamicProperty.o_priority x) p) as [_ | Hc].
      - f_equal. apply IHl. intros y Hy. apply Hall. now right.
      - specialize (Hall x (or_introl eq_refl)). lia. }
    cbn [filter] in Hnone, Hevery. rewrite Hnone, Hevery. reflexivity.
  - destruct (Z.leb_spec p (DynamicProperty.o_priority o)) as [_ | Hc]; [| lia].
    destruct (Z.ltb_spec (DynamicProperty.o_priority o) p) as [Hc | _]; [lia |].
    cbn [firstn skipn app]. now rewrite (IH Hs).
Qed.

(** X22. [setOverride] puts the new override behind the overrides of a
    higher or equal priority and before those of a lower priority, so of
    two overrides of one priority the one added first comes first; the
    token it returns is the id made of the random bytes. *)
Theorem setOverride_places_by_priority
    (v0 : JsValue) (ops : list DynamicProperty.Op)
    (v : JsValue) (priority : Z) (random : list N) :
  let this := DynamicProperty.after v0 ops in
  let new := {| DynamicProperty.o_value := v; DynamicProperty.o_priority := priority;
                DynamicProperty.o_token := generateId random |} in
  DynamicProperty.overrides (fst (fst (DynamicProperty.setOverride this v priority random)))
  = filter (fun o => (priority <=? DynamicProperty.o_priority o)%Z)
           (DynamicProperty.overrides this)
    ++ new :: filter (fun o => (DynamicProperty.o_priority o <? priority)%Z)
                     (DynamicProperty.overrides this)
  /\ snd (fst (DynamicProperty.setOverride this v priority random)) = generateId random.
Proof.
  cbn zeta. destruct (after_consistent v0 ops) as [_ Hs].
  generalize dependent (DynamicProperty.after v0 ops). intros this Hs.
  unfold DynamicProperty.setOverride.
  rewrite <- (insert_closed_form priority _ _ Hs).
  destruct (DynamicProperty.insertion_index priority (DynamicProperty.overrides this) =? 0).
  - match goal with |- context [DynamicProperty.updateValue ?x] =>
      destruct (updateValue_spec x) as (_ & H2 & _);
      destruct (DynamicProperty.updateValue x) as [this'' calls] end.
    cbn [fst snd] in *. split; [exact H2 | reflexivity].
  - split; reflexivity.
Qed.

Lemma property_eq (a b : DynamicProperty.t) :
  DynamicProperty.events a = DynamicProperty.events b ->
  DynamicProperty.value a = DynamicProperty.value b ->
  DynamicProperty.defaultValue a = DynamicProperty.defaultValue b ->
  DynamicProperty.overrides a = DynamicProperty.overrides b ->
  a = b.
Proof.
  destruct a, b. cbn. intros -> -> -> ->. reflexivity.
Qed.

Lemma token_index_inserted (token : jsstring) (new : DynamicProperty.Override)
    (os : list DynamicProperty.Override) (i : nat) :
  DynamicProperty.o_token new = token ->
  Forall (fun o => DynamicProperty.o_token o <> token) os ->
  i <= length os ->
  DynamicProperty.token_index token (DynamicProperty.splice_insert i new os) = Some i /\
  DynamicProperty.splice_remove i (DynamicProperty.splice_insert i new os) = os.
Proof.
  intros Hnew Hfresh. unfold DynamicProperty.splice_insert, DynamicProperty.splice_remove.
  revert i. induction Hfresh as [| o os Ho _ IH]; intros i Hi.
  - destruct i; [| cbn in Hi; lia]. cbn. rewrite Hnew, eqb_js_refl. now split.
  - destruct i as [| i].
    + cbn. rewrite Hnew, eqb_js_refl. now split.
    + cbn in Hi. destruct (IH i ltac:(lia)) as [IH1 IH2].
      cbn [firstn skipn app DynamicProperty.token_index].
      rewrite (eqb_js_false _ _ Ho), IH1. split; [reflexivity |].
      cbn [firstn skipn app] in *. now rewrite IH2.
Qed.

(** X23. Setting an override with a token that no override has and
    clearing it with that token gives the property back as it was: the same
    overrides in the same order, the same value, default value and
    listeners; [clearOverride] reports [true]. *)
Theorem setOverride_then_clearOverride_restores
    (v0 : JsValue) (ops : list DynamicProperty.Op)
    (v : JsValue) (priority : Z) (random : list N) :
  let this := DynamicProperty.after v0 ops in
  Forall (fun o => DynamicProperty.o_token o <> generateId random)
         (DynamicProperty.overrides this) ->
  let '(this', token, _) := DynamicProperty.setOverride this v priority random in
  let '(this'', cleared, _) := DynamicProperty.clearOverride this' token in
  this'' = this /\ cleared = true.
Proof.
  cbn zeta. destruct (after_consistent v0 ops) as [Hv Hs].
  generalize dependent (DynamicProperty.after v0 ops). intros this Hv Hs Hfresh.
  unfold DynamicProperty.setOverride.
  set (i := DynamicProperty.insertion_index priority (DynamicProperty.overrides this)).
  set (new := {| DynamicProperty.o_value := v; DynamicProperty.o_priority := priority;
                 DynamicProperty.o_token := generateId random |}).
  destruct (token_index_inserted (generateId random) new (DynamicProperty.overrides this) i
              eq_refl Hfresh (insertion_index_bound _ _)) as [Hidx Hrem].
  assert (Hclear : forall this1,
            DynamicProperty.overrides this1
            = DynamicProperty.splice_insert i new (DynamicProperty.overrides this) ->
            DynamicProperty.defaultValue this1 = DynamicProperty.defaultValue this ->
            DynamicProperty.events this1 = DynamicProperty.events this ->
            (i = 0 \/ DynamicProperty.value this1 = DynamicProperty.value this) ->
            let '(this'', cleared, _) :=
              DynamicProperty.clearOverride this1 (generateId random) in
            this'' = this /\ cleared = true).
  { intros this1 Ho Hd He Hval. unfold DynamicProperty.clearOverride.
    rewrite Ho, Hidx, Hrem.
    destruct (Nat.eqb_spec i 0) as [Hi | Hi].
    - match goal with |- context [DynamicProperty.updateValue ?x] =>
        destruct (updateValue_spec x) as (H1 & H2 & H3 & H4);
        destruct (DynamicProperty.updateValue x) as [this'' calls] end.
      cbn [fst] in *. split; [| reflexivity].
      cbn [DynamicProperty.overrides DynamicProperty.defaultValue DynamicProperty.events]
        in H2, H3, H4.
      apply property_eq; [congruence | | congruence | exact H2].
      rewrite H1, Hv. unfold DynamicProperty.effective.
      cbn [DynamicProperty.overrides DynamicProperty.defaultValue]. now rewrite Hd.
    - split; [| reflexivity]. destruct Hval as [Hz | Hval]; [contradiction |].
      apply property_eq; cbn; assumption || reflexivity. }
  destruct (Nat.eqb_spec i 0) as [Hi | Hi].
  - match goal with |- context [DynamicProperty.updateValue ?x] =>
      destruct (updateValue_spec x) as (H1 & H2 & H3 & H4);
      destruct (DynamicProperty.updateValue x) as [this1 calls] end.
    cbn [fst] in *. apply Hclear; try assumption. now left.
  - apply Hclear; try reflexivity. now right.
Qed.

Lemma setOverride_then_clearOverride_restores_witness :
  let this :=
    DynamicProperty.after (JBool false)
      [DynamicProperty.SetOverride (JBool true) 1 [0; 1]%N] in
  let '(this', token, _) := DynamicProperty.setOverride this (JNumber 7) 5 [2; 3]%N in
  let '(this'', cleared, _) := DynamicProperty.clearOverride this' token in
  this'' = this /\ cleared = true.
Proof.
  apply (setOverride_then_clearOverride_restores (JBool false)
           [DynamicProperty.SetOverride (JBool true) 1 [0; 1]%N] (JNumber 7) 5 [2; 3]%N).
  repeat constructor. vm_compute. discriminate.
Defined.

(** X24. A call on a [DynamicProperty] calls the listeners of 'change'
    exactly when it changes [value]: then each of them is called once, in
    the order of registration, with the new value; a call that leaves
    [value] as it was (an override set or cleared below the first one, an
    equal value) calls none. *)
Theorem change_is_notified_when_value_changes
    (this : DynamicProperty.t) (op : DynamicProperty.Op) :
  let this' := fst (DynamicProperty.step this op) in
  snd (DynamicProperty.step this op)
  = if strict_equal (DynamicProperty.value this) (DynamicProperty.value this')
    then []
    else map (fun callback => (callback, DynamicProperty.value this'))
             (EventDispatcher.listeners (DynamicProperty.events this) (str "change")).
Proof.
  assert (Hsame : forall x, strict_equal x x = true) by (intros; now apply strict_equal_true).
  assert (Hupdate : forall s,
            snd (DynamicProperty.updateValue s)
            = if strict_equal (DynamicProperty.value s)
                   (DynamicProperty.value (fst (DynamicProperty.updateValue s)))
              then []
              else map (fun callback =>
                          (callback, DynamicProperty.value (fst (DynamicProperty.updateValue s))))
                       (EventDispatcher.listeners (DynamicProperty.events s) (str "change"))).
  { intros s. unfold DynamicProperty.updateValue.
    destruct (strict_equal (DynamicProperty.value s) _) eqn:E; cbn [fst snd].
    - now rewrite Hsame.
    - cbn [DynamicProperty.value]. rewrite E.
      unfold EventDispatcher.trigger, EventDispatcher.listeners.
      now destruct (EventDispatcher.get _ _). }
  cbn zeta. destruct op as [v | v p random | token | e cb]; cbn [DynamicProperty.step].
  - unfold DynamicProperty.set_defaultValue. cbn [DynamicProperty.overrides].
    destruct (length (DynamicProperty.overrides this) =? 0).
    + match goal with |- context [DynamicProperty.updateValue ?x] =>
        exact (Hupdate x) end.
    + cbn. now rewrite Hsame.
  - unfold DynamicProperty.setOverride.
    destruct (DynamicProperty.insertion_index p (DynamicProperty.overrides this) =? 0).
    + match goal with |- context [DynamicProperty.updateValue ?x] =>
        pose proof (Hupdate x) as Hu;
        destruct (DynamicProperty.updateValue x) as [this'' calls] end.
      exact Hu.
    + cbn. now rewrite Hsame.
  - unfold DynamicProperty.clearOverride.
    destruct (DynamicProperty.token_index token (DynamicProperty.overrides this)) as [i |].
    + destruct (i =? 0).
      * match goal with |- context [DynamicProperty.updateValue ?x] =>
          pose proof (Hupdate x) as Hu;
          destruct (DynamicProperty.updateValue x) as [this'' calls] end.
        exact Hu.
      * cbn. now rewrite Hsame.
    + cbn. now rewrite Hsame.
  - cbn. now rewrite Hsame.
Qed.

(** ** EventListenerCollection *)

Lemma collection_after (ops : list EventListenerCollection.Op) :
  forall this calls,
    flat_map EventListenerCollection.remove_call this
    = map EventListenerCollection.undo calls ->
    length this = length calls ->
    let result :=
      fold_left
        (fun '(this, calls) op =>
           let '(this', made) := EventListenerCollection.step this op in
           (this', calls ++ made))
        ops (this, calls) in
    flat_map EventListenerCollection.remove_call (fst result)
    = map EventListenerCollection.undo (snd result) /\
    length (fst result) = length (snd result) /\
    length (fst result) = length this + length ops.
Proof.
  induction ops as [| op ops IH]; intros this calls Hcalls Hlen; cbn [fold_left].
  - cbn. repeat split; try assumption. lia.
  - assert (Hstep :
      flat_map EventListenerCollection.remove_call
        (fst (EventListenerCollection.step this op))
      = map EventListenerCollection.undo
          (calls ++ snd (EventListenerCollection.step this op))
      /\ length (fst (EventListenerCollection.step this op))
         = length (calls ++ snd (EventListenerCollection.step this op))
      /\ length (fst (EventListenerCollection.step this op)) = S (length this)).
    { destruct op as [object args | object args | object args]; cbn;
        rewrite flat_map_app, map_app, Hcalls, !length_app, Hlen; cbn;
        repeat split; lia. }
    destruct (EventListenerCollection.step this op) as [this' made].
    cbn [fst snd] in Hstep. destruct Hstep as (H1 & H2 & H3).
    specialize (IH this' (calls ++ made) H1 H2). cbn zeta in IH |- *.
    destruct IH as (I1 & I2 & I3). split; [exact I1 |]. split; [exact I2 |].
    etransitivity; [exact I3 |]. rewrite H3. simpl. lia.
Qed.

(** X25. [removeAllEventListeners] takes back every listener that was
    added, calling for each call of [addEventListener], [addListener] and
    [on] the removing method on the same object with the same arguments, in
    the order of the adding, and leaves the collection empty; [size] is the
    number of listeners added since. *)
Theorem removeAll_undoes_every_add (ops : list EventListenerCollection.Op) :
  let this := fst (EventListenerCollection.after ops) in
  let added := snd (EventListenerCollection.after ops) in
  EventListenerCollection.size this = length ops /\
  EventListenerCollection.removeAllEventListeners this
  = ([], map EventListenerCollection.undo added).
Proof.
  cbn zeta.
  assert (H :
    flat_map EventListenerCollection.remove_call (fst (EventListenerCollection.after ops))
    = map EventListenerCollection.undo (snd (EventListenerCollection.after ops))
    /\ length (fst (EventListenerCollection.after ops))
       = length (snd (EventListenerCollection.after ops))
    /\ length (fst (EventListenerCollection.after ops)) = length ops)
    by exact (collection_after ops EventListenerCollection.new [] eq_refl eq_refl).
  destruct (EventListenerCollection.after ops) as [this added].
  cbn [fst snd] in *. destruct H as (H1 & H2 & H3). split; [exact H3 |].
  unfold EventListenerCollection.removeAllEventListeners.
  destruct (Nat.eqb_spec (length this) 0) as [Hz | _]; [| now rewrite H1].
  destruct this; [| discriminate]. destruct added; [reflexivity | discriminate].
Qed.

(** [addGeneric] is one of the three adding methods when the type is its
    name, and throws for every other type. *)
Lemma addGeneric_dispatches (this : EventListenerCollection.t) (type : jsstring)
    (object : nat) (args : list JsValue) :
  EventListenerCollection.addGeneric this type object args
  = if jsstring_eq_dec type (str "addEventListener")
    then EventListenerCollection.Done
           (fst (EventListenerCollection.addEventListener this object args))
           (snd (EventListenerCollection.addEventListener this object args))
    else if jsstring_eq_dec type (str "addListener")
    then EventListenerCollection.Done
           (fst (EventListenerCollection.addListener this object args))
           (snd (EventListenerCollection.addListener this object args))
    else if jsstring_eq_dec type (str "on")
    then EventListenerCollection.Done
           (fst (EventListenerCollection.on this object args))
           (snd (EventListenerCollection.on this object args))
    else EventListenerCollection.InvalidType type.
Proof.
  unfold EventListenerCollection.addGeneric, eqb_js.
  repeat destruct (jsstring_eq_dec type _); reflexivity.
Qed.

(** ** QueryParser *)

Lemma createTerm_spec (cr : jsstring -> jsstring -> jsstring) (term : list QueryParser.Segment) :
  forall offset,
    let children := fst (QueryParser.createTerm cr offset term) in
    concat (map QueryParser.segment_text children) = concat (map QueryParser.text term) /\
    snd (QueryParser.createTerm cr offset term)
    = offset + length (concat (map QueryParser.text term)) /\
    forall before text reading o after,
      children = before ++ QueryParser.Ruby text reading o :: after ->
      o = offset + length (concat (map QueryParser.segment_text before)).
Proof.
  induction term as [| segment rest IH]; intros offset; cbn zeta.
  - cbn. repeat split; [lia |]. intros before text reading o after H.
    destruct before; discriminate.
  - cbn [QueryParser.createTerm].
    specialize (IH (offset + length (QueryParser.text segment))). cbn zeta in IH.
    destruct (QueryParser.createTerm cr (offset + length (QueryParser.text segment)) rest)
      as [nodes offset'].
    cbn [fst snd] in *. destruct IH as (Htext & Hoffset & Hruby).
    assert (Hnode :
      QueryParser.segment_text
        (if length (QueryParser.reading segment) =? 0
         then QueryParser.TextNode (QueryParser.text segment)
         else QueryParser.Ruby (QueryParser.text segment)
                (cr (QueryParser.text segment) (QueryParser.reading segment)) offset)
      = QueryParser.text segment)
      by (destruct (length (QueryParser.reading segment) =? 0); reflexivity).
    split; [| split].
    + cbn [map concat]. now rewrite Hnode, Htext.
    + cbn [map concat]. rewrite length_app, Hoffset. lia.
    + intros before text reading o after H.
      destruct before as [| first before].
      * cbn in H |- *. injection H as Hfirst _.
        destruct (length (QueryParser.reading segment) =? 0); [discriminate |].
        injection Hfirst as _ _ ->. lia.
      * cbn [app] in H. injection H as Hfirst Hrest.
        rewrite (Hruby _ _ _ _ _ Hrest). cbn [map concat].
        rewrite length_app, <- Hfirst, Hnode. lia.
Qed.

Lemma createTerms_spec (cr : jsstring -> jsstring -> jsstring)
    (data : list (list QueryParser.Segment)) :
  forall offset,
    let nodes := QueryParser.createTerms cr offset data in
    concat (map QueryParser.term_text nodes) = QueryParser.parsed_text data /\
    forall before node after,
      nodes = before ++ node :: after ->
      QueryParser.term_offset node
      = offset + length (concat (map QueryParser.term_text before)) /\
      forall cbefore text reading o cafter,
        QueryParser.term_children node
        = cbefore ++ QueryParser.Ruby text reading o :: cafter ->
        o = QueryParser.term_offset node
            + length (concat (map QueryParser.segment_text cbefore)).
Proof.
  induction data as [| term rest IH]; intros offset; cbn zeta.
  - cbn. split; [reflexivity |]. intros before node after H. destruct before; discriminate.
  - cbn [QueryParser.createTerms].
    destruct (createTerm_spec cr term offset) as (Htext & Hoffset & Hruby).
    destruct (QueryParser.createTerm cr offset term) as [children offset'].
    cbn [fst snd] in *. subst offset'.
    specialize (IH (offset + length (concat (map QueryParser.text term)))).
    cbn zeta in IH. destruct IH as (IHtext & IHnodes).
    split.
    + cbn [map concat]. unfold QueryParser.term_text at 1. cbn [QueryParser.term_children].
      rewrite Htext, IHtext. reflexivity.
    + intros before node after H. destruct before as [| first before].
      * cbn in H. injection H as <- _. cbn. split; [lia |]. exact Hruby.
      * cbn [app] in H. injection H as <- Hrest.
        destruct (IHnodes _ _ _ Hrest) as [Hoff Hchildren].
        split; [| exact Hchildren].
        rewrite Hoff. cbn [map concat]. unfold QueryParser.term_text at 2.
        cbn [QueryParser.term_children]. rewrite length_app, Htext. lia.
Qed.

(** X26. In the nodes of [_createParseResult] the base text of the term
    nodes, one after the other, is the parsed text, whatever the readings
    are; the offset written on a term node is the position of its text in
    the parsed text, and the offset written on a ruby segment is the
    position of the text of the segment, all in UTF-16 code units. *)
Theorem parse_result_offsets_are_positions
    (convertReading : jsstring -> jsstring -> jsstring)
    (data : list (list QueryParser.Segment)) :
  let nodes := QueryParser.createParseResult convertReading data in
  concat (map QueryParser.term_text nodes) = QueryParser.parsed_text data /\
  forall before node after,
    nodes = before ++ node :: after ->
    QueryParser.term_offset node = length (concat (map QueryParser.term_text before)) /\
    forall cbefore text reading o cafter,
      QueryParser.term_children node
      = cbefore ++ QueryParser.Ruby text reading o :: cafter ->
      o = QueryParser.term_offset node
          + length (concat (map QueryParser.segment_text cbefore)).
Proof.
  exact (createTerms_spec convertReading data 0).
Qed.

Lemma selectLoop_spec (sel : option jsstring) (rs : list QueryParser.ParseResult) :
  forall index before,
    let result := QueryParser.selectLoop rs sel index before in
    map QueryParser.option_value (fst result) = map QueryParser.id rs /\
    ((snd result = before /\ forall r, In r rs -> is_selected sel r = false)
     \/ exists j r,
          snd result = (index + Z.of_nat j)%Z /\
          nth_error rs j = Some r /\
          is_selected sel r = true /\
          forall j' r', j < j' -> nth_error rs j' = Some r' -> is_selected sel r' = false).
Proof.
  induction rs as [| r rs IH]; intros index before; cbn zeta.
  - cbn. split; [reflexivity |]. left. split; [reflexivity | tauto].
  - cbn [QueryParser.selectLoop].
    set (before' := match sel with
                    | Some selected =>
                        if eqb_js selected (QueryParser.id r) then index else before
                    | None => before
                    end).
    specialize (IH (index + 1)%Z before'). cbn zeta in IH.
    destruct (QueryParser.selectLoop rs sel (index + 1) before') as [options final].
    cbn [fst snd] in *. destruct IH as (Hvalues & Hfinal).
    split; [cbn; now rewrite Hvalues |].
    destruct Hfinal as [[Hsame Hnone] | (j & r' & Hj & Hnth & Hsel & Hlater)].
    + destruct (is_selected sel r) eqn:Er.
      * right. exists 0, r. repeat split; try assumption.
        -- subst final before'. unfold is_selected in Er.
           destruct sel as [selected |]; [| discriminate]. rewrite Er. lia.
        -- intros j' r'' Hlt Hn. destruct j' as [| j']; [lia |].
           cbn in Hn. apply nth_error_In in Hn. now apply Hnone.
      * left. split.
        -- subst final before'. unfold is_selected in Er.
           destruct sel as [selected |]; [now rewrite Er | reflexivity].
        -- intros r'' [<- | Hin]; [exact Er | now apply Hnone].
    + right. exists (S j), r'. repeat split; try assumption.
      * rewrite Hj. lia.
      * intros j' r'' Hlt Hn. destruct j' as [| j']; [lia |].
        cbn in Hn. apply (Hlater j' r''); [lia | exact Hn].
Qed.

Lemma find_is_selected (sel : option jsstring) (rs : list QueryParser.ParseResult) :
  QueryParser.getParseResult rs sel = find (is_selected sel) rs.
Proof.
  unfold QueryParser.getParseResult.
  induction rs as [| r rs IH]; [reflexivity |]. cbn [find]. rewrite IH.
  assert (Hr : match sel with
               | Some selected => eqb_js (QueryParser.id r) selected
               | None => false
               end = is_selected sel r).
  { unfold is_selected. destruct sel as [selected |]; [| reflexivity].
    destruct (eqb_js (QueryParser.id r) selected) eqn:E.
    - apply eqb_js_true in E. symmetry. now apply eqb_js_true.
    - destruct (eqb_js selected (QueryParser.id r)) eqn:E'; [| reflexivity].
      apply eqb_js_true in E'. subst selected. now rewrite eqb_js_refl in E. }
  now rewrite Hr.
Qed.

(** X27. [_updateParserModeSelect] appends one option for each parse
    result, in order, with its id as value, and selects the last result
    whose id is the selected parser: [selectedIndex] is [-1] exactly when
    [_getParseResult] finds no result, and when the ids are pairwise
    different the selected option is the result that [_getParseResult]
    returns, which is the one rendered. *)
Theorem selected_option_is_the_rendered_result
    (parseResults : list QueryParser.ParseResult) (selectedParser : option jsstring) :
  let options := fst (QueryParser.updateParserModeSelect parseResults selectedParser) in
  let selectedIndex := snd (QueryParser.updateParserModeSelect parseResults selectedParser) in
  map QueryParser.option_value options = map QueryParser.id parseResults /\
  (selectedIndex = (-1)%Z <-> QueryParser.getParseResult parseResults selectedParser = None) /\
  (selectedIndex <> (-1)%Z ->
   (0 <= selectedIndex)%Z /\
   exists r,
     nth_error parseResults (Z.to_nat selectedIndex) = Some r /\
     selectedParser = Some (QueryParser.id r) /\
     forall j' r',
       Z.to_nat selectedIndex < j' -> nth_error parseResults j' = Some r' ->
       selectedParser <> Some (QueryParser.id r')) /\
  (NoDup (map QueryParser.id parseResults) ->
   selectedIndex <> (-1)%Z ->
   nth_error parseResults (Z.to_nat selectedIndex)
   = QueryParser.getParseResult parseResults selectedParser).
Proof.
  cbn zeta. unfold QueryParser.updateParserModeSelect.
  destruct (selectLoop_spec selectedParser parseResults 0 (-1)) as (Hvalues & Hfinal).
  cbn zeta in Hvalues, Hfinal. rewrite find_is_selected.
  assert (Hsel : forall r, is_selected selectedParser r = true <->
                           selectedParser = Some (QueryParser.id r)).
  { intros r. unfold is_selected. destruct selectedParser as [selected |].
    - rewrite eqb_js_true. split; congruence.
    - split; discriminate. }
  split; [exact Hvalues |].
  destruct Hfinal as [[Hsame Hnone] | (j & r & Hj & Hnth & Hr & Hlater)].
  - rewrite Hsame. split; [| split; [congruence | congruence]].
    split; [| reflexivity]. intros _.
    destruct (find (is_selected selectedParser) parseResults) as [r |] eqn:E;
      [| reflexivity].
    apply find_some in E as [Hin Hr]. rewrite (Hnone r Hin) in Hr. discriminate.
  - rewrite Hj. replace (Z.to_nat (0 + Z.of_nat j)) with j by lia.
    split; [| split].
    + split; [lia |]. intros E.
      pose proof (find_none _ _ E r (nth_error_In _ _ Hnth)) as Hno. congruence.
    + intros _. split; [lia |]. exists r. repeat split; try assumption.
      * now apply Hsel.
      * intros j' r' Hlt Hn Hc. apply Hsel in Hc.
        rewrite (Hlater j' r' Hlt Hn) in Hc. discriminate.
    + intros Hnodup _.
      destruct (find (is_selected selectedParser) parseResults) as [r1 |] eqn:E.
      * apply find_some in E as [Hin Hr1].
        apply In_nth_error in Hin as [j1 Hj1].
        assert (Hids : QueryParser.id r = QueryParser.id r1).
        { apply Hsel in Hr, Hr1. congruence. }
        assert (j = j1).
        { apply (proj1 (NoDup_nth_error (map QueryParser.id parseResults)) Hnodup).
          - rewrite length_map. apply nth_error_Some. congruence.
          - rewrite !nth_error_map, Hnth, Hj1. cbn. now rewrite Hids. }
        subst j1. congruence.
      * pose proof (find_none _ _ E r (nth_error_In _ _ Hnth)) as Hno. congruence.
Qed.

Lemma selected_option_is_the_rendered_result_witness :
  let results :=
    [ {| QueryParser.id := str "scan"; QueryParser.source := str "scanning-parser";
         QueryParser.dictionary := []; QueryParser.content := [] |};
      {| QueryParser.id := str "mecab-ipadic"; QueryParser.source := str "mecab";
         QueryParser.dictionary := str "ipadic"; QueryParser.content := [] |} ] in
  nth_error results
    (Z.to_nat (snd (QueryParser.updateParserModeSelect results (Some (str "mecab-ipadic")))))
  = QueryParser.getParseResult results (Some (str "mecab-ipadic")).
Proof.
  cbn zeta.
  apply (selected_option_is_the_rendered_result _ (Some (str "mecab-ipadic"))).
  - cbn. repeat constructor; cbn; intuition discriminate.
  - vm_compute. discriminate.
Defined.
